(** * TypeScript-to-Zod schema generator: model and verified properties

    Shallow embedding of [generate_zod_schema.py]
    (class [TypeScriptToZodConverter]).  Python strings are lists of
    characters; a character is a code point below 256.  The regular
    expressions of the script are kept as syntax trees and run by a
    backtracking matcher that follows the search order of Python's [re]
    module (leftmost match, greedy and lazy repetition, ordered choice).
    [convert_type] recurses on ever shorter strings; it is defined with a
    bound on the depth and shown to return whenever the bound exceeds
    the length of its argument.

    Modules [Py], [Re], [Zod] and [Cli] hold the embedding ([Cli] is
    the function [main] of the script), [Props] and [MoreProps] the
    definitions used to state the properties, the modules after them the
    lemmas, and [Claims] and [Extras] the properties themselves. *)

From Stdlib Require Import String Ascii List Arith Bool Lia.
Import ListNotations.
Open Scope string_scope.
Open Scope nat_scope.
Open Scope list_scope.

Abbreviation length := Datatypes.length.

(** A Python [str]. String literals are read as character lists. *)
Definition text := list ascii.
Coercion list_ascii_of_string : string >-> list.

(** ** Python string methods *)

Module Py.

(** [str.isspace] and the class [\s] of [re], for code points below 256. *)
Definition isspace (c : ascii) : bool :=
  let n := nat_of_ascii c in
  ((9 <=? n) && (n <=? 13)) || ((28 <=? n) && (n <=? 32))
  || (n =? 133) || (n =? 160).

(** The class [\w] of [re] on [str] patterns, for code points below 256. *)
Definition isword (c : ascii) : bool :=
  let n := nat_of_ascii c in
  ((48 <=? n) && (n <=? 57)) || ((65 <=? n) && (n <=? 90)) || (n =? 95)
  || ((97 <=? n) && (n <=? 122))
  || (n =? 170) || (n =? 178) || (n =? 179) || (n =? 181) || (n =? 185)
  || (n =? 186) || ((188 <=? n) && (n <=? 190))
  || ((192 <=? n) && (n <=? 214)) || ((216 <=? n) && (n <=? 246))
  || (248 <=? n).

Definition newline : ascii := "010"%char.

Fixpoint text_eqb (a b : text) : bool :=
  match a, b with
  | [], [] => true
  | x :: a', y :: b' => Ascii.eqb x y && text_eqb a' b'
  | _, _ => false
  end.

Fixpoint dropwhile (p : ascii -> bool) (s : text) : text :=
  match s with
  | c :: s' => if p c then dropwhile p s' else s
  | [] => []
  end.

Definition lstrip (s : text) : text := dropwhile isspace s.
Definition rstrip (s : text) : text := rev (dropwhile isspace (rev s)).
(** [s.strip()] *)
Definition strip (s : text) : text := rstrip (lstrip s).
(** [s.rstrip(c)] for a one-character argument. *)
Definition rstrip_char (c : ascii) (s : text) : text :=
  rev (dropwhile (Ascii.eqb c) (rev s)).

(** [strip_prefix p s] is the rest of [s] after the prefix [p], if any. *)
Fixpoint strip_prefix (p s : text) : option text :=
  match p, s with
  | [], _ => Some s
  | x :: p', y :: s' => if Ascii.eqb x y then strip_prefix p' s' else None
  | _ :: _, [] => None
  end.

(** [s.startswith(p)] and [s.endswith(p)] *)
Definition startswith (p s : text) : bool :=
  match strip_prefix p s with Some _ => true | None => false end.
Definition endswith (p s : text) : bool := startswith (rev p) (rev s).

(** [needle in s] *)
Fixpoint contains (needle s : text) : bool :=
  startswith needle s ||
  match s with
  | [] => false
  | _ :: s' => contains needle s'
  end.

(** [s[a:-b]] for [b > 0], and [s[:-b]] as [slice 0 b s]. *)
Definition slice (a b : nat) (s : text) : text :=
  firstn (length s - b - a) (skipn a s).

(** [s.split(c)] for a one-character separator. *)
Fixpoint split (c : ascii) (s : text) : list text :=
  match s with
  | [] => [[]]
  | x :: s' =>
      if Ascii.eqb x c then [] :: split c s'
      else match split c s' with
           | p :: ps => (x :: p) :: ps
           | [] => [[x]]
           end
  end.

(** [sep.join(parts)] *)
Fixpoint join (sep : text) (parts : list text) : text :=
  match parts with
  | [] => []
  | [p] => p
  | p :: ps => p ++ sep ++ join sep ps
  end.

(** A [dict] with [str] keys: insertion order is kept, assigning to a
    present key replaces its value in place. *)
Definition dict (V : Type) := list (text * V).

Fixpoint dict_get {V} (k : text) (d : dict V) : option V :=
  match d with
  | [] => None
  | (k', v) :: d' => if text_eqb k k' then Some v else dict_get k d'
  end.

Definition dict_mem {V} (k : text) (d : dict V) : bool :=
  match dict_get k d with Some _ => true | None => false end.

Fixpoint dict_set {V} (k : text) (v : V) (d : dict V) : dict V :=
  match d with
  | [] => [(k, v)]
  | (k', v') :: d' =>
      if text_eqb k k' then (k', v) :: d' else (k', v') :: dict_set k v d'
  end.

End Py.

(** ** Regular expressions, as Python's [re] runs them *)

Module Re.

Inductive regex : Type :=
| Lit (s : text)                          (* literal characters *)
| Cls (p : ascii -> bool)                 (* one character of a class *)
| Star (greedy : bool) (p : ascii -> bool)  (* [c*] and [c*?] *)
| Seq (a b : regex)
| Alt (a b : regex)                       (* [a|b], left first *)
| Opt (a : regex)                         (* [a?] *)
| Grp (n : nat) (a : regex)               (* capturing group number [n] *)
| Bol                                     (* [^] under MULTILINE *)
| Eol                                     (* [$] under MULTILINE *)
| Eos.                                    (* [$] without MULTILINE *)

(** [c+] and [c+?] *)
Definition Plus (greedy : bool) (p : ascii -> bool) : regex :=
  Seq (Cls p) (Star greedy p).

(** [.] without and with DOTALL *)
Definition dot (c : ascii) : bool := negb (Ascii.eqb c Py.newline).
Definition dotall (c : ascii) : bool := true.
Definition chr (x : ascii) (c : ascii) : bool := Ascii.eqb c x.
Definition notchr (x : ascii) (c : ascii) : bool := negb (Ascii.eqb c x).

(** Matcher state: the text before the cursor (nearest character first),
    the text after it, and the groups captured so far (latest first). *)
Record mstate : Type := MS {
  ms_before : text;
  ms_rest : text;
  ms_groups : list (nat * text)
}.

Section Matcher.
Context {R : Type}.

Fixpoint star_greedy (p : ascii -> bool) (bef rest : text)
         (k : text -> text -> option R) {struct rest} : option R :=
  match rest with
  | c :: rest' =>
      if p c then
        match star_greedy p (c :: bef) rest' k with
        | Some r => Some r
        | None => k bef rest
        end
      else k bef rest
  | [] => k bef rest
  end.

Fixpoint star_lazy (p : ascii -> bool) (bef rest : text)
         (k : text -> text -> option R) {struct rest} : option R :=
  match k bef rest with
  | Some r => Some r
  | None =>
      match rest with
      | c :: rest' => if p c then star_lazy p (c :: bef) rest' k else None
      | [] => None
      end
  end.

(** [mt r st k]: match [r] at [st], then continue with [k]; a failing
    continuation makes the matcher try its next alternative. *)
Fixpoint mt (r : regex) (st : mstate) (k : mstate -> option R)
         {struct r} : option R :=
  match r with
  | Lit s =>
      match Py.strip_prefix s (ms_rest st) with
      | Some rest' => k (MS (rev s ++ ms_before st) rest' (ms_groups st))
      | None => None
      end
  | Cls p =>
      match ms_rest st with
      | c :: rest' =>
          if p c then k (MS (c :: ms_before st) rest' (ms_groups st))
          else None
      | [] => None
      end
  | Star g p =>
      (if g then star_greedy else star_lazy) p (ms_before st) (ms_rest st)
        (fun b r => k (MS b r (ms_groups st)))
  | Seq a b => mt a st (fun st' => mt b st' k)
  | Alt a b =>
      match mt a st k with
      | Some x => Some x
      | None => mt b st k
      end
  | Opt a =>
      match mt a st k with
      | Some x => Some x
      | None => k st
      end
  | Grp n a =>
      mt a st (fun st' =>
        let len := length (ms_before st') - length (ms_before st) in
        k (MS (ms_before st') (ms_rest st')
              ((n, rev (firstn len (ms_before st'))) :: ms_groups st')))
  | Bol =>
      match ms_before st with
      | [] => k st
      | c :: _ => if Ascii.eqb c Py.newline then k st else None
      end
  | Eol =>
      match ms_rest st with
      | [] => k st
      | c :: _ => if Ascii.eqb c Py.newline then k st else None
      end
  | Eos =>
      match ms_rest st with
      | [] => k st
      | [c] => if Ascii.eqb c Py.newline then k st else None
      | _ => None
      end
  end.
End Matcher.

(** A match object: the matched text and the captured groups. *)
Record rmatch : Type := RM {
  m_text : text;
  m_groups : list (nat * text)
}.

(** [m.group(n)]; [None] when the group took no part in the match. *)
Fixpoint group_in (n : nat) (gs : list (nat * text)) : option text :=
  match gs with
  | [] => None
  | (n', t) :: gs' => if n =? n' then Some t else group_in n gs'
  end.
Definition group (n : nat) (m : rmatch) : option text :=
  group_in n (m_groups m).
(** [m.group(n)] for a group that takes part in every match. *)
Definition group_str (n : nat) (m : rmatch) : text :=
  match group n m with Some t => t | None => [] end.

(** Try the pattern with the cursor after [bef] and before [rest]. *)
Definition match_at (r : regex) (bef rest : text) : option rmatch :=
  mt r (MS bef rest []) (fun st =>
    Some (RM (rev (firstn (length (ms_before st) - length bef) (ms_before st)))
             (ms_groups st))).

(** [re.match(r, s)] *)
Definition re_match (r : regex) (s : text) : option rmatch :=
  match_at r [] s.

Fixpoint search_from (r : regex) (bef rest : text) : option rmatch :=
  match match_at r bef rest with
  | Some m => Some m
  | None =>
      match rest with
      | [] => None
      | c :: rest' => search_from r (c :: bef) rest'
      end
  end.

(** [re.search(r, s)] *)
Definition re_search (r : regex) (s : text) : option rmatch :=
  search_from r [] s.

(** Scan for successive matches; [skip] counts the characters of the
    last match still to be stepped over.  Every pattern the script scans
    with consumes at least one character; after an empty match the scan
    moves one character on. *)
Fixpoint scan (r : regex) (skip : nat) (bef rest : text) {struct rest}
  : list rmatch :=
  match skip with
  | S n =>
      match rest with
      | [] => []
      | c :: rest' => scan r n (c :: bef) rest'
      end
  | 0 =>
      match match_at r bef rest with
      | Some m =>
          m :: match rest with
               | [] => []
               | c :: rest' => scan r (length (m_text m) - 1) (c :: bef) rest'
               end
      | None =>
          match rest with
          | [] => []
          | c :: rest' => scan r 0 (c :: bef) rest'
          end
      end
  end.

(** [r.finditer(s)] *)
Definition finditer (r : regex) (s : text) : list rmatch := scan r 0 [] s.

(** [re.sub(r, '', s)]: delete every match. *)
Fixpoint delete_from (r : regex) (skip : nat) (bef rest : text) {struct rest}
  : text :=
  match skip with
  | S n =>
      match rest with
      | [] => []
      | c :: rest' => delete_from r n (c :: bef) rest'
      end
  | 0 =>
      match rest with
      | [] => []
      | c :: rest' =>
          match match_at r bef rest with
          | Some m =>
              match length (m_text m) with
              | 0 => c :: delete_from r 0 (c :: bef) rest'
              | S n => delete_from r n (c :: bef) rest'
              end
          | None => c :: delete_from r 0 (c :: bef) rest'
          end
      end
  end.

Definition re_delete (r : regex) (s : text) : text := delete_from r 0 [] s.

End Re.

(** ** The converter *)

Module Zod.
Import Py Re.

Definition dquote : ascii := "034"%char.
Definition squote : ascii := "039"%char.
Definition quote_char (c : ascii) : bool :=
  Ascii.eqb c dquote || Ascii.eqb c squote.

(** Exceptions raised by the script, and results of code that can raise. *)
Inductive exn : Type := ValueError (msg : text).
Inductive result (A : Type) : Type :=
| Ok (a : A)
| Raise (e : exn).
Arguments Ok {A} a.
Arguments Raise {A} e.

Fixpoint mapM {A B : Type} (f : A -> option B) (l : list A)
  : option (list B) :=
  match l with
  | [] => Some []
  | x :: l' =>
      match f x with
      | Some y =>
          match mapM f l' with
          | Some ys => Some (y :: ys)
          | None => None
          end
      | None => None
      end
  end.

(** *** The regular expressions of the script *)

Definition ws : regex := Star true isspace.        (* "\s*" *)
Definition ws1 : regex := Plus true isspace.       (* "\s+" *)
Definition word : regex := Plus true isword.       (* "\w+" *)
Infix ";;" := Seq (at level 61, right associativity).

(** "\s*\|\s*(undefined|null)" *)
Definition optional_re : regex :=
  ws ;; Lit "|" ;; ws ;; Grp 1 (Alt (Lit "undefined") (Lit "null")).

(** "Record<\s*(.+?)\s*,\s*(.+?)\s*>" *)
Definition record_re : regex :=
  Lit "Record<" ;; ws ;; Grp 1 (Plus false dot) ;; ws ;; Lit "," ;;
  ws ;; Grp 2 (Plus false dot) ;; ws ;; Lit ">".

(** "interface\s+(\w+)" *)
Definition interface_name_re : regex := Lit "interface" ;; ws1 ;; Grp 1 word.

(** [field_pattern], MULTILINE: "^\s*", then optionally a JSDoc comment
    "/\*\*\s*(.+?)\s*\*/\s*", then "(\w+)(\??)\s*:\s*(.+?);?\s*$" *)
Definition field_pattern : regex :=
  Bol ;; ws ;;
  Opt (Lit "/**" ;; ws ;; Grp 1 (Plus false dot) ;; ws ;; Lit "*/" ;; ws) ;;
  Grp 2 word ;; Grp 3 (Opt (Lit "?")) ;; ws ;; Lit ":" ;; ws ;;
  Grp 4 (Plus false dot) ;; Opt (Lit ";") ;; ws ;; Eol.

(** "\{(.+?)\}", DOTALL *)
Definition body_re : regex := Lit "{" ;; Grp 1 (Plus false dotall) ;; Lit "}".

(** "type\s+(\w+)\s*=\s*(.+?);?\s*$", DOTALL *)
Definition alias_re : regex :=
  Lit "type" ;; ws1 ;; Grp 1 word ;; ws ;; Lit "=" ;; ws ;;
  Grp 2 (Plus false dotall) ;; Opt (Lit ";") ;; ws ;; Eos.

(** "enum\s+(\w+)" *)
Definition enum_name_re : regex := Lit "enum" ;; ws1 ;; Grp 1 word.

(** [value_pattern]: "(\w+)\s*", then optionally "=\s*[q](.+?)[q]\s*", where
    [q] is the class of the two quote characters *)
Definition value_pattern : regex :=
  Grp 1 word ;; ws ;;
  Opt (Lit "=" ;; ws ;; Cls quote_char ;; Grp 2 (Plus false dot) ;;
       Cls quote_char ;; ws).

Definition export_opt : regex := Opt (Lit "export" ;; ws1).

(** "(?:export\s+)?interface\s+\w+\s*\{[^}]*\}", DOTALL *)
Definition interface_pattern : regex :=
  export_opt ;; Lit "interface" ;; ws1 ;; word ;; ws ;; Lit "{" ;;
  Star true (notchr "}") ;; Lit "}".

(** "(?:export\s+)?type\s+\w+\s*=\s*[^;]+;?", DOTALL *)
Definition type_pattern : regex :=
  export_opt ;; Lit "type" ;; ws1 ;; word ;; ws ;; Lit "=" ;; ws ;;
  Plus true (notchr ";") ;; Opt (Lit ";").

(** "(?:export\s+)?enum\s+\w+\s*\{[^}]*\}", DOTALL *)
Definition enum_pattern : regex :=
  export_opt ;; Lit "enum" ;; ws1 ;; word ;; ws ;; Lit "{" ;;
  Star true (notchr "}") ;; Lit "}".

(** *** [TypeScriptToZodConverter] *)

Definition TYPE_MAP : dict text :=
  [ ("string" : text, "z.string()" : text);
    ("number" : text, "z.number()" : text);
    ("boolean" : text, "z.boolean()" : text);
    ("Date" : text, "z.date()" : text);
    ("any" : text, "z.any()" : text);
    ("unknown" : text, "z.unknown()" : text);
    ("null" : text, "z.null()" : text);
    ("undefined" : text, "z.undefined()" : text);
    ("void" : text, "z.void()" : text) ].

(** The three registries of a converter object. *)
Record Converter : Type := MkConverter {
  interfaces : dict text;
  types : dict text;
  enums : dict (list text)
}.

(** [__init__] *)
Definition init : Converter := MkConverter [] [] [].

(** The head of [convert_type]: strip, then the two optionality rules. *)
Definition strip_optional (ts_type : text) (optional : bool) : text * bool :=
  let ts_type := strip ts_type in
  let '(ts_type, optional) :=
    if endswith "?" ts_type then (strip (slice 0 1 ts_type), true)
    else (ts_type, optional) in
  if contains " | undefined" ts_type || contains " | null" ts_type
  then (strip (re_delete optional_re ts_type), true)
  else (ts_type, optional).

(** The [if]/[elif] chain of [convert_type]; [rec] is the recursive call
    [self.convert_type(t)]. *)
Definition convert_rules (self : Converter) (rec : text -> option text)
           (ts_type : text) : option text :=
  match dict_get ts_type TYPE_MAP with
  | Some zod => Some zod
  | None =>
    if endswith "[]" ts_type then
      let inner_type := strip (slice 0 2 ts_type) in
      match rec inner_type with
      | Some inner_zod => Some ("z.array(" ++ inner_zod ++ ")")
      | None => None
      end
    else if startswith "Array<" ts_type && endswith ">" ts_type then
      let inner_type := strip (slice 6 1 ts_type) in
      match rec inner_type with
      | Some inner_zod => Some ("z.array(" ++ inner_zod ++ ")")
      | None => None
      end
    else if startswith "Record<" ts_type then
      match re_match record_re ts_type with
      | Some m =>
          let value_type := group_str 2 m in
          match rec value_type with
          | Some value_zod => Some ("z.record(" ++ value_zod ++ ")")
          | None => None
          end
      | None => Some ("z.record(z.any())" : text)
      end
    else if contains " | " ts_type then
      let union_types := map strip (split "|" ts_type) in
      match mapM rec union_types with
      | Some union_zods => Some ("z.union([" ++ join ", " union_zods ++ "])")
      | None => None
      end
    else if startswith [squote] ts_type || startswith [dquote] ts_type then
      Some ("z.literal(" ++ ts_type ++ ")")
    else if dict_mem ts_type (interfaces self) || dict_mem ts_type (types self)
            || dict_mem ts_type (enums self) then
      Some (ts_type ++ "Schema")
    else
      Some ("z.any() /* TODO: define schema for " ++ ts_type ++ " */")
  end.

Definition add_optional (optional : bool) (zod : text) : text :=
  if optional then zod ++ ".optional()" else zod.

(** [convert_type], with the depth of the recursion bounded by [fuel];
    [None] means the bound was reached. *)
Fixpoint convert_type_fuel (fuel : nat) (self : Converter) (ts_type : text)
         (optional : bool) : option text :=
  match fuel with
  | 0 => None
  | S fuel' =>
      let '(ts_type, optional) := strip_optional ts_type optional in
      match convert_rules self
              (fun t => convert_type_fuel fuel' self t false) ts_type with
      | Some zod => Some (add_optional optional zod)
      | None => None
      end
  end.

(** [convert_type]: every recursive call is on a shorter string, so the
    length of the argument bounds the depth (theorem
    [convert_type_total] below). *)
Definition convert_type (self : Converter) (ts_type : text) (optional : bool)
  : text :=
  match convert_type_fuel (S (length ts_type)) self ts_type optional with
  | Some zod => zod
  | None => []
  end.

(** A parsed field: name, type, optional flag, description. *)
Definition field : Type := text * text * bool * option text.

Definition parse_interface (interface_str : text)
  : result (text * list field) :=
  match re_search interface_name_re interface_str with
  | None => Raise (ValueError "Could not parse interface name")
  | Some name_match =>
      let name := group_str 1 name_match in
      let fields :=
        match re_search body_re interface_str with
        | Some body_match =>
            let body := group_str 1 body_match in
            map (fun m =>
                   (group_str 2 m, strip (group_str 4 m),
                    text_eqb (group_str 3 m) "?", group 1 m))
                (finditer field_pattern body)
        | None => []
        end in
      Ok (name, fields)
  end.

Definition parse_type_alias (type_str : text) : result (text * text) :=
  match re_search alias_re type_str with
  | None => Raise (ValueError "Could not parse type alias")
  | Some m =>
      let name := group_str 1 m in
      let type_def := rstrip_char ";" (strip (group_str 2 m)) in
      Ok (name, type_def)
  end.

(** [match.group(2) if match.group(2) else match.group(1)] *)
Definition enum_value (m : rmatch) : text :=
  match group 2 m with
  | Some (c :: v) => c :: v
  | _ => group_str 1 m
  end.

Definition parse_enum (enum_str : text) : result (text * list text) :=
  match re_search enum_name_re enum_str with
  | None => Raise (ValueError "Could not parse enum name")
  | Some name_match =>
      let name := group_str 1 name_match in
      let values :=
        match re_search body_re enum_str with
        | Some body_match =>
            let body := group_str 1 body_match in
            map enum_value (finditer value_pattern body)
        | None => []
        end in
      Ok (name, values)
  end.

Definition nl : text := [newline].

Definition type_binding (name : text) : text :=
  "export type " ++ name ++ " = z.infer<typeof " ++ name ++ "Schema>;".

Definition field_line (self : Converter) (f : field) : text :=
  let '(field_name, field_type, optional, description) := f in
  let zod_type := convert_type self field_type optional in
  match description with
  | Some (c :: d) =>
      "  " ++ field_name ++ ": " ++ zod_type ++ ".describe(" ++ [dquote]
        ++ (c :: d) ++ [dquote] ++ "),"
  | _ => "  " ++ field_name ++ ": " ++ zod_type ++ ","
  end.

Definition interface_to_zod (self : Converter) (name : text)
           (fields : list field) : text :=
  let schema_lines :=
    ["export const " ++ name ++ "Schema = z.object({"]
    ++ map (field_line self) fields
    ++ ["});" : text; "" : text; type_binding name] in
  join nl schema_lines.

Definition type_alias_to_zod (self : Converter) (name type_def : text)
  : text :=
  let zod_type := convert_type self type_def false in
  join nl [ "export const " ++ name ++ "Schema = " ++ zod_type ++ ";";
            "" : text; type_binding name ].

Definition enum_to_zod (name : text) (values : list text) : text :=
  let quoted_values := map (fun v => [dquote] ++ v ++ [dquote]) values in
  let zod_def :=
    match quoted_values with
    | [q] => "z.literal(" ++ q ++ ")"
    | _ => "z.enum([" ++ join ", " quoted_values ++ "])"
    end in
  join nl [ "export const " ++ name ++ "Schema = " ++ zod_def ++ ";";
            "" : text; type_binding name ].

(** The three extraction loops of [convert_file]. *)
Definition add_interface (self : Converter) (m : rmatch) : Converter :=
  let interface_str := m_text m in
  match parse_interface interface_str with
  | Ok (name, _) =>
      MkConverter (dict_set name interface_str (interfaces self))
                  (types self) (enums self)
  | Raise _ => self
  end.

Definition add_type (self : Converter) (m : rmatch) : Converter :=
  match parse_type_alias (m_text m) with
  | Ok (name, type_def) =>
      MkConverter (interfaces self) (dict_set name type_def (types self))
                  (enums self)
  | Raise _ => self
  end.

Definition add_enum (self : Converter) (m : rmatch) : Converter :=
  match parse_enum (m_text m) with
  | Ok (name, values) =>
      MkConverter (interfaces self) (types self)
                  (dict_set name values (enums self))
  | Raise _ => self
  end.

Definition extract (self : Converter) (input_content : text) : Converter :=
  let self :=
    fold_left add_interface (finditer interface_pattern input_content) self in
  let self := fold_left add_type (finditer type_pattern input_content) self in
  fold_left add_enum (finditer enum_pattern input_content) self.

Definition header : list text :=
  [ "import { z } from 'zod';" : text; "" : text;
    "// Auto-generated Zod schemas" : text; "" : text ].

(** The last loop of [convert_file]; [parse_interface] is called outside
    any [try], so an exception would leave [convert_file]. *)
Fixpoint emit_interfaces (self : Converter) (items : dict text)
         (output_lines : list text) : result (list text) :=
  match items with
  | [] => Ok output_lines
  | (name, interface_str) :: items' =>
      match parse_interface interface_str with
      | Ok (_, fields) =>
          emit_interfaces self items'
            (output_lines ++ [interface_to_zod self name fields; "" : text])
      | Raise e => Raise e
      end
  end.

(** [convert_file]: the registries are updated in place, so the call
    returns the converter together with the generated text. *)
Definition convert_file (self : Converter) (input_content : text)
  : result (Converter * text) :=
  let output_lines := header in
  let self := extract self input_content in
  let output_lines :=
    fold_left (fun out '(name, values) =>
                 out ++ [enum_to_zod name values; "" : text])
              (enums self) output_lines in
  let output_lines :=
    fold_left (fun out '(name, type_def) =>
                 out ++ [type_alias_to_zod self name type_def; "" : text])
              (types self) output_lines in
  match emit_interfaces self (interfaces self) output_lines with
  | Ok output_lines => Ok (self, join nl output_lines)
  | Raise e => Raise e
  end.

End Zod.

(** ** The command line *)

Module Cli.
Import Py Re Zod.






End Cli.

(** ** Definitions used to state the properties *)

Module Props.
Import Py Re Zod.

(** The words a pattern can consume (anchors consume nothing). *)
Inductive lang : regex -> text -> Prop :=
| lang_lit s : lang (Lit s) s
| lang_cls p c : p c = true -> lang (Cls p) [c]
| lang_star g p w : Forall (fun c => p c = true) w -> lang (Star g p) w
| lang_seq a b u v : lang a u -> lang b v -> lang (Seq a b) (u ++ v)
| lang_alt_l a b u : lang a u -> lang (Alt a b) u
| lang_alt_r a b u : lang b u -> lang (Alt a b) u
| lang_opt_some a u : lang a u -> lang (Opt a) u
| lang_opt_none a : lang (Opt a) []
| lang_grp n a u : lang a u -> lang (Grp n a) u
| lang_bol : lang Bol []
| lang_eol : lang Eol []
| lang_eos : lang Eos [].

(** The capturing groups of a pattern, with their sub-patterns. *)
Fixpoint groups_of (r : regex) : list (nat * regex) :=
  match r with
  | Seq a b | Alt a b => groups_of a ++ groups_of b
  | Opt a => groups_of a
  | Grp n a => (n, a) :: groups_of a
  | _ => []
  end.

(** A captured group lies inside the consumed word and belongs to the
    language of its sub-pattern. *)
Definition group_ok (r : regex) (w : text) (g : nat * text) : Prop :=
  length (snd g) <= length w /\
  exists a, In (fst g, a) (groups_of r) /\ lang a (snd g).

(** The rule of [convert_type] that fires on a stripped expression: the
    conditions of the [if]/[elif] chain, in the order of the script. *)
Inductive rule : Type :=
| R_primitive | R_array_suffix | R_array_generic | R_record
| R_union | R_literal | R_reference | R_fallback.

Definition which_rule (self : Converter) (ts_type : text) : rule :=
  match dict_get ts_type TYPE_MAP with
  | Some _ => R_primitive
  | None =>
    if endswith "[]" ts_type then R_array_suffix
    else if startswith "Array<" ts_type && endswith ">" ts_type
    then R_array_generic
    else if startswith "Record<" ts_type then R_record
    else if contains " | " ts_type then R_union
    else if startswith [squote] ts_type || startswith [dquote] ts_type
    then R_literal
    else if dict_mem ts_type (interfaces self) || dict_mem ts_type (types self)
            || dict_mem ts_type (enums self)
    then R_reference
    else R_fallback
  end.

(** An expression names a declaration of one of the registries. *)
Definition declared (self : Converter) (t : text) : bool :=
  dict_mem t (interfaces self) || dict_mem t (types self)
  || dict_mem t (enums self).

(** Every key of a registry is made of word characters. *)
Definition word_keys {V} (d : dict V) : Prop :=
  Forall (fun kv => forallb isword (fst kv) = true) d.

Definition registry_names_ok (self : Converter) : Prop :=
  word_keys (interfaces self) /\ word_keys (types self)
  /\ word_keys (enums self).

(** A stored interface text that [parse_interface] accepts. *)
Definition parses (s : text) : Prop :=
  exists r, parse_interface s = Ok r.

(** The blocks [convert_file] emits for the entries of the registries. *)
Definition enum_block (kv : text * list text) : text :=
  enum_to_zod (fst kv) (snd kv).
Definition alias_block (self : Converter) (kv : text * text) : text :=
  type_alias_to_zod self (fst kv) (snd kv).
Definition shape_block (self : Converter) (kv : text * text) : text :=
  match parse_interface (snd kv) with
  | Ok (_, fields) => interface_to_zod self (fst kv) fields
  | Raise _ => []
  end.
Definition blocks (self : Converter) : list text :=
  map enum_block (enums self) ++ map (alias_block self) (types self)
  ++ map (shape_block self) (interfaces self).

(** The keys of a registry, in insertion order. *)
Definition keys {V} (d : dict V) : list text := map fst d.


(** A repetition of class [p] cannot go on into [s]. *)
Definition stops (p : ascii -> bool) (s : text) : Prop :=
  match s with
  | [] => True
  | c :: _ => p c = false
  end.

(** An identifier: one or more word characters. *)
Definition is_ident (s : text) : bool :=
  match s with
  | [] => false
  | _ :: _ => forallb isword s
  end.

(** An enum member as written in the source: its identifier and, when
    it has one, the text of its quoted value. *)
Definition member : Type := text * option text.

Definition member_text (m : member) : text :=
  match m with
  | (id, None) => id
  | (id, Some v) => id ++ " = " ++ [dquote] ++ v ++ [dquote]
  end.

Definition member_value (m : member) : text :=
  match m with
  | (id, None) => id
  | (_, Some v) => v
  end.

(** A quoted value the patterns read back whole: not empty, on one line,
    without quote characters and without a closing brace. *)
Definition plain_value_char (c : ascii) : bool :=
  dot c && negb (quote_char c) && notchr "}" c.

Definition member_ok (m : member) : bool :=
  is_ident (fst m)
  && match snd m with
     | None => true
     | Some [] => false
     | Some v => forallb plain_value_char v
     end.

(** An enum declaration with its members separated by a comma and a
    space. *)
Definition enum_text (name : text) (ms : list member) : text :=
  "enum " ++ name ++ " { " ++ join ", " (map member_text ms) ++ " }".

(** A generic argument the [Record] pattern reads back whole: not empty,
    without spaces at its ends, on one line, and without the character
    that ends it ([stop]). *)
Definition plain_arg (stop : ascii) (s : text) : bool :=
  match s with
  | [] => false
  | _ :: _ =>
      text_eqb (strip s) s && negb (contains [stop] s)
      && negb (contains [newline] s)
  end.

(** A union branch the optionality pattern leaves alone: not empty,
    without spaces at its ends and without a bar. *)
Definition plain_branch (s : text) : bool :=
  match s with
  | [] => false
  | _ :: _ => text_eqb (strip s) s && negb (contains "|" s)
  end.

(** The union split as the specification words it: only a bar outside
    every angle-bracket and parenthesis pair separates two branches. *)
Fixpoint spec_split_top_level (depth : nat) (s : text) : list text :=
  match s with
  | [] => [[]]
  | x :: s' =>
      if Ascii.eqb x "|" && (depth =? 0) then [] :: spec_split_top_level depth s'
      else
        let depth' :=
          if Ascii.eqb x "<" || Ascii.eqb x "(" then S depth
          else if Ascii.eqb x ">" || Ascii.eqb x ")" then pred depth
          else depth in
        match spec_split_top_level depth' s' with
        | p :: ps => (x :: p) :: ps
        | [] => [[x]]
        end
  end.

End Props.

(** ** Definitions used to state the further properties *)

Module MoreProps.
Import Py Re Zod Props.

(** A pattern without anchors. *)
Fixpoint anchor_free (r : regex) : bool :=
  match r with
  | Bol | Eol | Eos => false
  | Seq a b | Alt a b => anchor_free a && anchor_free b
  | Opt a | Grp _ a => anchor_free a
  | _ => true
  end.

(** Every word of the pattern holds a character with property [P]. *)
Fixpoint needs (P : ascii -> Prop) (r : regex) : Prop :=
  match r with
  | Lit s => Exists P s
  | Cls q => forall c, q c = true -> P c
  | Seq a b => needs P a \/ needs P b
  | Alt a b => needs P a /\ needs P b
  | Grp _ a => needs P a
  | _ => False
  end.

(** The second converter has every name of the first, in the same
    order, and possibly more after them. *)
Definition grows (self self' : Converter) : Prop :=
  (exists l, keys (interfaces self') = keys (interfaces self) ++ l)
  /\ (exists l, keys (types self') = keys (types self) ++ l)
  /\ (exists l, keys (enums self') = keys (enums self) ++ l).

(** A field as written in the source: its name, whether it carries the
    optional mark, its type, and the text of the JSDoc comment on the
    line before it, if any. *)
Definition decl : Type := text * bool * text * option text.

Definition mark (optional : bool) : text := if optional then "?" else "".

(** The field without its indentation: the comment line when there is
    one, then [name: type;] or [name?: type;]. *)
Definition decl_core (d : decl) : text :=
  let '(name, optional, ty, description) := d in
  match description with
  | Some doc => "/** " ++ doc ++ " */" ++ nl ++ "  "
  | None => []
  end ++ name ++ mark optional ++ ": " ++ ty ++ ";".

(** A type or a comment the field pattern reads back whole: not empty,
    on one line, without spaces at its ends and without the character
    [stop] or a closing brace. *)
Definition plain_line (stop : ascii) (s : text) : bool :=
  match s with
  | [] => false
  | _ :: _ =>
      text_eqb (strip s) s
      && forallb (fun c => dot c && notchr stop c && notchr "}" c) s
  end.

Definition decl_ok (d : decl) : bool :=
  let '(name, _, ty, description) := d in
  is_ident name && plain_line ";" ty
  && match description with
     | Some doc => plain_line "*" doc
     | None => true
     end.

(** An interface declaration with one field a line, indented by two
    spaces. *)
Definition interface_text (name : text) (ds : list decl) : text :=
  "interface " ++ name ++ " {"
    ++ concat (map (fun d => nl ++ "  " ++ decl_core d) ds) ++ nl ++ "}".

(** The field [parse_interface] is to return for a written field. *)
Definition decl_field (d : decl) : field :=
  let '(name, optional, ty, description) := d in
  (name, ty, optional, description).

(** A run of assignments [d[k] = v], in order. *)
Definition assign {V} (d : dict V) (kvs : list (text * V)) : dict V :=
  fold_left (fun d kv => dict_set (fst kv) (snd kv) d) kvs d.

(** The assignments the three loops of [convert_file] make for a source
    text. *)
Definition interface_assignments (src : text) : list (text * text) :=
  flat_map (fun m => match parse_interface (m_text m) with
                     | Ok (name, _) => [(name, m_text m)]
                     | Raise _ => []
                     end)
           (finditer interface_pattern src).

Definition type_assignments (src : text) : list (text * text) :=
  flat_map (fun m => match parse_type_alias (m_text m) with
                     | Ok (name, type_def) => [(name, type_def)]
                     | Raise _ => []
                     end)
           (finditer type_pattern src).

Definition enum_assignments (src : text) : list (text * list text) :=
  flat_map (fun m => match parse_enum (m_text m) with
                     | Ok (name, values) => [(name, values)]
                     | Raise _ => []
                     end)
           (finditer enum_pattern src).

(** A keyword that begins nowhere inside [export ] followed by that
    keyword. *)
Definition clear_of_export (kw : text) : bool :=
  forallb (fun v => negb (startswith kw (v ++ kw)))
          [ "export " : text; "xport " : text; "port " : text; "ort " : text;
            "rt " : text; "t " : text; " " : text ].

(** An alias as written in the source: [type N = rhs;] with a right-hand
    side without semicolon and without blanks at its ends. *)
Definition alias_ok (a : text * text) : bool :=
  is_ident (fst a)
  && match snd a with
     | [] => false
     | _ :: _ => text_eqb (strip (snd a)) (snd a)
                 && negb (contains ";" (snd a))
     end.

Definition alias_text (a : text * text) : text :=
  "type " ++ fst a ++ " = " ++ snd a ++ ";".

End MoreProps.

(** ** Facts about the string methods *)

Module PyFacts.
Import Py.

Lemma text_eqb_eq (a b : text) : text_eqb a b = true <-> a = b.
Proof.
  revert b; induction a as [|x a IH]; intros [|y b]; simpl;
    try (split; [discriminate | congruence]); try tauto.
  rewrite andb_true_iff, Ascii.eqb_eq, IH.
  split; [intros [-> ->]; reflexivity | intros H; inversion H; auto].
Qed.

Lemma text_eqb_refl (a : text) : text_eqb a a = true.
Proof. apply text_eqb_eq; reflexivity. Qed.

Lemma text_eqb_neq (a b : text) : text_eqb a b = false <-> a <> b.
Proof.
  rewrite <- text_eqb_eq. destruct (text_eqb a b); split; congruence.
Qed.

Lemma length_dropwhile p (s : text) : length (dropwhile p s) <= length s.
Proof.
  induction s as [|c s IH]; simpl; [lia|].
  destruct (p c); simpl; lia.
Qed.

Lemma length_lstrip (s : text) : length (lstrip s) <= length s.
Proof. apply length_dropwhile. Qed.

Lemma length_rstrip (s : text) : length (rstrip s) <= length s.
Proof.
  unfold rstrip. rewrite length_rev.
  etransitivity; [apply length_dropwhile|]. rewrite length_rev; lia.
Qed.

Lemma length_strip (s : text) : length (strip s) <= length s.
Proof.
  unfold strip. etransitivity; [apply length_rstrip | apply length_lstrip].
Qed.

Lemma strip_prefix_Some (p s r : text) :
  strip_prefix p s = Some r <-> s = p ++ r.
Proof.
  revert s; induction p as [|x p IH]; intros s; simpl.
  - split; congruence.
  - destruct s as [|y s]; [split; discriminate|].
    destruct (Ascii.eqb_spec x y) as [->|N].
    + rewrite IH. split; [intros ->; reflexivity | intros H; inversion H; auto].
    + split; [discriminate | intros H; inversion H; congruence].
Qed.

Lemma strip_prefix_app (p r : text) : strip_prefix p (p ++ r) = Some r.
Proof. apply strip_prefix_Some; reflexivity. Qed.

Lemma startswith_true (p s : text) :
  startswith p s = true <-> exists r, s = p ++ r.
Proof.
  unfold startswith. destruct (strip_prefix p s) as [r|] eqn:E.
  - apply strip_prefix_Some in E. split; eauto.
  - split; [discriminate|]. intros [r Hr].
    apply strip_prefix_Some in Hr. congruence.
Qed.

Lemma startswith_app (p r : text) : startswith p (p ++ r) = true.
Proof. apply startswith_true; eauto. Qed.

Lemma endswith_true (p s : text) :
  endswith p s = true <-> exists r, s = r ++ p.
Proof.
  unfold endswith. rewrite startswith_true. split; intros [r Hr].
  - exists (rev r). rewrite <- (rev_involutive s), Hr, rev_app_distr.
    rewrite rev_involutive; reflexivity.
  - exists (rev r). rewrite Hr, rev_app_distr; reflexivity.
Qed.

Lemma endswith_app (p r : text) : endswith p (r ++ p) = true.
Proof. apply endswith_true; eauto. Qed.

Lemma slice_0_app (s p : text) : slice 0 (length p) (s ++ p) = s.
Proof.
  unfold slice. simpl. rewrite length_app.
  replace (length s + length p - length p - 0) with (length s) by lia.
  rewrite firstn_app, firstn_all, Nat.sub_diag. simpl. apply app_nil_r.
Qed.

Lemma slice_app (a s p : text) :
  slice (length a) (length p) (a ++ s ++ p) = s.
Proof.
  unfold slice. rewrite skipn_app, skipn_all, Nat.sub_diag. simpl.
  rewrite !length_app.
  replace (length a + (length s + length p) - length p - length a)
    with (length s) by lia.
  rewrite firstn_app, firstn_all, Nat.sub_diag. simpl. apply app_nil_r.
Qed.

Lemma length_slice (a b : nat) (s : text) :
  length (slice a b s) <= length s - b - a.
Proof. unfold slice. rewrite length_firstn. lia. Qed.

(** Every piece of a split is shorter than the text by at least the
    number of separators. *)
Lemma split_length (c : ascii) (s p : text) :
  In p (split c s) -> length p + count_occ ascii_dec s c <= length s.
Proof.
  revert p; induction s as [|x s IH]; intros p; simpl.
  - intros [<-|[]]; simpl; lia.
  - pose proof (count_occ_bound ascii_dec c s) as Hb.
    destruct (Ascii.eqb_spec x c) as [->|N].
    + destruct (ascii_dec c c); [|congruence].
      intros [<-|H]; simpl; [lia|]. specialize (IH _ H). lia.
    + destruct (ascii_dec x c); [congruence|].
      destruct (split c s) as [|q qs] eqn:E.
      * intros [<-|[]]. simpl. lia.
      * intros [<-|H]; simpl.
        -- specialize (IH q (or_introl eq_refl)). lia.
        -- specialize (IH p (or_intror H)). lia.
Qed.

Lemma contains_In (needle s : text) (c : ascii) :
  In c needle -> contains needle s = true -> In c s.
Proof.
  intros Hc. induction s as [|x s IH]; intros H; simpl in H.
  - rewrite orb_false_r in H. apply startswith_true in H.
    destruct H as [r Hr]. destruct needle; [destruct Hc | discriminate].
  - apply orb_true_iff in H. destruct H as [H|H].
    + apply startswith_true in H. destruct H as [r Hr].
      rewrite Hr. apply in_or_app; auto.
    + right; auto.
Qed.

Lemma count_occ_pos (s : text) (c : ascii) :
  In c s -> 1 <= count_occ ascii_dec s c.
Proof. intros H. apply (count_occ_In ascii_dec) in H. lia. Qed.

End PyFacts.

(** ** More facts about stripping and searching *)

Module StripFacts.
Import Py PyFacts.

Lemma dropwhile_stop p (s : text) :
  match s with [] => True | c :: _ => p c = false end -> dropwhile p s = s.
Proof. destruct s as [|c s]; simpl; [auto|]. intros ->. reflexivity. Qed.

Lemma dropwhile_app_stop p (a b : text) :
  match b with [] => True | c :: _ => p c = false end ->
  dropwhile p (a ++ b) = dropwhile p a ++ b.
Proof.
  intros Hb. induction a as [|x a IH]; simpl.
  - apply dropwhile_stop. exact Hb.
  - destruct (p x); [exact IH | reflexivity].
Qed.

Lemma dropwhile_idem p (s : text) :
  dropwhile p (dropwhile p s) = dropwhile p s.
Proof.
  induction s as [|c s IH]; simpl; [reflexivity|].
  destruct (p c) eqn:E; [exact IH|]. simpl. rewrite E. reflexivity.
Qed.

Lemma dropwhile_head p (s : text) :
  match dropwhile p s with [] => True | c :: _ => p c = false end.
Proof.
  induction s as [|c s IH]; simpl; [exact I|].
  destruct (p c) eqn:E; [exact IH | exact E].
Qed.

Lemma dropwhile_all p (s : text) :
  forallb p s = true -> dropwhile p s = [].
Proof.
  induction s as [|c s IH]; simpl; [reflexivity|].
  destruct (p c); simpl; [exact IH | discriminate].
Qed.

Lemma dropwhile_fixed p (s : text) :
  dropwhile p s = s -> match s with [] => True | c :: _ => p c = false end.
Proof. intros <-. apply dropwhile_head. Qed.

(** [rstrip] leaves a text alone when its last character is no space. *)
Lemma rstrip_app_last (s : text) (c : ascii) :
  isspace c = false -> rstrip (s ++ [c]) = s ++ [c].
Proof.
  intros H. unfold rstrip. rewrite rev_app_distr. simpl. rewrite H.
  simpl. rewrite rev_involutive. reflexivity.
Qed.

Lemma lstrip_app_last (s : text) (c : ascii) :
  isspace c = false -> lstrip (s ++ [c]) = lstrip s ++ [c].
Proof. intros H. apply dropwhile_app_stop. exact H. Qed.

Lemma strip_app_last (s : text) (c : ascii) :
  isspace c = false -> strip (s ++ [c]) = lstrip s ++ [c].
Proof.
  intros H. unfold strip. rewrite lstrip_app_last by exact H.
  apply rstrip_app_last. exact H.
Qed.

Lemma lstrip_idem (s : text) : lstrip (lstrip s) = lstrip s.
Proof. apply dropwhile_idem. Qed.

Lemma rstrip_idem (s : text) : rstrip (rstrip s) = rstrip s.
Proof.
  unfold rstrip. rewrite rev_involutive, dropwhile_idem. reflexivity.
Qed.

(** [rstrip s] is [s] without a run of spaces at its end. *)
Lemma rstrip_prefix (s : text) :
  exists w, s = rstrip s ++ w /\ forallb isspace w = true.
Proof.
  assert (forall r : text, exists w,
             rev r = rev (dropwhile isspace r) ++ w /\ forallb isspace w = true)
    as H.
  { induction r as [|c r IH]; simpl.
    - exists []. auto.
    - destruct (isspace c) eqn:E.
      + destruct IH as (w & Hw & Hs). exists (w ++ [c]). split.
        * rewrite Hw. rewrite <- app_assoc. reflexivity.
        * rewrite forallb_app, Hs. simpl. rewrite E. reflexivity.
      + exists []. rewrite app_nil_r. auto. }
  destruct (H (rev s)) as (w & Hw & Hs). rewrite rev_involutive in Hw.
  exists w. auto.
Qed.

Lemma lstrip_rstrip (s : text) : lstrip (rstrip (lstrip s)) = rstrip (lstrip s).
Proof.
  pose proof (dropwhile_head isspace s) as Hh. fold (lstrip s) in Hh.
  destruct (rstrip_prefix (lstrip s)) as (w & Hw & _).
  destruct (rstrip (lstrip s)) as [|c r] eqn:E; [reflexivity|].
  rewrite Hw in Hh. simpl in Hh. unfold lstrip. simpl. rewrite Hh. reflexivity.
Qed.

Lemma strip_idem (s : text) : strip (strip s) = strip s.
Proof.
  unfold strip. rewrite lstrip_rstrip. apply rstrip_idem.
Qed.

Lemma strip_lstrip (s : text) : strip (lstrip s) = strip s.
Proof. unfold strip. rewrite lstrip_idem. reflexivity. Qed.

(** A text equal to its own strip starts and ends with a non-space. *)
Lemma stripped_lstrip (s : text) : strip s = s -> lstrip s = s.
Proof.
  intros H. destruct s as [|c s]; [reflexivity|].
  unfold lstrip. simpl. destruct (isspace c) eqn:E; [|reflexivity].
  exfalso. pose proof (length_rstrip (lstrip (c :: s))) as H1.
  fold (strip (c :: s)) in H1. rewrite H in H1.
  unfold lstrip in H1. simpl in H1. rewrite E in H1.
  pose proof (length_dropwhile isspace s). lia.
Qed.

Lemma stripped_rstrip (s : text) : strip s = s -> rstrip s = s.
Proof.
  intros H. pose proof (stripped_lstrip s H) as Hl.
  unfold strip in H. rewrite Hl in H. exact H.
Qed.

Lemma stripped_head (c : ascii) (s : text) :
  strip (c :: s) = c :: s -> isspace c = false.
Proof.
  intros H. apply stripped_lstrip in H. apply dropwhile_fixed in H. exact H.
Qed.

Lemma stripped_last (s : text) (c : ascii) :
  strip (s ++ [c]) = s ++ [c] -> isspace c = false.
Proof.
  intros H. apply stripped_rstrip in H. unfold rstrip in H.
  apply (f_equal (@rev ascii)) in H. rewrite rev_involutive in H.
  apply dropwhile_fixed in H. rewrite rev_app_distr in H. exact H.
Qed.

Lemma strip_fixed (s : text) :
  match s with [] => True | c :: _ => isspace c = false end ->
  match rev s with [] => True | c :: _ => isspace c = false end ->
  strip s = s.
Proof.
  intros H1 H2. unfold strip, lstrip, rstrip.
  rewrite (dropwhile_stop _ s H1), (dropwhile_stop _ (rev s) H2).
  apply rev_involutive.
Qed.

(** A non-empty text is its front followed by its last character. *)
Lemma text_last (s : text) : s <> [] -> exists s' c, s = s' ++ [c].
Proof.
  intros H. destruct (exists_last H) as (s' & c & E). eauto.
Qed.

Lemma endswith_last (p s : text) (c d : ascii) :
  endswith (p ++ [c]) (s ++ [d]) = true -> c = d.
Proof.
  intros H. apply endswith_true in H. destruct H as [r Hr].
  rewrite app_assoc in Hr. apply app_inj_tail in Hr. destruct Hr; auto.
Qed.

Lemma endswith_char_false (p s : text) (c d : ascii) :
  c <> d -> endswith (p ++ [c]) (s ++ [d]) = false.
Proof.
  intros N. destruct (endswith (p ++ [c]) (s ++ [d])) eqn:E; [|reflexivity].
  apply endswith_last in E. contradiction.
Qed.

Lemma startswith_head (p s : text) (c d : ascii) :
  c <> d -> startswith (c :: p) (d :: s) = false.
Proof.
  intros N. unfold startswith. simpl.
  destruct (Ascii.eqb_spec c d); [contradiction | reflexivity].
Qed.

Lemma startswith_nil_false (c : ascii) (p : text) : startswith (c :: p) [] = false.
Proof. reflexivity. Qed.

(** Searching a needle whose characters avoid a prefix or a suffix. *)
Lemma contains_app_l (needle a s : text) :
  needle <> [] -> (forall c, In c a -> ~ In c needle) ->
  contains needle (a ++ s) = contains needle s.
Proof.
  intros Hn Ha. induction a as [|x a IH]; [reflexivity|].
  simpl app. simpl contains.
  destruct needle as [|n needle]; [contradiction|].
  rewrite startswith_head.
  - simpl. apply IH. intros c Hc. apply Ha. right; exact Hc.
  - intros ->. apply (Ha x); simpl; auto.
Qed.

Lemma startswith_app_r (needle s b : text) :
  needle <> [] -> (forall c, In c b -> ~ In c needle) ->
  startswith needle (s ++ b) = startswith needle s.
Proof.
  intros Hn Hb. unfold startswith.
  revert needle Hn Hb. induction s as [|x s IH]; intros needle Hn Hb.
  - simpl. destruct needle as [|n needle]; [contradiction|].
    destruct b as [|y b]; [reflexivity|]. simpl.
    destruct (Ascii.eqb_spec n y) as [->|N]; [|reflexivity].
    exfalso. apply (Hb y); simpl; auto.
  - destruct needle as [|n needle]; [contradiction|]. simpl.
    destruct (Ascii.eqb n x); [|reflexivity].
    destruct needle as [|n' needle]; [reflexivity|].
    apply IH; [discriminate|].
    intros c Hc Hin. apply (Hb c Hc). right; exact Hin.
Qed.

Lemma contains_app_r (needle s b : text) :
  needle <> [] -> (forall c, In c b -> ~ In c needle) ->
  contains needle (s ++ b) = contains needle s.
Proof.
  intros Hn Hb. induction s as [|x s IH].
  - simpl app. transitivity false.
    + induction b as [|y b IHb]; simpl.
      * destruct needle; [contradiction | reflexivity].
      * destruct needle as [|n needle]; [contradiction|].
        rewrite startswith_head.
        -- simpl. apply IHb. intros c Hc. apply Hb. right; exact Hc.
        -- intros ->. apply (Hb y); simpl; auto.
    + simpl. destruct needle; [contradiction | reflexivity].
  - simpl app. simpl contains. rewrite IH.
    change (x :: s ++ b) with ((x :: s) ++ b).
    rewrite startswith_app_r by assumption. reflexivity.
Qed.

Lemma contains_suffix (needle a s : text) :
  contains needle s = true -> contains needle (a ++ s) = true.
Proof.
  intros H. induction a as [|x a IH]; [exact H|].
  simpl. rewrite IH. apply orb_true_r.
Qed.

Lemma contains_dropwhile p (needle s : text) :
  contains needle s = false -> contains needle (dropwhile p s) = false.
Proof.
  induction s as [|c s IH]; simpl; [auto|].
  intros H. apply orb_false_iff in H. destruct H as [H1 H2].
  destruct (p c); [auto|]. simpl. rewrite H1, H2. reflexivity.
Qed.

Lemma contains_at_end (needle s : text) : contains needle (s ++ needle) = true.
Proof.
  apply contains_suffix. destruct needle as [|n needle]; [reflexivity|].
  pose proof (startswith_app (n :: needle) []) as H.
  rewrite app_nil_r in H. simpl contains. rewrite H. reflexivity.
Qed.

Lemma contains_not_In (needle s : text) (c : ascii) :
  In c needle -> ~ In c s -> contains needle s = false.
Proof.
  intros Hn Hs. destruct (contains needle s) eqn:E; [|reflexivity].
  exfalso. apply Hs. eapply contains_In; eauto.
Qed.

(** Splitting a text that holds no separator, and around one. *)
Lemma split_none (c : ascii) (s : text) : ~ In c s -> split c s = [s].
Proof.
  induction s as [|x s IH]; simpl; [reflexivity|]. intros H.
  destruct (Ascii.eqb_spec x c) as [->|N]; [exfalso; apply H; auto|].
  rewrite IH; [reflexivity|]. intros Hin. apply H; auto.
Qed.

Lemma split_app (c : ascii) (a b : text) :
  ~ In c a -> split c (a ++ c :: b) = a :: split c b.
Proof.
  induction a as [|x a IH]; simpl.
  - rewrite Ascii.eqb_refl. reflexivity.
  - intros H. destruct (Ascii.eqb_spec x c) as [->|N]; [exfalso; apply H; auto|].
    rewrite IH; [reflexivity|]. intros Hin. apply H; auto.
Qed.

Lemma split_nonempty (c : ascii) (s : text) : split c s <> [].
Proof.
  destruct s as [|x s]; simpl; [discriminate|].
  destruct (Ascii.eqb x c); [discriminate|].
  destruct (split c s); discriminate.
Qed.

(** The pieces of a split hold no separator, and joining them with the
    separator gives the text back. *)
Lemma split_no_sep (c : ascii) (s : text) :
  Forall (fun p => ~ In c p) (split c s).
Proof.
  induction s as [|x s IH]; simpl.
  - constructor; [intros []|constructor].
  - destruct (Ascii.eqb_spec x c) as [->|N].
    + constructor; [intros []|exact IH].
    + destruct (split c s) as [|p ps]; inversion IH; subst.
      * constructor; [|constructor]. intros [E|[]]. congruence.
      * constructor; [|assumption]. intros [E|Hin]; [congruence|auto].
Qed.

Lemma join_split (c : ascii) (s : text) : join [c] (split c s) = s.
Proof.
  induction s as [|x s IH]; simpl; [reflexivity|].
  pose proof (split_nonempty c s) as Hne.
  destruct (Ascii.eqb_spec x c) as [->|N].
  - destruct (split c s) as [|p ps]; [contradiction|].
    simpl in *. rewrite IH. reflexivity.
  - destruct (split c s) as [|p ps]; [contradiction|].
    destruct ps as [|q ps]; simpl in *; rewrite <- IH; reflexivity.
Qed.

End StripFacts.

(** ** Facts about the matcher *)

Module ReFacts.
Import Py Re Props PyFacts StripFacts.

Lemma star_greedy_sound {R} p (k : text -> text -> option R) x :
  forall rest bef, star_greedy p bef rest k = Some x ->
  exists u v, rest = u ++ v /\ Forall (fun c => p c = true) u /\
              k (rev u ++ bef) v = Some x.
Proof.
  induction rest as [|c rest IH]; intros bef; simpl.
  - intros H. exists [], []. auto.
  - destruct (p c) eqn:Pc.
    + destruct (star_greedy p (c :: bef) rest k) eqn:E.
      * intros H; inversion H; subst. apply IH in E.
        destruct E as (u & v & -> & Hu & Hk).
        exists (c :: u), v. simpl. rewrite <- app_assoc. simpl. auto.
      * intros H. exists [], (c :: rest). auto.
    + intros H. exists [], (c :: rest). auto.
Qed.

Lemma star_lazy_sound {R} p (k : text -> text -> option R) x :
  forall rest bef, star_lazy p bef rest k = Some x ->
  exists u v, rest = u ++ v /\ Forall (fun c => p c = true) u /\
              k (rev u ++ bef) v = Some x.
Proof.
  induction rest as [|c rest IH]; intros bef; simpl.
  - destruct (k bef []) eqn:E; [|discriminate].
    intros H; inversion H; subst. exists [], []. auto.
  - destruct (k bef (c :: rest)) eqn:E.
    + intros H; inversion H; subst. exists [], (c :: rest). auto.
    + destruct (p c) eqn:Pc; [|discriminate]. intros H. apply IH in H.
      destruct H as (u & v & -> & Hu & Hk).
      exists (c :: u), v. simpl. rewrite <- app_assoc. simpl. auto.
Qed.

Lemma group_ok_seq_l a b u v g : group_ok a u g -> group_ok (Seq a b) (u ++ v) g.
Proof.
  intros [Hl (s & Hin & Hs)]. split; [rewrite length_app; lia|].
  exists s. simpl. split; [apply in_or_app; auto | auto].
Qed.

Lemma group_ok_seq_r a b u v g : group_ok b v g -> group_ok (Seq a b) (u ++ v) g.
Proof.
  intros [Hl (s & Hin & Hs)]. split; [rewrite length_app; lia|].
  exists s. simpl. split; [apply in_or_app; auto | auto].
Qed.

Lemma group_ok_alt_l a b u g : group_ok a u g -> group_ok (Alt a b) u g.
Proof.
  intros [Hl (s & Hin & Hs)]. split; [auto|].
  exists s. simpl. split; [apply in_or_app; auto | auto].
Qed.

Lemma group_ok_alt_r a b u g : group_ok b u g -> group_ok (Alt a b) u g.
Proof.
  intros [Hl (s & Hin & Hs)]. split; [auto|].
  exists s. simpl. split; [apply in_or_app; auto | auto].
Qed.

Lemma group_ok_grp n a u g : group_ok a u g -> group_ok (Grp n a) u g.
Proof.
  intros [Hl (s & Hin & Hs)]. split; [auto|].
  exists s. simpl. auto.
Qed.

(** The text consumed between two cursor positions. *)
Lemma consumed_text (w bef : text) :
  rev (firstn (length (rev w ++ bef) - length bef) (rev w ++ bef)) = w.
Proof.
  rewrite length_app, length_rev, Nat.add_sub.
  rewrite <- (length_rev w) at 1.
  rewrite firstn_app, firstn_all, Nat.sub_diag. simpl.
  rewrite app_nil_r. apply rev_involutive.
Qed.

(** Soundness of the matcher: whenever it succeeds, the continuation was
    run after a word of the pattern's language, with the new groups put
    in front of the old ones. *)
Lemma mt_sound {R} (r : regex) :
  forall st (k : mstate -> option R) x,
    mt r st k = Some x ->
    exists w rest' gs,
      ms_rest st = w ++ rest' /\ lang r w /\ Forall (group_ok r w) gs /\
      k (MS (rev w ++ ms_before st) rest' (gs ++ ms_groups st)) = Some x.
Proof.
  induction r as [s|p|g p|a IHa b IHb|a IHa b IHb|a IHa|n a IHa| | |];
    intros [bef rest gs0] k x; simpl.
  - destruct (strip_prefix s rest) as [rest'|] eqn:E; [|discriminate].
    apply strip_prefix_Some in E. intros H.
    exists s, rest', [].
    split; [exact E|]. split; [constructor|]. split; [constructor|]. exact H.
  - destruct rest as [|c rest']; [discriminate|].
    destruct (p c) eqn:Pc; [|discriminate]. intros H.
    exists [c], rest', [].
    split; [reflexivity|]. split; [constructor; auto|].
    split; [constructor|]. exact H.
  - intros H.
    assert (exists u v, rest = u ++ v /\ Forall (fun c => p c = true) u /\
                        k (MS (rev u ++ bef) v gs0) = Some x) as (u & v & E & Hu & Hk).
    { destruct g; [apply star_greedy_sound in H | apply star_lazy_sound in H];
        exact H. }
    exists u, v, [].
    split; [exact E|]. split; [constructor; auto|]. split; [constructor|].
    exact Hk.
  - intros H. apply IHa in H. destruct H as (u & rest1 & gs1 & E1 & L1 & G1 & H).
    apply IHb in H. destruct H as (v & rest2 & gs2 & E2 & L2 & G2 & H).
    simpl in *. subst rest rest1.
    exists (u ++ v), rest2, (gs2 ++ gs1). rewrite <- app_assoc.
    split; [reflexivity|]. split; [constructor; auto|]. split.
    + apply Forall_app. split.
      * eapply Forall_impl; [|exact G2]. intros g. apply group_ok_seq_r.
      * eapply Forall_impl; [|exact G1]. intros g. apply group_ok_seq_l.
    + rewrite rev_app_distr, <- !app_assoc. exact H.
  - destruct (mt a (MS bef rest gs0) k) eqn:E.
    + intros H; inversion H; subst. apply IHa in E.
      destruct E as (u & rest1 & gs1 & E1 & L1 & G1 & H1).
      exists u, rest1, gs1.
      split; [exact E1|]. split; [apply lang_alt_l; auto|].
      split; [|exact H1].
      eapply Forall_impl; [|exact G1]. intros g. apply group_ok_alt_l.
    + intros H. apply IHb in H.
      destruct H as (u & rest1 & gs1 & E1 & L1 & G1 & H1).
      exists u, rest1, gs1.
      split; [exact E1|]. split; [apply lang_alt_r; auto|].
      split; [|exact H1].
      eapply Forall_impl; [|exact G1]. intros g. apply group_ok_alt_r.
  - destruct (mt a (MS bef rest gs0) k) eqn:E.
    + intros H; inversion H; subst. apply IHa in E.
      destruct E as (u & rest1 & gs1 & E1 & L1 & G1 & H1).
      exists u, rest1, gs1.
      split; [exact E1|]. split; [apply lang_opt_some; auto|].
      split; [|exact H1].
      eapply Forall_impl; [|exact G1]. intros g [Hl (s & Hin & Hs)].
      split; [auto|]. exists s; auto.
    + intros H. exists [], rest, [].
      split; [reflexivity|]. split; [apply lang_opt_none|].
      split; [constructor|]. exact H.
  - intros H. apply IHa in H.
    destruct H as (u & rest1 & gs1 & E1 & L1 & G1 & H1). simpl in *.
    rewrite consumed_text in H1.
    exists u, rest1, ((n, u) :: gs1).
    split; [exact E1|]. split; [constructor; auto|]. split; [|exact H1].
    constructor.
    + split; [simpl; lia|]. exists a. simpl. auto.
    + eapply Forall_impl; [|exact G1]. intros g. apply group_ok_grp.
  - intros H. exists [], rest, [].
    split; [reflexivity|]. split; [constructor|]. split; [constructor|].
    destruct bef as [|c bef]; [exact H|].
    destruct (Ascii.eqb c newline); [exact H | discriminate].
  - intros H. exists [], rest, [].
    split; [reflexivity|]. split; [constructor|]. split; [constructor|].
    destruct rest as [|c rest]; [exact H|].
    destruct (Ascii.eqb c newline); [exact H | discriminate].
  - intros H. exists [], rest, [].
    split; [reflexivity|]. split; [constructor|]. split; [constructor|].
    destruct rest as [|c [|d rest]]; [exact H| |discriminate].
    destruct (Ascii.eqb c newline); [exact H | discriminate].
Qed.

Lemma match_at_sound (r : regex) (bef rest : text) (m : rmatch) :
  match_at r bef rest = Some m ->
  exists rest', rest = m_text m ++ rest' /\ lang r (m_text m) /\
                Forall (group_ok r (m_text m)) (m_groups m).
Proof.
  unfold match_at. intros H. apply mt_sound in H.
  destruct H as (w & rest' & gs & E & L & G & H). simpl in *.
  inversion H; subst; clear H. simpl.
  rewrite consumed_text, app_nil_r. eauto.
Qed.

Lemma group_in_In n gs t : group_in n gs = Some t -> In (n, t) gs.
Proof.
  induction gs as [|[n' t'] gs IH]; simpl; [discriminate|].
  destruct (Nat.eqb_spec n n') as [->|N].
  - intros H; inversion H; auto.
  - auto.
Qed.

Lemma group_sound (r : regex) (bef rest : text) (m : rmatch) n t :
  match_at r bef rest = Some m -> group n m = Some t ->
  group_ok r (m_text m) (n, t) /\ length (m_text m) <= length rest.
Proof.
  intros H G. apply match_at_sound in H. destruct H as (rest' & E & L & F).
  split.
  - rewrite Forall_forall in F. apply F. apply group_in_In. exact G.
  - apply (f_equal (@Datatypes.length ascii)) in E.
    rewrite length_app in E. lia.
Qed.

Lemma search_from_sound (r : regex) (m : rmatch) :
  forall rest bef, search_from r bef rest = Some m ->
  exists u v, rest = u ++ v /\ match_at r (rev u ++ bef) v = Some m.
Proof.
  induction rest as [|c rest IH]; intros bef; simpl.
  - destruct (match_at r bef []) eqn:E; [|discriminate].
    intros H; inversion H; subst. exists [], []. auto.
  - destruct (match_at r bef (c :: rest)) eqn:E.
    + intros H; inversion H; subst. exists [], (c :: rest). auto.
    + intros H. apply IH in H. destruct H as (u & v & -> & H).
      exists (c :: u), v. simpl. rewrite <- app_assoc. auto.
Qed.

Lemma length_delete_from (r : regex) :
  forall rest skip bef, length (delete_from r skip bef rest) <= length rest.
Proof.
  induction rest as [|c rest IH]; intros skip bef.
  - destruct skip; simpl; lia.
  - destruct skip as [|n]; simpl.
    + destruct (match_at r bef (c :: rest)) as [m|].
      * destruct (length (m_text m)); simpl.
        -- specialize (IH 0 (c :: bef)). lia.
        -- specialize (IH n (c :: bef)). lia.
      * simpl. specialize (IH 0 (c :: bef)). lia.
    + specialize (IH n (c :: bef)). lia.
Qed.

Lemma length_re_delete (r : regex) (s : text) :
  length (re_delete r s) <= length s.
Proof. apply length_delete_from. Qed.

End ReFacts.

(** ** Running the matcher on texts of a known shape *)

Module MatchFacts.
Import Py Re Props PyFacts StripFacts ReFacts.

Lemma rev_cons_app (c : ascii) (w bef : text) :
  rev w ++ c :: bef = rev (c :: w) ++ bef.
Proof. simpl. rewrite <- app_assoc. reflexivity. Qed.

Lemma star_greedy_stop {R} p bef rest (k : text -> text -> option R) :
  stops p rest -> star_greedy p bef rest k = k bef rest.
Proof.
  destruct rest as [|c rest]; simpl; [reflexivity|]. intros ->. reflexivity.
Qed.

(** A greedy repetition that can take all of [w] and then succeed. *)
Lemma star_greedy_take {R} p (k : text -> text -> option R) x :
  forall w bef rest,
    forallb p w = true -> stops p rest ->
    k (rev w ++ bef) rest = Some x ->
    star_greedy p bef (w ++ rest) k = Some x.
Proof.
  induction w as [|c w IH]; intros bef rest Hw Hs Hk.
  - simpl in *. rewrite star_greedy_stop; assumption.
  - simpl in Hw. apply andb_true_iff in Hw. destruct Hw as [Hc Hw].
    simpl. rewrite Hc. rewrite (IH (c :: bef) rest Hw Hs); [reflexivity|].
    rewrite rev_cons_app. exact Hk.
Qed.

(** A greedy repetition whose continuation fails wherever it stops. *)
Lemma star_greedy_none {R} p (k : text -> text -> option R) :
  forall s bef,
    (forall u v, s = u ++ v -> forallb p u = true ->
                 k (rev u ++ bef) v = None) ->
    star_greedy p bef s k = None.
Proof.
  induction s as [|c s IH]; intros bef H.
  - simpl. apply (H [] []); reflexivity.
  - simpl. destruct (p c) eqn:Pc.
    + rewrite IH.
      * apply (H [] (c :: s)); reflexivity.
      * intros u v E Hu. rewrite rev_cons_app. apply H.
        -- rewrite E. reflexivity.
        -- simpl. rewrite Pc. exact Hu.
    + apply (H [] (c :: s)); reflexivity.
Qed.

Lemma star_lazy_here {R} p bef rest (k : text -> text -> option R) x :
  k bef rest = Some x -> star_lazy p bef rest k = Some x.
Proof. intros H. destruct rest; simpl; rewrite H; reflexivity. Qed.

(** A lazy repetition moves on over [w] when its continuation fails at
    every earlier stop. *)
Lemma star_lazy_skip {R} p (k : text -> text -> option R) :
  forall w bef rest,
    forallb p w = true ->
    (forall u v, w = u ++ v -> v <> [] ->
                 k (rev u ++ bef) (v ++ rest) = None) ->
    star_lazy p bef (w ++ rest) k = star_lazy p (rev w ++ bef) rest k.
Proof.
  induction w as [|c w IH]; intros bef rest Hw H; [reflexivity|].
  simpl in Hw. apply andb_true_iff in Hw. destruct Hw as [Hc Hw].
  pose proof (H [] (c :: w) eq_refl ltac:(discriminate)) as H0.
  simpl in H0. simpl. rewrite H0, Hc.
  rewrite IH; [rewrite rev_cons_app; reflexivity | exact Hw |].
  intros u v E Hv. rewrite rev_cons_app. apply H; [|exact Hv].
  rewrite E. reflexivity.
Qed.

Lemma star_lazy_none {R} p (k : text -> text -> option R) :
  forall s bef,
    (forall u v, s = u ++ v -> forallb p u = true ->
                 k (rev u ++ bef) v = None) ->
    star_lazy p bef s k = None.
Proof.
  induction s as [|c s IH]; intros bef H.
  - pose proof (H [] [] eq_refl eq_refl) as H0. simpl in *.
    rewrite H0. reflexivity.
  - pose proof (H [] (c :: s) eq_refl eq_refl) as H0. simpl in H0.
    simpl. rewrite H0.
    destruct (p c) eqn:Pc; [|reflexivity].
    apply IH. intros u v E Hu. rewrite rev_cons_app. apply H.
    + rewrite E. reflexivity.
    + simpl. rewrite Pc. exact Hu.
Qed.

(** *** Steps of [mt] *)

Lemma mt_seq_eq {R} a b st (k : mstate -> option R) :
  mt (Seq a b) st k = mt a st (fun st' => mt b st' k).
Proof. reflexivity. Qed.

Lemma mt_lit_take {R} s bef rest gs (k : mstate -> option R) :
  mt (Lit s) (MS bef (s ++ rest) gs) k = k (MS (rev s ++ bef) rest gs).
Proof. cbn [mt ms_rest ms_before ms_groups]. rewrite strip_prefix_app. reflexivity. Qed.

Lemma mt_lit_fail {R} c s x bef rest gs (k : mstate -> option R) :
  x <> c -> mt (Lit (c :: s)) (MS bef (x :: rest) gs) k = None.
Proof.
  intros N. cbn [mt ms_rest strip_prefix].
  destruct (Ascii.eqb_spec c x); [congruence | reflexivity].
Qed.

Lemma mt_lit_nil {R} c s bef gs (k : mstate -> option R) :
  mt (Lit (c :: s)) (MS bef [] gs) k = None.
Proof. reflexivity. Qed.

Lemma mt_cls_take {R} p c bef rest gs (k : mstate -> option R) :
  p c = true ->
  mt (Cls p) (MS bef (c :: rest) gs) k = k (MS (c :: bef) rest gs).
Proof. intros H. cbn [mt ms_rest ms_before ms_groups]. rewrite H. reflexivity. Qed.

Lemma mt_cls_fail {R} p bef rest gs (k : mstate -> option R) :
  stops p rest -> mt (Cls p) (MS bef rest gs) k = None.
Proof.
  destruct rest as [|c rest]; cbn [mt ms_rest stops]; [reflexivity|].
  intros ->. reflexivity.
Qed.

Lemma mt_star_take {R} p w bef rest gs (k : mstate -> option R) x :
  forallb p w = true -> stops p rest ->
  k (MS (rev w ++ bef) rest gs) = Some x ->
  mt (Star true p) (MS bef (w ++ rest) gs) k = Some x.
Proof.
  intros Hw Hs Hk. cbn [mt ms_rest ms_before ms_groups].
  apply star_greedy_take; assumption.
Qed.

Lemma mt_star_none {R} p bef s gs (k : mstate -> option R) :
  (forall u v, s = u ++ v -> forallb p u = true ->
               k (MS (rev u ++ bef) v gs) = None) ->
  mt (Star true p) (MS bef s gs) k = None.
Proof.
  intros H. cbn [mt ms_rest ms_before ms_groups].
  apply star_greedy_none. exact H.
Qed.

Lemma mt_plus_take {R} p c w bef rest gs (k : mstate -> option R) x :
  p c = true -> forallb p w = true -> stops p rest ->
  k (MS (rev (c :: w) ++ bef) rest gs) = Some x ->
  mt (Plus true p) (MS bef (c :: w ++ rest) gs) k = Some x.
Proof.
  intros Hc Hw Hs Hk. unfold Plus. rewrite mt_seq_eq, mt_cls_take by exact Hc.
  apply mt_star_take; [assumption..|]. rewrite rev_cons_app. exact Hk.
Qed.

Lemma mt_opt_skip {R} a st (k : mstate -> option R) :
  mt a st k = None -> mt (Opt a) st k = k st.
Proof. intros H. cbn [mt]. rewrite H. reflexivity. Qed.

Lemma mt_opt_take {R} a st (k : mstate -> option R) x :
  mt a st k = Some x -> mt (Opt a) st k = Some x.
Proof. intros H. cbn [mt]. rewrite H. reflexivity. Qed.

Lemma mt_alt_l {R} a b st (k : mstate -> option R) x :
  mt a st k = Some x -> mt (Alt a b) st k = Some x.
Proof. intros H. cbn [mt]. rewrite H. reflexivity. Qed.

Lemma mt_alt_none {R} a b st (k : mstate -> option R) :
  mt a st k = None -> mt b st k = None -> mt (Alt a b) st k = None.
Proof. intros H1 H2. cbn [mt]. rewrite H1, H2. reflexivity. Qed.

(** A group around a greedy repetition of at least one character. *)
Lemma mt_grp_plus_take {R} n p c w bef rest gs (k : mstate -> option R) x :
  p c = true -> forallb p w = true -> stops p rest ->
  k (MS (rev (c :: w) ++ bef) rest ((n, c :: w) :: gs)) = Some x ->
  mt (Grp n (Plus true p)) (MS bef (c :: w ++ rest) gs) k = Some x.
Proof.
  intros Hc Hw Hs Hk. cbn [mt ms_rest ms_before ms_groups Plus].
  rewrite Hc. apply star_greedy_take; [assumption..|].
  cbn [ms_rest ms_before ms_groups]. rewrite rev_cons_app.
  rewrite consumed_text. exact Hk.
Qed.

(** A group around a lazy repetition of at least one character: it ends
    at the first stop where the rest of the pattern succeeds. *)
Lemma mt_grp_lazy_take {R} n p c w bef rest gs (k : mstate -> option R) x :
  p c = true -> forallb p w = true ->
  (forall u v, w = u ++ v -> v <> [] ->
     k (MS (rev (c :: u) ++ bef) (v ++ rest) ((n, c :: u) :: gs)) = None) ->
  k (MS (rev (c :: w) ++ bef) rest ((n, c :: w) :: gs)) = Some x ->
  mt (Grp n (Plus false p)) (MS bef (c :: w ++ rest) gs) k = Some x.
Proof.
  intros Hc Hw Hf Hk. cbn [mt ms_rest ms_before ms_groups Plus].
  rewrite Hc. rewrite star_lazy_skip.
  - apply star_lazy_here. cbn [ms_rest ms_before ms_groups].
    rewrite rev_cons_app, consumed_text. exact Hk.
  - exact Hw.
  - intros u v E Hv. cbn [ms_rest ms_before ms_groups].
    rewrite rev_cons_app, consumed_text. apply Hf; assumption.
Qed.

(** *** Steps of the drivers *)

Lemma match_at_eq (r : regex) (bef rest : text) :
  match_at r bef rest
  = mt r (MS bef rest []) (fun st =>
      Some (RM (rev (firstn (length (ms_before st) - length bef) (ms_before st)))
               (ms_groups st))).
Proof. reflexivity. Qed.

Lemma search_from_here (r : regex) (bef rest : text) (m : rmatch) :
  match_at r bef rest = Some m -> search_from r bef rest = Some m.
Proof. intros H. destruct rest; simpl; rewrite H; reflexivity. Qed.

Lemma search_from_skip (r : regex) :
  forall p bef rest,
    (forall u v, p = u ++ v -> v <> [] ->
                 match_at r (rev u ++ bef) (v ++ rest) = None) ->
    search_from r bef (p ++ rest) = search_from r (rev p ++ bef) rest.
Proof.
  induction p as [|c p IH]; intros bef rest H; [reflexivity|].
  pose proof (H [] (c :: p) eq_refl ltac:(discriminate)) as H0.
  simpl in H0. simpl. rewrite H0.
  rewrite IH; [rewrite rev_cons_app; reflexivity|].
  intros u v E Hv. rewrite rev_cons_app. apply H; [|exact Hv].
  rewrite E. reflexivity.
Qed.

Lemma scan_skip (r : regex) :
  forall w bef rest,
    scan r (length w) bef (w ++ rest) = scan r 0 (rev w ++ bef) rest.
Proof.
  induction w as [|c w IH]; intros bef rest; [reflexivity|].
  simpl. rewrite IH, rev_cons_app. reflexivity.
Qed.

Lemma scan_match (r : regex) (c : ascii) (w bef rest : text) (m : rmatch) :
  match_at r bef (c :: w ++ rest) = Some m -> m_text m = c :: w ->
  scan r 0 bef (c :: w ++ rest) = m :: scan r 0 (rev (c :: w) ++ bef) rest.
Proof.
  intros H E. cbn [scan]. rewrite H, E.
  replace (length (c :: w) - 1) with (length w) by (simpl; lia).
  rewrite scan_skip, rev_cons_app. reflexivity.
Qed.

Lemma scan_fail (r : regex) :
  forall p bef rest,
    (forall u v, p = u ++ v -> v <> [] ->
                 match_at r (rev u ++ bef) (v ++ rest) = None) ->
    scan r 0 bef (p ++ rest) = scan r 0 (rev p ++ bef) rest.
Proof.
  induction p as [|c p IH]; intros bef rest H; [reflexivity|].
  pose proof (H [] (c :: p) eq_refl ltac:(discriminate)) as H0.
  simpl in H0. simpl. rewrite H0.
  rewrite IH; [rewrite rev_cons_app; reflexivity|].
  intros u v E Hv. rewrite rev_cons_app. apply H; [|exact Hv].
  rewrite E. reflexivity.
Qed.

Lemma scan_end (r : regex) (bef : text) :
  match_at r bef [] = None -> scan r 0 bef [] = [].
Proof. intros H. simpl. rewrite H. reflexivity. Qed.

Lemma delete_skip (r : regex) :
  forall w bef rest,
    delete_from r (length w) bef (w ++ rest)
    = delete_from r 0 (rev w ++ bef) rest.
Proof.
  induction w as [|c w IH]; intros bef rest.
  - simpl. destruct rest; reflexivity.
  - simpl. rewrite IH, rev_cons_app. reflexivity.
Qed.

Lemma delete_match (r : regex) (c : ascii) (w bef rest : text) (m : rmatch) :
  match_at r bef (c :: w ++ rest) = Some m -> m_text m = c :: w ->
  delete_from r 0 bef (c :: w ++ rest)
  = delete_from r 0 (rev (c :: w) ++ bef) rest.
Proof.
  intros H E. cbn [delete_from]. rewrite H, E. cbn [length].
  rewrite delete_skip, rev_cons_app. reflexivity.
Qed.

Lemma delete_fail (r : regex) :
  forall p bef rest,
    (forall u v, p = u ++ v -> v <> [] ->
                 match_at r (rev u ++ bef) (v ++ rest) = None) ->
    delete_from r 0 bef (p ++ rest) = p ++ delete_from r 0 (rev p ++ bef) rest.
Proof.
  induction p as [|c p IH]; intros bef rest H; [reflexivity|].
  pose proof (H [] (c :: p) eq_refl ltac:(discriminate)) as H0.
  simpl in H0. simpl. rewrite H0.
  rewrite IH; [rewrite rev_cons_app; reflexivity|].
  intros u v E Hv. rewrite rev_cons_app. apply H; [|exact Hv].
  rewrite E. reflexivity.
Qed.

(** *** Identifiers and texts with no space at their ends *)

Lemma ident_cons (s : text) :
  is_ident s = true ->
  exists c w, s = c :: w /\ isword c = true /\ forallb isword w = true.
Proof.
  destruct s as [|c w]; [discriminate|]. simpl.
  intros H. apply andb_true_iff in H. exists c, w. tauto.
Qed.

Lemma ident_words (s : text) : is_ident s = true -> forallb isword s = true.
Proof. destruct s; [discriminate | auto]. Qed.

(** A non-empty tail of a text whose characters all fail [q] starts with
    a character that fails [q]. *)
Lemma suffix_stops (q : ascii -> bool) (p u v rest : text) :
  forallb (fun c => negb (q c)) p = true -> p = u ++ v -> v <> [] ->
  stops q (v ++ rest).
Proof.
  intros Hp E Hv. destruct v as [|x v]; [contradiction|]. simpl.
  rewrite forallb_forall in Hp. apply negb_true_iff. apply Hp.
  rewrite E. apply in_or_app. right. simpl; auto.
Qed.

Lemma suffix_split (s u v : text) (c : ascii) :
  s ++ [c] = u ++ v -> v <> [] -> exists v', v = v' ++ [c] /\ s = u ++ v'.
Proof.
  intros E Hv. destruct (text_last v Hv) as (v' & d & ->).
  rewrite app_assoc in E. apply app_inj_tail in E. destruct E as [E ->].
  eauto.
Qed.

End MatchFacts.

(** ** Termination of [convert_type] *)

Module ZodFacts.
Import Py Re Zod Props PyFacts StripFacts ReFacts.

Lemma mt_seq {R} a b st (k : mstate -> option R) :
  mt (Seq a b) st k = mt a st (fun st' => mt b st' k).
Proof. reflexivity. Qed.

Lemma mt_lit {R} s st (k : mstate -> option R) :
  mt (Lit s) st k
  = match strip_prefix s (ms_rest st) with
    | Some rest' => k (MS (rev s ++ ms_before st) rest' (ms_groups st))
    | None => None
    end.
Proof. reflexivity. Qed.

(** The value type captured by the [Record] pattern is a proper part of
    the expression. *)
Lemma record_group_shorter (t : text) (m : rmatch) :
  re_match record_re t = Some m -> length (group_str 2 m) < length t.
Proof.
  unfold re_match, match_at, record_re. rewrite mt_seq, mt_lit.
  cbn [ms_rest ms_before ms_groups].
  destruct (strip_prefix "Record<" t) as [rest1|] eqn:E; [|discriminate].
  apply strip_prefix_Some in E. intros H. apply mt_sound in H.
  destruct H as (w & rest' & gs & E1 & _ & G & H).
  cbn [ms_rest ms_before ms_groups] in *.
  inversion H; subst; clear H.
  unfold group_str, group. cbn [m_groups]. rewrite app_nil_r.
  rewrite !length_app.
  destruct (group_in 2 gs) as [g|] eqn:Eg.
  - apply group_in_In in Eg. rewrite Forall_forall in G.
    destruct (G _ Eg) as [Hl _]. simpl in *. lia.
  - simpl. lia.
Qed.

Lemma array_inner_shorter (t : text) :
  endswith "[]" t = true -> length (strip (slice 0 2 t)) < length t.
Proof.
  intros H. apply endswith_true in H. destruct H as [r ->].
  pose proof (length_strip (slice 0 2 (r ++ "[]"))) as H1.
  pose proof (length_slice 0 2 (r ++ "[]")) as H2.
  rewrite length_app in *. simpl in *. lia.
Qed.

Lemma generic_inner_shorter (t : text) :
  startswith "Array<" t = true -> length (strip (slice 6 1 t)) < length t.
Proof.
  intros H. apply startswith_true in H. destruct H as [r ->].
  pose proof (length_strip (slice 6 1 ("Array<" ++ r))) as H1.
  pose proof (length_slice 6 1 ("Array<" ++ r)) as H2.
  rewrite length_app in *. simpl in *. lia.
Qed.

Lemma union_part_shorter (t p : text) :
  contains " | " t = true -> In p (map strip (split "|" t)) ->
  length p < length t.
Proof.
  intros Hc Hp. apply in_map_iff in Hp. destruct Hp as (q & <- & Hq).
  apply split_length in Hq.
  assert (In "|"%char t) as Hin.
  { eapply contains_In; [|exact Hc]. simpl. auto. }
  apply count_occ_pos in Hin. pose proof (length_strip q). lia.
Qed.

Lemma length_strip_optional (ts : text) (o : bool) :
  length (fst (strip_optional ts o)) <= length ts.
Proof.
  unfold strip_optional.
  pose proof (length_strip ts) as H0.
  destruct (endswith "?" (strip ts)).
  - pose proof (length_strip (slice 0 1 (strip ts))) as H1.
    pose proof (length_slice 0 1 (strip ts)) as H2.
    destruct (contains _ _ || contains _ _); simpl; [|lia].
    pose proof (length_strip (re_delete optional_re (strip (slice 0 1 (strip ts))))).
    pose proof (length_re_delete optional_re (strip (slice 0 1 (strip ts)))).
    lia.
  - destruct (contains _ _ || contains _ _); simpl; [|lia].
    pose proof (length_strip (re_delete optional_re (strip ts))).
    pose proof (length_re_delete optional_re (strip ts)).
    lia.
Qed.

Lemma mapM_ext_in {A B} (f g : A -> option B) (l : list A) :
  (forall x, In x l -> f x = g x) -> mapM f l = mapM g l.
Proof.
  induction l as [|x l IH]; simpl; intros H; [reflexivity|].
  rewrite (H x (or_introl eq_refl)), IH; auto.
Qed.

Lemma mapM_Some {A B} (f : A -> B) (l : list A) :
  mapM (fun x => Some (f x)) l = Some (map f l).
Proof. induction l as [|x l IH]; simpl; [|rewrite IH]; reflexivity. Qed.

(** The chain only calls [rec] on strictly shorter expressions. *)
Lemma convert_rules_ext self (rec1 rec2 : text -> option text) (t : text) :
  (forall t', length t' < length t -> rec1 t' = rec2 t') ->
  convert_rules self rec1 t = convert_rules self rec2 t.
Proof.
  intros H. unfold convert_rules.
  destruct (dict_get t TYPE_MAP); [reflexivity|].
  destruct (endswith "[]" t) eqn:E1.
  { rewrite (H _ (array_inner_shorter t E1)). reflexivity. }
  destruct (startswith "Array<" t) eqn:E2; cbn [andb].
  { destruct (endswith ">" t); [|].
    - rewrite (H _ (generic_inner_shorter t E2)). reflexivity.
    - destruct (startswith "Record<" t) eqn:E3.
      { apply startswith_true in E2, E3. destruct E2 as [r2 ->].
        destruct E3 as [r3 E3]. discriminate. }
      destruct (contains " | " t) eqn:E4; [|reflexivity].
      rewrite (mapM_ext_in rec1 rec2); [reflexivity|].
      intros p Hp. apply H. apply union_part_shorter; auto. }
  destruct (startswith "Record<" t) eqn:E3.
  { destruct (re_match record_re t) as [m|] eqn:Em; [|reflexivity].
    rewrite (H _ (record_group_shorter t m Em)). reflexivity. }
  destruct (contains " | " t) eqn:E4; [|reflexivity].
  rewrite (mapM_ext_in rec1 rec2); [reflexivity|].
  intros p Hp. apply H. apply union_part_shorter; auto.
Qed.

Lemma convert_rules_total self (f : text -> text) (t : text) :
  exists z, convert_rules self (fun t' => Some (f t')) t = Some z.
Proof.
  unfold convert_rules.
  destruct (dict_get t TYPE_MAP); [eauto|].
  destruct (endswith "[]" t); [eauto|].
  destruct (startswith "Array<" t && endswith ">" t); [eauto|].
  destruct (startswith "Record<" t).
  { destruct (re_match record_re t); eauto. }
  destruct (contains " | " t).
  { rewrite mapM_Some. eauto. }
  destruct (startswith [squote] t || startswith [dquote] t); [eauto|].
  destruct (dict_mem t (interfaces self) || dict_mem t (types self)
            || dict_mem t (enums self)); eauto.
Qed.

(** Fuel above the length of the expression always suffices, and more
    fuel does not change the result. *)
Lemma convert_type_fuel_stable self :
  forall n ts opt, length ts < n ->
    exists z, forall fuel, n <= fuel ->
      convert_type_fuel fuel self ts opt = Some z.
Proof.
  induction n as [|n IH]; intros ts opt Hlen; [lia|].
  pose (f := fun t' => match convert_type_fuel n self t' false with
                       | Some z => z | None => [] end).
  pose proof (length_strip_optional ts opt) as Hs.
  destruct (strip_optional ts opt) as [t o] eqn:Es. simpl in Hs.
  destruct (convert_rules_total self f t) as [z Hz].
  exists (add_optional o z). intros [|fuel] Hf; [lia|].
  simpl. rewrite Es.
  rewrite (convert_rules_ext self _ (fun t' => Some (f t'))), Hz; [reflexivity|].
  intros t' Ht'. destruct (IH t' false) as [z' Hz']; [lia|].
  unfold f. rewrite (Hz' n), (Hz' fuel); [reflexivity | lia | lia].
Qed.

Lemma convert_type_fuel_enough self ts opt extra :
  convert_type_fuel (S (length ts) + extra) self ts opt
  = Some (convert_type self ts opt).
Proof.
  destruct (convert_type_fuel_stable self (S (length ts)) ts opt) as [z Hz];
    [lia|].
  unfold convert_type. rewrite (Hz (S (length ts))), (Hz (S (length ts) + extra));
    [reflexivity | lia | lia].
Qed.

(** One step of [convert_type], with the recursive calls folded back. *)
Lemma convert_type_step self ts opt :
  Some (convert_type self ts opt)
  = match convert_rules self (fun t' => Some (convert_type self t' false))
            (fst (strip_optional ts opt)) with
    | Some zod => Some (add_optional (snd (strip_optional ts opt)) zod)
    | None => None
    end.
Proof.
  rewrite <- (convert_type_fuel_enough self ts opt 0), Nat.add_0_r.
  cbn [convert_type_fuel].
  pose proof (length_strip_optional ts opt) as Hs.
  destruct (strip_optional ts opt) as [t o]. cbn [fst snd] in *.
  rewrite (convert_rules_ext self _ (fun t' => Some (convert_type self t' false)));
    [reflexivity|].
  intros t' Ht'.
  replace (length ts) with (S (length t') + (length ts - S (length t'))) by lia.
  apply convert_type_fuel_enough.
Qed.

Lemma convert_type_rules self ts opt t o zod :
  strip_optional ts opt = (t, o) ->
  convert_rules self (fun t' => Some (convert_type self t' false)) t = Some zod ->
  convert_type self ts opt = add_optional o zod.
Proof.
  intros Es Hz. pose proof (convert_type_step self ts opt) as H.
  rewrite Es in H. cbn [fst snd] in H. rewrite Hz in H. congruence.
Qed.

End ZodFacts.

(** ** The rules of [convert_type], one by one *)

Module Rules.
Import Py Re Zod Props PyFacts StripFacts ReFacts ZodFacts.

Ltac chain H :=
  unfold which_rule in H; unfold convert_rules;
  repeat match type of H with
         | context [match ?c with _ => _ end] =>
             destruct c eqn:?; try discriminate H
         end.

Lemma rules_primitive self rec t :
  which_rule self t = R_primitive ->
  convert_rules self rec t = dict_get t TYPE_MAP.
Proof. intros H. chain H. reflexivity. Qed.

Lemma rules_array_suffix self rec t :
  which_rule self t = R_array_suffix ->
  convert_rules self rec t
  = match rec (strip (slice 0 2 t)) with
    | Some inner_zod => Some ("z.array(" ++ inner_zod ++ ")")
    | None => None
    end.
Proof. intros H. chain H. reflexivity. Qed.

Lemma rules_array_generic self rec t :
  which_rule self t = R_array_generic ->
  convert_rules self rec t
  = match rec (strip (slice 6 1 t)) with
    | Some inner_zod => Some ("z.array(" ++ inner_zod ++ ")")
    | None => None
    end.
Proof. intros H. chain H. reflexivity. Qed.

Lemma rules_record self rec t :
  which_rule self t = R_record ->
  convert_rules self rec t
  = match re_match record_re t with
    | Some m =>
        match rec (group_str 2 m) with
        | Some value_zod => Some ("z.record(" ++ value_zod ++ ")")
        | None => None
        end
    | None => Some ("z.record(z.any())" : text)
    end.
Proof. intros H. chain H. reflexivity. Qed.

Lemma rules_union self rec t :
  which_rule self t = R_union ->
  convert_rules self rec t
  = match mapM rec (map strip (split "|" t)) with
    | Some union_zods => Some ("z.union([" ++ join ", " union_zods ++ "])")
    | None => None
    end.
Proof. intros H. chain H. reflexivity. Qed.

Lemma rules_literal self rec t :
  which_rule self t = R_literal ->
  convert_rules self rec t = Some ("z.literal(" ++ t ++ ")").
Proof. intros H. chain H. reflexivity. Qed.

Lemma rules_reference self rec t :
  which_rule self t = R_reference ->
  convert_rules self rec t = Some (t ++ "Schema").
Proof. intros H. chain H. reflexivity. Qed.


(** *** [convert_file] does not raise *)

Lemma dict_set_Forall {V} (P : V -> Prop) k v (d : dict V) :
  Forall (fun kv => P (snd kv)) d -> P v ->
  Forall (fun kv => P (snd kv)) (dict_set k v d).
Proof.
  intros Hd Hv. induction d as [|[k' v'] d IH]; simpl.
  - constructor; auto.
  - inversion Hd; subst. destruct (text_eqb k k'); constructor; auto.
Qed.

Lemma add_interface_parses self m :
  Forall (fun kv => parses (snd kv)) (interfaces self) ->
  Forall (fun kv => parses (snd kv)) (interfaces (add_interface self m)).
Proof.
  intros H. unfold add_interface.
  destruct (parse_interface (m_text m)) as [[name fields]|e] eqn:E; [|exact H].
  cbn [interfaces]. apply dict_set_Forall; [exact H|].
  exists (name, fields). exact E.
Qed.

Lemma extract_parses self src :
  Forall (fun kv => parses (snd kv)) (interfaces self) ->
  Forall (fun kv => parses (snd kv)) (interfaces (extract self src)).
Proof.
  intros H. unfold extract.
  set (ms1 := finditer interface_pattern src).
  set (ms2 := finditer type_pattern src).
  set (ms3 := finditer enum_pattern src).
  clearbody ms1 ms2 ms3.
  assert (forall ms s, interfaces (fold_left add_enum ms s) = interfaces s) as E3.
  { induction ms as [|m ms IH]; intros s; simpl; [reflexivity|].
    rewrite IH. unfold add_enum. destruct (parse_enum (m_text m)) as [[? ?]|];
      reflexivity. }
  assert (forall ms s, interfaces (fold_left add_type ms s) = interfaces s) as E2.
  { induction ms as [|m ms IH]; intros s; simpl; [reflexivity|].
    rewrite IH. unfold add_type.
    destruct (parse_type_alias (m_text m)) as [[? ?]|]; reflexivity. }
  rewrite E3, E2. clear E2 E3 ms2 ms3.
  revert self H. induction ms1 as [|m ms IH]; intros self H; simpl; [exact H|].
  apply IH. apply add_interface_parses. exact H.
Qed.



(** *** Character classes and the primitive table *)

Lemma word_not_space (c : ascii) : isword c = true -> isspace c = false.
Proof.
  destruct c as [[] [] [] [] [] [] [] []]; vm_compute; intros H;
    first [reflexivity | discriminate H].
Qed.

Lemma words_no_char (t : text) (c : ascii) :
  forallb isword t = true -> isword c = false -> ~ In c t.
Proof.
  intros Ht Hc Hin. rewrite forallb_forall in Ht. apply Ht in Hin. congruence.
Qed.

Lemma TYPE_MAP_word (t z : text) :
  dict_get t TYPE_MAP = Some z -> forallb isword t = true.
Proof.
  unfold TYPE_MAP. cbn [dict_get].
  repeat match goal with
         | |- context [text_eqb t ?k] =>
             destruct (text_eqb t k) eqn:E;
             [apply text_eqb_eq in E; subst t; intros _; reflexivity | clear E]
         end.
  discriminate.
Qed.

Lemma TYPE_MAP_none (t : text) :
  forallb isword t = false -> dict_get t TYPE_MAP = None.
Proof.
  intros H. destruct (dict_get t TYPE_MAP) as [z|] eqn:E; [|reflexivity].
  apply TYPE_MAP_word in E. congruence.
Qed.

(** *** Stripping twice, and converting a stripped expression *)

Lemma strip_optional_strip (t : text) (o : bool) :
  strip_optional (strip t) o = strip_optional t o.
Proof. unfold strip_optional. rewrite strip_idem. reflexivity. Qed.

Lemma convert_type_strip self (t : text) (o : bool) :
  convert_type self (strip t) o = convert_type self t o.
Proof.
  pose proof (convert_type_step self (strip t) o) as H1.
  pose proof (convert_type_step self t o) as H2.
  rewrite strip_optional_strip in H1. congruence.
Qed.

(** No optionality marker: the head of [convert_type] only strips. *)
Lemma strip_optional_plain (t : text) (o : bool) :
  strip t = t -> endswith "?" t = false ->
  contains " | undefined" t = false -> contains " | null" t = false ->
  strip_optional t o = (t, o).
Proof.
  intros Hs Hq Hu Hn. unfold strip_optional. rewrite Hs, Hq, Hu, Hn.
  reflexivity.
Qed.

(** *** Names kept in the registries are identifiers *)

Lemma lang_word (t : text) : lang word t -> forallb isword t = true.
Proof.
  unfold word, Plus. intros H.
  inversion H as [| | |a b u v Hu Hv| | | | | | | |]; subst.
  inversion Hu; subst. inversion Hv as [| |g p w Hw| | | | | | | | |]; subst.
  simpl. rewrite H1. simpl. apply forallb_forall.
  rewrite Forall_forall in Hw. exact Hw.
Qed.

Lemma searched_name_word (r : regex) (s : text) (m : rmatch) :
  (forall a, In (1, a) (groups_of r) -> a = word) ->
  re_search r s = Some m -> forallb isword (group_str 1 m) = true.
Proof.
  intros Hg H. unfold re_search in H. apply search_from_sound in H.
  destruct H as (u & v & _ & H). unfold group_str.
  destruct (group 1 m) as [t|] eqn:E; [|reflexivity].
  destruct (group_sound _ _ _ _ _ _ H E) as [[_ (a & Hin & Hl)] _].
  cbn [fst snd] in *. rewrite (Hg a Hin) in Hl. apply lang_word. exact Hl.
Qed.

Ltac only_word_group :=
  let a := fresh "a" in let H := fresh "H" in
  intros a H; cbn in H;
  repeat (destruct H as [H|H]; [inversion H; subst; reflexivity|]);
  destruct H.

Lemma parse_interface_name s name fields :
  parse_interface s = Ok (name, fields) -> forallb isword name = true.
Proof.
  unfold parse_interface.
  destruct (re_search interface_name_re s) as [m|] eqn:E; [|discriminate].
  intros H; inversion H; subst.
  eapply searched_name_word; [|exact E]. only_word_group.
Qed.

Lemma parse_type_alias_name s name type_def :
  parse_type_alias s = Ok (name, type_def) -> forallb isword name = true.
Proof.
  unfold parse_type_alias.
  destruct (re_search alias_re s) as [m|] eqn:E; [|discriminate].
  intros H; inversion H; subst.
  eapply searched_name_word; [|exact E]. only_word_group.
Qed.

Lemma parse_enum_name s name values :
  parse_enum s = Ok (name, values) -> forallb isword name = true.
Proof.
  unfold parse_enum.
  destruct (re_search enum_name_re s) as [m|] eqn:E; [|discriminate].
  intros H; inversion H; subst.
  eapply searched_name_word; [|exact E]. only_word_group.
Qed.

Lemma dict_set_word_keys {V} k (v : V) (d : dict V) :
  word_keys d -> forallb isword k = true -> word_keys (dict_set k v d).
Proof.
  unfold word_keys. intros Hd Hk. induction d as [|[k' v'] d IH]; simpl.
  - constructor; auto.
  - inversion Hd; subst. destruct (text_eqb k k'); constructor; auto.
Qed.

Lemma dict_mem_word {V} (t : text) (d : dict V) :
  word_keys d -> dict_mem t d = true -> forallb isword t = true.
Proof.
  unfold word_keys, dict_mem. induction d as [|[k v] d IH]; simpl.
  - discriminate.
  - intros Hd. inversion Hd; subst.
    destruct (text_eqb t k) eqn:E; [|auto].
    apply text_eqb_eq in E. subst. auto.
Qed.

Lemma add_interface_names self m :
  registry_names_ok self -> registry_names_ok (add_interface self m).
Proof.
  intros (H1 & H2 & H3). unfold add_interface.
  destruct (parse_interface (m_text m)) as [[name fields]|e] eqn:E;
    [|repeat split; assumption].
  repeat split; cbn; try assumption.
  apply dict_set_word_keys; [assumption|]. eapply parse_interface_name; eauto.
Qed.

Lemma add_type_names self m :
  registry_names_ok self -> registry_names_ok (add_type self m).
Proof.
  intros (H1 & H2 & H3). unfold add_type.
  destruct (parse_type_alias (m_text m)) as [[name d]|e] eqn:E;
    [|repeat split; assumption].
  repeat split; cbn; try assumption.
  apply dict_set_word_keys; [assumption|]. eapply parse_type_alias_name; eauto.
Qed.

Lemma add_enum_names self m :
  registry_names_ok self -> registry_names_ok (add_enum self m).
Proof.
  intros (H1 & H2 & H3). unfold add_enum.
  destruct (parse_enum (m_text m)) as [[name d]|e] eqn:E;
    [|repeat split; assumption].
  repeat split; cbn; try assumption.
  apply dict_set_word_keys; [assumption|]. eapply parse_enum_name; eauto.
Qed.

Lemma fold_left_inv {A B} (P : A -> Prop) (f : A -> B -> A) (l : list B) :
  (forall a b, P a -> P (f a b)) -> forall a, P a -> P (fold_left f l a).
Proof.
  intros Hf. induction l as [|b l IH]; simpl; auto.
Qed.

Lemma extract_names self src :
  registry_names_ok self -> registry_names_ok (extract self src).
Proof.
  intros H. unfold extract.
  apply fold_left_inv; [apply add_enum_names|].
  apply fold_left_inv; [apply add_type_names|].
  apply fold_left_inv; [apply add_interface_names|]. exact H.
Qed.

Lemma declared_word self t :
  registry_names_ok self -> declared self t = true -> forallb isword t = true.
Proof.
  intros (H1 & H2 & H3). unfold declared. rewrite !orb_true_iff.
  intros [[H|H]|H].
  - exact (dict_mem_word t _ H1 H).
  - exact (dict_mem_word t _ H2 H).
  - exact (dict_mem_word t _ H3 H).
Qed.

(** An identifier goes through the head of [convert_type] unchanged and
    reaches the registry rule unless it is a primitive keyword. *)
Lemma word_strip (t : text) : forallb isword t = true -> strip t = t.
Proof.
  intros H. apply strip_fixed.
  - destruct t as [|c t]; [exact I|]. simpl in H.
    apply andb_true_iff in H. apply word_not_space. tauto.
  - destruct (rev t) as [|c r] eqn:E; [exact I|].
    apply word_not_space. rewrite forallb_forall in H. apply H.
    apply in_rev. rewrite E. simpl; auto.
Qed.

Lemma word_endswith (t p : text) (c : ascii) :
  forallb isword t = true -> isword c = false -> endswith (p ++ [c]) t = false.
Proof.
  intros Ht Hc. destruct (endswith (p ++ [c]) t) eqn:E; [|reflexivity].
  apply endswith_true in E. destruct E as [r ->].
  exfalso. apply (words_no_char _ c Ht Hc).
  apply in_or_app. right. apply in_or_app. right. simpl; auto.
Qed.

Lemma word_startswith (t p q : text) (c : ascii) :
  forallb isword t = true -> isword c = false ->
  startswith (p ++ c :: q) t = false.
Proof.
  intros Ht Hc. destruct (startswith (p ++ c :: q) t) eqn:E; [|reflexivity].
  apply startswith_true in E. destruct E as [r ->].
  exfalso. apply (words_no_char _ c Ht Hc).
  apply in_or_app. left. apply in_or_app. right. simpl; auto.
Qed.

Lemma word_contains (t needle : text) (c : ascii) :
  forallb isword t = true -> isword c = false -> In c needle ->
  contains needle t = false.
Proof.
  intros Ht Hc Hin. eapply contains_not_In; [exact Hin|].
  apply words_no_char; assumption.
Qed.

Lemma word_strip_optional (t : text) (o : bool) :
  forallb isword t = true -> strip_optional t o = (t, o).
Proof.
  intros H. apply strip_optional_plain.
  - apply word_strip; exact H.
  - apply (word_endswith t [] "?"); [exact H | reflexivity].
  - apply (word_contains t _ " "); [exact H | reflexivity | simpl; auto].
  - apply (word_contains t _ " "); [exact H | reflexivity | simpl; auto].
Qed.

Lemma word_which_rule self (t : text) :
  forallb isword t = true -> dict_get t TYPE_MAP = None ->
  which_rule self t = if declared self t then R_reference else R_fallback.
Proof.
  intros H Hp.
  assert (endswith "[]" t = false) as E1
      by exact (word_endswith t "[" "]" H eq_refl).
  assert (startswith "Array<" t = false) as E2
      by exact (word_startswith t "Array" [] "<" H eq_refl).
  assert (startswith "Record<" t = false) as E3
      by exact (word_startswith t "Record" [] "<" H eq_refl).
  assert (contains " | " t = false) as E4
      by (apply (word_contains t _ " " H eq_refl); simpl; auto).
  assert (startswith [squote] t = false) as E5
      by exact (word_startswith t [] [] squote H eq_refl).
  assert (startswith [dquote] t = false) as E6
      by exact (word_startswith t [] [] dquote H eq_refl).
  unfold which_rule, declared. rewrite Hp, E1, E2, E3, E4, E5, E6.
  reflexivity.
Qed.

(** *** The two array forms *)

Lemma no_marker_suffix (needle T : text) (suffix : text) :
  needle <> [] -> (forall c, In c suffix -> ~ In c needle) ->
  contains needle T = false ->
  contains needle (lstrip T ++ suffix) = false.
Proof.
  intros Hn Hd H. rewrite contains_app_r by assumption.
  apply contains_dropwhile. exact H.
Qed.

Ltac disjoint_chars :=
  let c := fresh "c" in let H := fresh "H" in
  intros c H; cbn in H;
  repeat (destruct H as [H|H];
          [subst c; cbn; intuition discriminate|]);
  destruct H.

Lemma convert_array_suffix self (T : text) (opt : bool) :
  contains " | undefined" T = false -> contains " | null" T = false ->
  convert_type self (T ++ "[]") opt
  = add_optional opt ("z.array(" ++ convert_type self T false ++ ")").
Proof.
  intros Hu Hn. set (t := lstrip T ++ "[]").
  assert (strip (T ++ "[]") = t) as Es.
  { change (T ++ "[]") with (T ++ ["["%char] ++ ["]"%char]).
    rewrite app_assoc, strip_app_last, lstrip_app_last by reflexivity.
    rewrite <- app_assoc. reflexivity. }
  assert (endswith "?" t = false) as Eq.
  { unfold t. change (lstrip T ++ "[]") with (lstrip T ++ ["["%char] ++ ["]"%char]).
    rewrite app_assoc. apply (endswith_char_false []). discriminate. }
  assert (contains " | undefined" t = false) as Eu.
  { apply no_marker_suffix; [discriminate | disjoint_chars | exact Hu]. }
  assert (contains " | null" t = false) as En.
  { apply no_marker_suffix; [discriminate | disjoint_chars | exact Hn]. }
  assert (strip_optional (T ++ "[]") opt = (t, opt)) as Eo.
  { unfold strip_optional. rewrite Es, Eq, Eu, En. reflexivity. }
  assert (which_rule self t = R_array_suffix) as Er.
  { unfold which_rule. rewrite TYPE_MAP_none.
    - unfold t. rewrite endswith_app. reflexivity.
    - unfold t. rewrite forallb_app. apply andb_false_r. }
  assert (strip (slice 0 2 t) = strip T) as Ei.
  { transitivity (strip (lstrip T)); [|apply strip_lstrip].
    f_equal. exact (slice_0_app (lstrip T) "[]"). }
  apply (convert_type_rules self _ _ _ _ _ Eo).
  rewrite (rules_array_suffix _ _ _ Er), Ei, convert_type_strip. reflexivity.
Qed.

Lemma convert_array_generic self (T : text) (opt : bool) :
  contains " | undefined" T = false -> contains " | null" T = false ->
  convert_type self ("Array<" ++ T ++ ">") opt
  = add_optional opt ("z.array(" ++ convert_type self T false ++ ")").
Proof.
  intros Hu Hn. set (t := "Array<" ++ T ++ ">").
  assert (t = ("Array<" ++ T) ++ [">"%char]) as Et
      by (unfold t; rewrite <- app_assoc; reflexivity).
  assert (strip t = t) as Es.
  { apply strip_fixed; [reflexivity|]. rewrite Et, rev_app_distr. reflexivity. }
  assert (endswith "?" t = false) as Eq.
  { rewrite Et. apply (endswith_char_false []). discriminate. }
  assert (forall needle, needle <> [] ->
            (forall c, In c (">" : text) -> ~ In c needle) ->
            (forall c, In c ("Array<" : text) -> ~ In c needle) ->
            contains needle T = false -> contains needle t = false) as Ec.
  { intros needle N1 N2 N3 H. rewrite Et.
    rewrite contains_app_r, contains_app_l by assumption. exact H. }
  assert (contains " | undefined" t = false) as Eu.
  { apply Ec; [discriminate | disjoint_chars | disjoint_chars | exact Hu]. }
  assert (contains " | null" t = false) as En.
  { apply Ec; [discriminate | disjoint_chars | disjoint_chars | exact Hn]. }
  assert (strip_optional t opt = (t, opt)) as Eo.
  { apply strip_optional_plain; assumption. }
  assert (endswith "[]" t = false) as E1.
  { rewrite Et. apply (endswith_char_false ["["%char]). discriminate. }
  assert (which_rule self t = R_array_generic) as Er.
  { unfold which_rule. rewrite TYPE_MAP_none, E1.
    - unfold t at 1. rewrite startswith_app. rewrite Et, endswith_app.
      reflexivity.
    - rewrite Et, forallb_app. apply andb_false_r. }
  assert (strip (slice 6 1 t) = strip T) as Ei.
  { f_equal. exact (slice_app "Array<" T ">"). }
  apply (convert_type_rules self _ _ _ _ _ Eo).
  rewrite (rules_array_generic _ _ _ Er), Ei, convert_type_strip. reflexivity.
Qed.

(** *** The layout of the generated file *)

Lemma fold_left_lines {A} (g : A -> list text) (l : list A) (acc : list text) :
  fold_left (fun out x => out ++ g x) l acc = acc ++ flat_map g l.
Proof.
  revert acc. induction l as [|x l IH]; intros acc; simpl.
  - rewrite app_nil_r. reflexivity.
  - rewrite IH, <- app_assoc. reflexivity.
Qed.

Lemma join_blocks (x : text) (ps : list text) :
  join nl (x :: flat_map (fun p => [p; [] : text]) ps)
  = x ++ concat (map (fun p => nl ++ p ++ nl) ps).
Proof.
  revert x. induction ps as [|p ps IH]; intros x.
  - simpl. rewrite app_nil_r. reflexivity.
  - cbn [flat_map app map concat].
    change (join nl (x :: p :: [] :: flat_map (fun p => [p; [] : text]) ps))
      with (x ++ nl ++ p ++ nl
              ++ join nl ([] :: flat_map (fun p => [p; [] : text]) ps)).
    rewrite IH. simpl. rewrite <- !app_assoc. reflexivity.
Qed.

Lemma join_field_lines (x a b c : text) (ls : list text) :
  join nl (x :: ls ++ [a; b; c])
  = x ++ nl ++ concat (map (fun l => l ++ nl) ls) ++ a ++ nl ++ b ++ nl ++ c.
Proof.
  revert x. induction ls as [|l ls IH]; intros x.
  - reflexivity.
  - cbn [app map concat].
    transitivity (x ++ nl ++ join nl (l :: ls ++ [a; b; c])).
    + destruct ls; reflexivity.
    + rewrite IH, <- !app_assoc. reflexivity.
Qed.

Lemma emit_interfaces_blocks self :
  forall items out, Forall (fun kv => parses (snd kv)) items ->
  emit_interfaces self items out
  = Ok (out ++ flat_map (fun kv => [shape_block self kv; [] : text]) items).
Proof.
  induction items as [|[name s] items IH]; intros out H; simpl.
  - rewrite app_nil_r. reflexivity.
  - inversion H as [|? ? [[n fields] Hp] Hrest]; subst. simpl in Hp.
    rewrite Hp, IH by exact Hrest. unfold shape_block. simpl. rewrite Hp.
    rewrite <- app_assoc. reflexivity.
Qed.

Lemma flat_map_blocks {A} (f : A -> text) (l : list A) :
  flat_map (fun x => [f x; [] : text]) l
  = flat_map (fun p => [p; [] : text]) (map f l).
Proof. induction l as [|x l IH]; simpl; [|rewrite IH]; reflexivity. Qed.

Lemma fold_left_same {A B} (f g : A -> B -> A) (l : list B) (a : A) :
  (forall a b, f a b = g a b) -> fold_left f l a = fold_left g l a.
Proof.
  intros H. revert a. induction l as [|b l IH]; intros a; simpl;
    [reflexivity|]. rewrite H. apply IH.
Qed.

Lemma convert_file_layout self src :
  Forall (fun kv => parses (snd kv)) (interfaces self) ->
  convert_file self src
  = Ok (extract self src,
        "import { z } from 'zod';" ++ nl ++ nl
          ++ "// Auto-generated Zod schemas" ++ nl
          ++ concat (map (fun p => nl ++ p ++ nl) (blocks (extract self src)))).
Proof.
  intros H. unfold convert_file.
  set (s := extract self src).
  assert (Forall (fun kv => parses (snd kv)) (interfaces s)) as Hs
      by (apply extract_parses; exact H).
  rewrite (emit_interfaces_blocks s _ _ Hs).
  f_equal. f_equal.
  replace (fold_left _ (enums s) header)
    with (header ++ flat_map (fun p => [p; [] : text]) (map enum_block (enums s))).
  2:{ rewrite <- flat_map_blocks.
      rewrite <- (fold_left_lines (fun kv => [enum_block kv; [] : text])).
      apply fold_left_same. intros out [name values]. reflexivity. }
  replace (fold_left _ (types s) _)
    with ((header ++ flat_map (fun p => [p; [] : text]) (map enum_block (enums s)))
            ++ flat_map (fun p => [p; [] : text]) (map (alias_block s) (types s))).
  2:{ rewrite <- (flat_map_blocks (alias_block s)).
      rewrite <- (fold_left_lines (fun kv => [alias_block s kv; [] : text])).
      apply fold_left_same. intros out [name d]. reflexivity. }
  rewrite (flat_map_blocks (shape_block s)).
  rewrite <- !app_assoc, <- !flat_map_app.
  fold (blocks s).
  exact (f_equal (fun z => "import { z } from 'zod';" ++ nl ++ nl
                             ++ "// Auto-generated Zod schemas" ++ nl ++ z)
                 (join_blocks [] (blocks s))).
Qed.

(** Each block is a schema constant followed by a blank line and the
    type binding of the same name. *)
Lemma enum_block_shape name values :
  enum_to_zod name values
  = "export const " ++ name ++ "Schema = "
      ++ match values with
         | [v] => "z.literal(" ++ [dquote] ++ v ++ [dquote] ++ ")"
         | _ => "z.enum([" ++ join ", " (map (fun v => [dquote] ++ v ++ [dquote])
                                            values) ++ "])"
         end
      ++ ";" ++ nl ++ nl ++ type_binding name.
Proof.
  unfold enum_to_zod.
  destruct values as [|v [|v' vs]]; cbn [map join app];
    rewrite <- ?app_assoc; cbn [app]; rewrite <- ?app_assoc; reflexivity.
Qed.


Lemma shape_block_shape self name fields :
  interface_to_zod self name fields
  = "export const " ++ name ++ "Schema = z.object({" ++ nl
      ++ concat (map (fun f => field_line self f ++ nl) fields)
      ++ "});" ++ nl ++ nl ++ type_binding name.
Proof.
  unfold interface_to_zod. cbn [app].
  rewrite join_field_lines, map_map, <- !app_assoc. reflexivity.
Qed.


Lemma dict_set_keys {V} k (v : V) (d : dict V) :
  keys (dict_set k v d) = if dict_mem k d then keys d else keys d ++ [k].
Proof.
  unfold dict_mem, keys. induction d as [|[k' v'] d IH]; simpl; [reflexivity|].
  destruct (text_eqb k k') eqn:E; simpl; [reflexivity|].
  rewrite IH. destruct (dict_get k d); reflexivity.
Qed.



End Rules.

(** ** Parsing declarations of a known shape *)

Module ParseFacts.
Import Py Re Zod Props PyFacts StripFacts ReFacts MatchFacts ZodFacts Rules.

Lemma space_not_word (c : ascii) : isspace c = true -> isword c = false.
Proof.
  intros H. destruct (isword c) eqn:E; [|reflexivity].
  apply word_not_space in E. congruence.
Qed.

(** The text consumed by a match that went through [t]. *)
Lemma final_text (t bef rest : text) gs :
  (fun st => Some (RM (rev (firstn (length (ms_before st) - length bef)
                                   (ms_before st)))
                      (ms_groups st)))
    (MS (rev t ++ bef) rest gs)
  = Some (RM t gs).
Proof. cbn [ms_before ms_groups]. rewrite consumed_text. reflexivity. Qed.

Ltac norm_rev :=
  repeat rewrite rev_app_distr; cbn [rev app];
  repeat rewrite <- app_assoc; cbn [app].

(** Close a goal [k0 (MS before rest gs) = Some (RM t gs)] where [before]
    is the reverse of [t] in pieces. *)
Ltac finish_match t bef :=
  cbv beta; cbn [ms_before ms_groups ms_rest];
  match goal with
  | |- Some (RM (rev (firstn (length ?B - length bef) ?B)) ?G) = Some _ =>
      replace B with (rev t ++ bef);
      [rewrite consumed_text; try reflexivity
      | norm_rev; try reflexivity]
  end.

(** [keyword\s+(\w+)] at the start of [keyword name ...]. *)
Lemma keyword_name_match (kw N rest bef : text) :
  is_ident N = true -> stops isword rest ->
  match_at (Lit kw ;; ws1 ;; Grp 1 word) bef (kw ++ " " ++ N ++ rest)
  = Some (RM (kw ++ " " ++ N) [(1, N)]).
Proof.
  intros HN Hs. destruct (ident_cons N HN) as (c & w & -> & Hc & Hw).
  rewrite match_at_eq, mt_seq_eq, mt_lit_take. cbv beta.
  rewrite mt_seq_eq. unfold ws1.
  apply (mt_plus_take isspace " "%char [] _ ((c :: w) ++ rest));
    [reflexivity | reflexivity | exact (word_not_space c Hc) |].
  cbv beta. unfold word.
  apply (mt_grp_plus_take 1 isword c w _ rest); [assumption..|].
  finish_match (kw ++ " " ++ c :: w) bef.
Qed.

(** The first brace-delimited body. *)
Lemma body_match (pre body post : text) :
  ~ In "{"%char pre -> body <> [] -> ~ In "}"%char body ->
  re_search body_re (pre ++ "{" ++ body ++ "}" ++ post)
  = Some (RM ("{" ++ body ++ "}") [(1, body)]).
Proof.
  intros Hpre Hne Hbody. unfold re_search.
  rewrite search_from_skip.
  2:{ intros u v E Hv. destruct v as [|x v]; [contradiction|].
      unfold body_re. rewrite match_at_eq, mt_seq_eq.
      apply mt_lit_fail. intros ->. apply Hpre. rewrite E.
      apply in_or_app. right. simpl; auto. }
  apply search_from_here. destruct body as [|c w]; [contradiction|].
  unfold body_re. rewrite match_at_eq, mt_seq_eq.
  rewrite (mt_lit_take "{"). cbv beta. rewrite mt_seq_eq.
  apply (mt_grp_lazy_take 1 dotall c w _ ("}" ++ post)).
  - reflexivity.
  - apply forallb_forall. reflexivity.
  - intros u v E Hv. cbv beta. destruct v as [|x v]; [contradiction|].
    apply mt_lit_fail. intros ->. apply Hbody. rewrite E.
    right. apply in_or_app. right. simpl; auto.
  - cbv beta. rewrite (mt_lit_take "}").
    finish_match ("{" ++ (c :: w) ++ "}") (rev pre ++ []).
Qed.

(** *** Enum members *)

Lemma scan_match_text (r : regex) (t bef rest : text) (m : rmatch) :
  match_at r bef (t ++ rest) = Some m -> m_text m = t -> t <> [] ->
  scan r 0 bef (t ++ rest) = m :: scan r 0 (rev t ++ bef) rest.
Proof.
  destruct t as [|c w]; [contradiction|]. intros H E _.
  apply scan_match; assumption.
Qed.

Lemma quote_not_space (c : ascii) : isspace c = true -> quote_char c = false.
Proof.
  intros H. unfold quote_char.
  destruct (Ascii.eqb_spec c dquote) as [->|]; [discriminate H|].
  destruct (Ascii.eqb_spec c squote) as [->|]; [discriminate H|].
  reflexivity.
Qed.

Lemma mt_grp_plus_fail {R} n g p bef rest gs (k : mstate -> option R) :
  stops p rest -> mt (Grp n (Plus g p)) (MS bef rest gs) k = None.
Proof.
  intros H. cbn [mt Plus ms_rest]. destruct rest as [|c rest]; [reflexivity|].
  simpl in H. rewrite H. reflexivity.
Qed.

Lemma value_pattern_fail (bef s : text) :
  stops isword s -> match_at value_pattern bef s = None.
Proof.
  intros H. unfold value_pattern, word. rewrite match_at_eq, mt_seq_eq.
  apply mt_grp_plus_fail. exact H.
Qed.

(** The optional part of [value_pattern], from the equals sign on. *)
Local Abbreviation assigned :=
  (Lit "=" ;; ws ;; Cls quote_char ;; Grp 2 (Plus false dot) ;;
   Cls quote_char ;; ws).

Lemma assigned_fails_other {R} (tail bef : text) gs (k : mstate -> option R) :
  stops (chr "=") tail -> mt assigned (MS bef tail gs) k = None.
Proof.
  intros H. rewrite mt_seq_eq. destruct tail as [|x tail].
  - apply mt_lit_nil.
  - apply mt_lit_fail. simpl in H. unfold chr in H.
    intros ->. discriminate H.
Qed.

Lemma spaces_then_no_quote (sp rest u v : text) :
  forallb isspace sp = true ->
  stops (fun c => isspace c || quote_char c) rest ->
  sp ++ rest = u ++ v -> forallb isspace u = true -> stops quote_char v.
Proof.
  revert u. induction sp as [|s sp IH]; intros u Hsp Hr E Hu.
  - simpl in E. destruct u as [|x u].
    + simpl in E. subst v. destruct rest as [|y rest]; [exact I|].
      simpl in *. apply orb_false_iff in Hr. tauto.
    + subst rest. simpl in *. apply andb_true_iff in Hu.
      destruct Hu as [Hx _]. rewrite Hx in Hr. discriminate.
  - simpl in Hsp. apply andb_true_iff in Hsp. destruct Hsp as [Hs Hsp].
    destruct u as [|x u].
    + simpl in E. subst v. simpl. apply quote_not_space. exact Hs.
    + simpl in E. inversion E; subst. simpl in Hu.
      apply andb_true_iff in Hu. apply (IH u); tauto.
Qed.

Lemma assigned_fails_unquoted {R} (sp rest bef : text) gs
      (k : mstate -> option R) :
  forallb isspace sp = true ->
  stops (fun c => isspace c || quote_char c) rest ->
  mt assigned (MS bef ("=" ++ sp ++ rest) gs) k = None.
Proof.
  intros Hsp Hr. rewrite mt_seq_eq, (mt_lit_take "="). cbv beta.
  rewrite mt_seq_eq. unfold ws. apply mt_star_none.
  intros u v E Hu. cbv beta. rewrite mt_seq_eq. apply mt_cls_fail.
  cbn [ms_rest]. exact (spaces_then_no_quote sp rest u v Hsp Hr E Hu).
Qed.

(** A member with no quoted value: the match is the identifier and the
    spaces after it. *)
Lemma bare_match (id sp tail bef : text) :
  is_ident id = true -> forallb isspace sp = true ->
  stops isspace tail -> (sp = [] -> stops isword tail) ->
  (forall b gs (k : mstate -> option rmatch),
      mt assigned (MS b tail gs) k = None) ->
  match_at value_pattern bef (id ++ sp ++ tail)
  = Some (RM (id ++ sp) [(1, id)]).
Proof.
  intros Hid Hsp Ht Hw Hopt.
  destruct (ident_cons id Hid) as (c & w & -> & Hc & Hcw).
  unfold value_pattern, word. rewrite match_at_eq, mt_seq_eq.
  apply (mt_grp_plus_take 1 isword c w _ (sp ++ tail)); [assumption..| |].
  { destruct sp as [|s sp]; [apply Hw; reflexivity|].
    simpl in *. apply andb_true_iff in Hsp. apply space_not_word. tauto. }
  cbv beta. rewrite mt_seq_eq. unfold ws.
  apply mt_star_take; [assumption..|]. cbv beta.
  rewrite mt_opt_skip by apply Hopt.
  finish_match ((c :: w) ++ sp) bef.
Qed.

Lemma plain_value_chars (v : text) :
  forallb plain_value_char v = true ->
  forallb dot v = true /\ (forall c, In c v -> quote_char c = false)
  /\ ~ In "}"%char v.
Proof.
  intros H. rewrite forallb_forall in H. repeat split.
  - apply forallb_forall. intros c Hc. specialize (H c Hc).
    unfold plain_value_char in H. rewrite !andb_true_iff in H. tauto.
  - intros c Hc. specialize (H c Hc).
    unfold plain_value_char in H. rewrite !andb_true_iff in H.
    destruct H as [[_ H] _]. destruct (quote_char c); [discriminate|reflexivity].
  - intros Hc. specialize (H _ Hc). vm_compute in H. discriminate.
Qed.

(** A member with a quoted value: the match runs to the closing quote
    and the spaces after it, and group 2 is the value. *)
Lemma quoted_match (id v sp tail bef : text) :
  is_ident id = true -> v <> [] -> forallb plain_value_char v = true ->
  forallb isspace sp = true -> stops isspace tail ->
  match_at value_pattern bef
    (id ++ " = " ++ [dquote] ++ v ++ [dquote] ++ sp ++ tail)
  = Some (RM (id ++ " = " ++ [dquote] ++ v ++ [dquote] ++ sp)
             [(2, v); (1, id)]).
Proof.
  intros Hid Hv Hp Hsp Ht.
  destruct (ident_cons id Hid) as (c & w & -> & Hc & Hcw).
  destruct (plain_value_chars v Hp) as (Hdot & Hq & _).
  destruct v as [|d v']; [contradiction|].
  simpl in Hdot. apply andb_true_iff in Hdot. destruct Hdot as [Hd Hdot].
  unfold value_pattern, word. rewrite match_at_eq, mt_seq_eq.
  apply (mt_grp_plus_take 1 isword c w _
           (" = " ++ [dquote] ++ (d :: v') ++ [dquote] ++ sp ++ tail));
    [assumption | assumption | reflexivity|].
  cbv beta. rewrite mt_seq_eq. unfold ws.
  apply (mt_star_take isspace " " _
           ("=" ++ " " ++ [dquote] ++ (d :: v') ++ [dquote] ++ sp ++ tail));
    [reflexivity | reflexivity|].
  cbv beta. apply mt_opt_take.
  rewrite mt_seq_eq, (mt_lit_take "="). cbv beta. rewrite mt_seq_eq.
  apply (mt_star_take isspace " " _
           ([dquote] ++ (d :: v') ++ [dquote] ++ sp ++ tail));
    [reflexivity | reflexivity|].
  cbv beta. rewrite mt_seq_eq.
  change ([dquote] ++ (d :: v') ++ [dquote] ++ sp ++ tail)
    with (dquote :: d :: v' ++ (dquote :: sp ++ tail)).
  rewrite mt_cls_take by reflexivity. rewrite mt_seq_eq.
  apply (mt_grp_lazy_take 2 dot d v' _ (dquote :: sp ++ tail));
    [assumption | assumption | |].
  - intros u x E Hx. cbv beta. rewrite mt_seq_eq. apply mt_cls_fail.
    destruct x as [|y x]; [contradiction|]. simpl.
    apply Hq. right. rewrite E. apply in_or_app. right. simpl; auto.
  - cbv beta. rewrite mt_seq_eq, mt_cls_take by reflexivity.
    apply mt_star_take; [assumption..|].
    finish_match ((c :: w) ++ " = " ++ [dquote] ++ (d :: v') ++ [dquote] ++ sp)
                 bef.
Qed.

(** One member followed by spaces and then the end, or anything that is
    no space, no word character and no equals sign. *)
Lemma member_match (m : member) (sp tail bef : text) :
  member_ok m = true -> forallb isspace sp = true ->
  stops (fun c => isspace c || isword c || chr "=" c) tail ->
  exists r,
    match_at value_pattern bef (member_text m ++ sp ++ tail) = Some r
    /\ m_text r = member_text m ++ sp
    /\ enum_value r = member_value m.
Proof.
  intros Hm Hsp Ht. destruct m as [id [v|]]; unfold member_ok in Hm;
    cbn [fst snd] in Hm; apply andb_true_iff in Hm; destruct Hm as [Hid Hv].
  - assert (v <> []) as Hne by (destruct v; [discriminate Hv | discriminate]).
    assert (forallb plain_value_char v = true) as Hp
        by (destruct v; [discriminate Hv | exact Hv]).
    eexists. split; [|split].
    + cbn [member_text]. rewrite <- !app_assoc.
      apply quoted_match; try assumption.
      destruct tail as [|x tail]; [exact I|]. simpl in *.
      rewrite !orb_false_iff in Ht. tauto.
    + cbn [m_text member_text]. rewrite <- !app_assoc. reflexivity.
    + unfold enum_value. cbn. destruct v; [contradiction | reflexivity].
  - eexists. split; [|split].
    + cbn [member_text]. apply bare_match; try assumption.
      * destruct tail as [|x tail]; [exact I|]. simpl in *.
        rewrite !orb_false_iff in Ht. tauto.
      * intros _. destruct tail as [|x tail]; [exact I|]. simpl in *.
        rewrite !orb_false_iff in Ht. tauto.
      * intros b gs k. apply assigned_fails_other.
        destruct tail as [|x tail]; [exact I|]. simpl in *.
        rewrite !orb_false_iff in Ht. tauto.
    + reflexivity.
    + reflexivity.
Qed.

Lemma member_text_nonempty (m : member) :
  member_ok m = true -> member_text m <> [].
Proof.
  destruct m as [id o]. unfold member_ok. cbn [fst snd].
  intros H. apply andb_true_iff in H. destruct H as [H _].
  destruct id as [|c id]; [discriminate|]. destruct o; discriminate.
Qed.

(** The values of a member list, in the order of the list. *)
Lemma scan_members :
  forall ms bef, ms <> [] -> forallb member_ok ms = true ->
    map enum_value
        (scan value_pattern 0 bef (join ", " (map member_text ms) ++ " "))
    = map member_value ms.
Proof.
  induction ms as [|m ms IH]; intros bef Hne Hok; [contradiction|].
  simpl in Hok. apply andb_true_iff in Hok. destruct Hok as [Hm Hok].
  destruct ms as [|m2 ms].
  - cbn [map join].
    destruct (member_match m " " [] bef Hm eq_refl I) as (r & Hr & Ht & Hval).
    assert (match_at value_pattern bef ((member_text m ++ " ") ++ []) = Some r)
      as Hr' by (rewrite <- app_assoc; exact Hr).
    rewrite <- (app_nil_r (member_text m ++ " ")).
    rewrite (scan_match_text value_pattern (member_text m ++ " ") bef [] r Hr' Ht).
    + rewrite scan_end by (apply value_pattern_fail; exact I).
      cbn [map]. rewrite Hval. reflexivity.
    + intros E. apply app_eq_nil in E. destruct E; discriminate.
  - change (join ", " (map member_text (m :: m2 :: ms)))
      with (member_text m ++ ", " ++ join ", " (map member_text (m2 :: ms))).
    rewrite <- !app_assoc.
    set (X := join ", " (map member_text (m2 :: ms)) ++ " ") in *.
    destruct (member_match m [] (", " ++ X) bef Hm eq_refl eq_refl)
      as (r & Hr & Ht & Hval).
    cbn [app] in Hr, Ht. rewrite app_nil_r in Ht.
    rewrite (scan_match_text _ _ _ _ r Hr Ht (member_text_nonempty m Hm)).
    rewrite (scan_fail value_pattern ", ").
    + cbn [map]. rewrite Hval. f_equal. apply IH; [discriminate | exact Hok].
    + intros u v E Hv. apply value_pattern_fail.
      apply (suffix_stops isword ", " u v); auto.
Qed.

(** [parse_enum] on a declaration written as [enum_text]. *)
Lemma parse_enum_text (name : text) (ms : list member) :
  is_ident name = true -> forallb member_ok ms = true ->
  parse_enum (enum_text name ms) = Ok (name, map member_value ms).
Proof.
  intros Hn Hms. unfold parse_enum, enum_text.
  assert (re_search enum_name_re
            ("enum " ++ name ++ " { " ++ join ", " (map member_text ms) ++ " }")
          = Some (RM ("enum" ++ " " ++ name) [(1, name)])) as E1.
  { apply search_from_here. unfold enum_name_re.
    apply (keyword_name_match "enum" name
             (" { " ++ join ", " (map member_text ms) ++ " }") []);
      [exact Hn | reflexivity]. }
  rewrite E1. cbn [group_str group m_groups group_in Nat.eqb].
  f_equal. f_equal.
  set (body := " " ++ join ", " (map member_text ms) ++ " ").
  assert (~ In "}"%char (join ", " (map member_text ms))) as Hj.
  { clear E1. induction ms as [|m ms IH]; [intros []|].
    simpl in Hms. apply andb_true_iff in Hms. destruct Hms as [Hm Hms].
    assert (~ In "}"%char (member_text m)) as Hmt.
    { destruct m as [id [v|]]; unfold member_ok in Hm; cbn [fst snd] in Hm;
        apply andb_true_iff in Hm; destruct Hm as [Hid Hv]; cbn [member_text].
      - assert (forallb plain_value_char v = true) as Hp
            by (destruct v; [discriminate Hv | exact Hv]).
        destruct (plain_value_chars v Hp) as (_ & _ & Hb).
        intros H. apply in_app_or in H. destruct H as [H|H].
        + apply (words_no_char id "}" (ident_words id Hid) eq_refl H).
        + cbn in H. destruct H as [H|[H|[H|[H|H]]]]; try discriminate H.
          apply in_app_or in H. destruct H as [H|[H|[]]];
            [contradiction | discriminate H].
      - apply (words_no_char id "}" (ident_words id Hid) eq_refl). }
    destruct ms as [|m2 ms]; [exact Hmt|].
    change (join ", " (map member_text (m :: m2 :: ms)))
      with (member_text m ++ ", " ++ join ", " (map member_text (m2 :: ms))).
    intros H. apply in_app_or in H. destruct H as [H|H]; [contradiction|].
    cbn in H. destruct H as [H|[H|H]]; try discriminate H.
    apply (IH Hms H). }
  assert (re_search body_re
            ("enum " ++ name ++ " { " ++ join ", " (map member_text ms) ++ " }")
          = Some (RM ("{" ++ body ++ "}") [(1, body)])) as E2.
  { replace ("enum " ++ name ++ " { " ++ join ", " (map member_text ms) ++ " }")
      with (("enum " ++ name ++ " ") ++ "{" ++ body ++ "}" ++ [])
      by (unfold body; rewrite <- !app_assoc; reflexivity).
    apply body_match.
    - intros H. apply in_app_or in H. destruct H as [H|H].
      + cbn in H. repeat (destruct H as [H|H]; [discriminate H|]). destruct H.
      + apply in_app_or in H. destruct H as [H|[H|[]]]; [|discriminate H].
        apply (words_no_char name "{" (ident_words name Hn) eq_refl H).
    - discriminate.
    - unfold body. intros H. cbn in H. destruct H as [H|H]; [discriminate H|].
      apply in_app_or in H. destruct H as [H|[H|[]]];
        [contradiction | discriminate H]. }
  rewrite E2. cbn [group_str group m_groups group_in Nat.eqb].
  unfold finditer, body.
  rewrite (scan_fail value_pattern " " []).
  2:{ intros u v E Hv. apply value_pattern_fail.
      apply (suffix_stops isword " " u v); auto. }
  destruct ms as [|m ms].
  - cbn [map join app]. rewrite (scan_fail value_pattern " " _ []).
    + rewrite scan_end by (apply value_pattern_fail; exact I). reflexivity.
    + intros u v E Hv. apply value_pattern_fail.
      apply (suffix_stops isword " " u v); auto.
  - apply scan_members; [discriminate | exact Hms].
Qed.

(** *** A member with an unquoted initializer *)

Lemma word_not_quote (c : ascii) : isword c = true -> quote_char c = false.
Proof.
  intros H. unfold quote_char.
  destruct (Ascii.eqb_spec c dquote) as [->|]; [discriminate H|].
  destruct (Ascii.eqb_spec c squote) as [->|]; [discriminate H|].
  reflexivity.
Qed.

Lemma parse_enum_body (name body : text) :
  is_ident name = true -> body <> [] -> ~ In "}"%char body ->
  parse_enum ("enum " ++ name ++ " {" ++ body ++ "}")
  = Ok (name, map enum_value (finditer value_pattern body)).
Proof.
  intros Hn Hne Hb. unfold parse_enum.
  assert (re_search enum_name_re ("enum " ++ name ++ " {" ++ body ++ "}")
          = Some (RM ("enum" ++ " " ++ name) [(1, name)])) as E1.
  { apply search_from_here. unfold enum_name_re.
    apply (keyword_name_match "enum" name (" {" ++ body ++ "}") []);
      [exact Hn | reflexivity]. }
  rewrite E1. cbn [group_str group m_groups group_in Nat.eqb].
  assert (re_search body_re ("enum " ++ name ++ " {" ++ body ++ "}")
          = Some (RM ("{" ++ body ++ "}") [(1, body)])) as E2.
  { replace ("enum " ++ name ++ " {" ++ body ++ "}")
      with (("enum " ++ name ++ " ") ++ "{" ++ body ++ "}" ++ [])
      by (rewrite <- !app_assoc; reflexivity).
    apply body_match; [|assumption..].
    intros H. apply in_app_or in H. destruct H as [H|H].
    - cbn in H. repeat (destruct H as [H|H]; [discriminate H|]). destruct H.
    - apply in_app_or in H. destruct H as [H|[H|[]]]; [|discriminate H].
      apply (words_no_char name "{" (ident_words name Hn) eq_refl H). }
  rewrite E2. reflexivity.
Qed.

Lemma scan_unquoted (name init : text) :
  is_ident name = true -> is_ident init = true ->
  map enum_value (finditer value_pattern (" " ++ name ++ " = " ++ init ++ " "))
  = [name; init].
Proof.
  intros Hn Hi. unfold finditer.
  destruct (ident_cons init Hi) as (c & w & Ei & Hc & Hw).
  rewrite (scan_fail value_pattern " " []).
  2:{ intros u v E Hv. apply value_pattern_fail.
      apply (suffix_stops isword " " u v); auto. }
  assert (match_at value_pattern (rev " " ++ [])
            (name ++ " " ++ "=" ++ " " ++ init ++ " ")
          = Some (RM (name ++ " ") [(1, name)])) as M1.
  { apply bare_match; [exact Hn | reflexivity | reflexivity | discriminate |].
    intros b gs k. apply assigned_fails_unquoted; [reflexivity|].
    rewrite Ei. simpl. rewrite (word_not_space c Hc), (word_not_quote c Hc).
    reflexivity. }
  change (name ++ " = " ++ init ++ " ")
    with (name ++ " " ++ "=" ++ " " ++ init ++ " ").
  rewrite (app_assoc name " ").
  rewrite (scan_match_text value_pattern (name ++ " ") (rev " " ++ [])
             ("=" ++ " " ++ init ++ " ") (RM (name ++ " ") [(1, name)])).
  2:{ rewrite <- app_assoc. exact M1. }
  2:{ reflexivity. }
  2:{ intros E. apply app_eq_nil in E. destruct E; discriminate. }
  rewrite (app_assoc "=" " ").
  rewrite (scan_fail value_pattern ("=" ++ " ")).
  2:{ intros u v E Hv. apply value_pattern_fail.
      apply (suffix_stops isword ("=" ++ " ") u v); auto. }
  rewrite <- (app_nil_r (init ++ " ")).
  rewrite (scan_match_text value_pattern (init ++ " ") _ []
             (RM (init ++ " ") [(1, init)])).
  - rewrite scan_end by (apply value_pattern_fail; exact I). reflexivity.
  - rewrite <- app_assoc.
    apply bare_match; [exact Hi | reflexivity | exact I | discriminate |].
    intros b gs k. apply assigned_fails_other. exact I.
  - reflexivity.
  - intros E. apply app_eq_nil in E. destruct E; discriminate.
Qed.

Lemma parse_enum_unquoted (N name init : text) :
  is_ident N = true -> is_ident name = true -> is_ident init = true ->
  parse_enum ("enum " ++ N ++ " { " ++ name ++ " = " ++ init ++ " }")
  = Ok (N, [name; init]).
Proof.
  intros HN Hn Hi.
  replace ("enum " ++ N ++ " { " ++ name ++ " = " ++ init ++ " }")
    with ("enum " ++ N ++ " {" ++ (" " ++ name ++ " = " ++ init ++ " ") ++ "}")
    by (rewrite <- !app_assoc; reflexivity).
  rewrite parse_enum_body.
  - rewrite scan_unquoted by assumption. reflexivity.
  - exact HN.
  - discriminate.
  - intros H. cbn in H. destruct H as [H|H]; [discriminate H|].
    apply in_app_or in H. destruct H as [H|H].
    + apply (words_no_char name "}" (ident_words name Hn) eq_refl H).
    + cbn in H. repeat (destruct H as [H|H]; [discriminate H|]).
      apply in_app_or in H. destruct H as [H|[H|[]]]; [|discriminate H].
      apply (words_no_char init "}" (ident_words init Hi) eq_refl H).
Qed.

(** *** Type aliases *)

Lemma not_in_notchr (x : ascii) (s : text) :
  ~ In x s -> forallb (notchr x) s = true.
Proof.
  intros H. apply forallb_forall. intros c Hc. unfold notchr.
  destruct (Ascii.eqb_spec c x) as [->|]; [contradiction | reflexivity].
Qed.

Lemma mt_eos_fail {R} (bef rest : text) gs (k : mstate -> option R) :
  2 <= length rest -> mt Eos (MS bef rest gs) k = None.
Proof.
  destruct rest as [|a [|b rest]]; simpl; intros H; try lia. reflexivity.
Qed.

Lemma spaces_before_last (u v s : text) (z y : ascii) :
  forallb isspace u = true -> isspace z = false ->
  u ++ v = s ++ [z; y] -> 2 <= length v.
Proof.
  revert s. induction u as [|a u IH]; intros s Hu Hz E.
  - simpl in E. subst v. rewrite length_app. simpl. lia.
  - simpl in Hu. apply andb_true_iff in Hu. destruct Hu as [Ha Hu].
    destruct s as [|b s]; simpl in E; inversion E; subst.
    + congruence.
    + eapply IH; eauto.
Qed.

(** The whole of [type N = rhs;] is one match of [type_pattern]. *)
Lemma type_pattern_match (N rhs bef : text) :
  is_ident N = true -> rhs <> [] -> strip rhs = rhs -> ~ In ";"%char rhs ->
  match_at type_pattern bef ("type " ++ N ++ " = " ++ rhs ++ ";")
  = Some (RM ("type " ++ N ++ " = " ++ rhs ++ ";") []).
Proof.
  intros HN Hne Hs Hsemi.
  destruct (ident_cons N HN) as (c & w & -> & Hc & Hw).
  destruct rhs as [|d r]; [contradiction|].
  pose proof (stripped_head d r Hs) as Hd.
  pose proof (not_in_notchr ";" (d :: r) Hsemi) as Hr.
  simpl in Hr. apply andb_true_iff in Hr. destruct Hr as [Hd' Hr].
  change ("type " ++ (c :: w) ++ " = " ++ (d :: r) ++ ";")
    with ("type" ++ " " ++ (c :: w) ++ " " ++ "=" ++ " " ++ (d :: r) ++ ";" ++ []).
  unfold type_pattern, export_opt. rewrite match_at_eq, mt_seq_eq.
  rewrite mt_opt_skip.
  2:{ rewrite mt_seq_eq. apply (mt_lit_fail "e" "xport" "t"). discriminate. }
  rewrite mt_seq_eq, (mt_lit_take "type"). cbv beta. rewrite mt_seq_eq.
  unfold ws1.
  apply (mt_plus_take isspace " "%char [] _
           ((c :: w) ++ " " ++ "=" ++ " " ++ (d :: r) ++ ";" ++ []));
    [reflexivity | reflexivity | exact (word_not_space c Hc) |].
  cbv beta. rewrite mt_seq_eq. unfold word.
  apply (mt_plus_take isword c w _ (" " ++ "=" ++ " " ++ (d :: r) ++ ";" ++ []));
    [assumption | assumption | reflexivity |].
  cbv beta. rewrite mt_seq_eq. unfold ws.
  apply (mt_star_take isspace " " _ ("=" ++ " " ++ (d :: r) ++ ";" ++ []));
    [reflexivity | reflexivity |].
  cbv beta. rewrite mt_seq_eq, (mt_lit_take "="). cbv beta. rewrite mt_seq_eq.
  apply (mt_star_take isspace " " _ ((d :: r) ++ ";" ++ []));
    [reflexivity | exact Hd |].
  cbv beta. rewrite mt_seq_eq.
  apply (mt_plus_take (notchr ";") d r _ (";" ++ []));
    [assumption | assumption | reflexivity |].
  cbv beta. apply mt_opt_take. rewrite (mt_lit_take ";").
  finish_match ("type" ++ " " ++ (c :: w) ++ " " ++ "=" ++ " " ++ (d :: r) ++ ";")
               bef.
Qed.

(** [parse_type_alias] reads the name and the whole right-hand side. *)
Lemma parse_type_alias_text (N rhs : text) :
  is_ident N = true -> rhs <> [] -> strip rhs = rhs -> ~ In ";"%char rhs ->
  parse_type_alias ("type " ++ N ++ " = " ++ rhs ++ ";") = Ok (N, rhs).
Proof.
  intros HN Hne Hs Hsemi. unfold parse_type_alias.
  assert (re_search alias_re ("type " ++ N ++ " = " ++ rhs ++ ";")
          = Some (RM ("type " ++ N ++ " = " ++ rhs ++ ";") [(2, rhs); (1, N)]))
    as E.
  { apply search_from_here.
    destruct (ident_cons N HN) as (c & w & -> & Hc & Hw).
    destruct (text_last rhs Hne) as (r0 & z & Ez).
    assert (isspace z = false) as Hz
        by (apply (stripped_last r0); rewrite <- Ez; exact Hs).
    destruct rhs as [|d r]; [contradiction|].
    pose proof (stripped_head d r Hs) as Hd.
    change ("type " ++ (c :: w) ++ " = " ++ (d :: r) ++ ";")
      with ("type" ++ " " ++ (c :: w) ++ " " ++ "=" ++ " " ++ (d :: r) ++ ";" ++ []).
    unfold alias_re. rewrite match_at_eq, mt_seq_eq, (mt_lit_take "type").
    cbv beta. rewrite mt_seq_eq. unfold ws1.
    apply (mt_plus_take isspace " "%char [] _
             ((c :: w) ++ " " ++ "=" ++ " " ++ (d :: r) ++ ";" ++ []));
      [reflexivity | reflexivity | exact (word_not_space c Hc) |].
    cbv beta. rewrite mt_seq_eq. unfold word.
    apply (mt_grp_plus_take 1 isword c w _
             (" " ++ "=" ++ " " ++ (d :: r) ++ ";" ++ []));
      [assumption | assumption | reflexivity |].
    cbv beta. rewrite mt_seq_eq. unfold ws.
    apply (mt_star_take isspace " " _ ("=" ++ " " ++ (d :: r) ++ ";" ++ []));
      [reflexivity | reflexivity |].
    cbv beta. rewrite mt_seq_eq, (mt_lit_take "="). cbv beta. rewrite mt_seq_eq.
    apply (mt_star_take isspace " " _ ((d :: r) ++ ";" ++ []));
      [reflexivity | exact Hd |].
    cbv beta. rewrite mt_seq_eq.
    apply (mt_grp_lazy_take 2 dotall d r _ (";" ++ []));
      [reflexivity | apply forallb_forall; reflexivity | |].
    - intros u v Euv Hv. cbv beta. rewrite mt_seq_eq.
      destruct v as [|x v]; [contradiction|].
      rewrite mt_opt_skip.
      2:{ apply mt_lit_fail. intros ->. apply Hsemi. right. rewrite Euv.
          apply in_or_app. right. simpl; auto. }
      rewrite mt_seq_eq. apply mt_star_none. intros u2 v2 E2 Hu2. cbv beta.
      apply mt_eos_fail.
      assert (exists s, (x :: v) ++ ";" ++ [] = s ++ [z; ";"%char]) as [s Es].
      { assert (d :: r = (d :: u) ++ x :: v) as E3 by (rewrite Euv; reflexivity).
        rewrite Ez in E3.
        destruct (suffix_split r0 (d :: u) (x :: v) z E3 ltac:(discriminate))
          as (v' & Ev' & _).
        exists v'. rewrite Ev', <- app_assoc. reflexivity. }
      cbn [ms_rest] in E2. rewrite Es in E2.
      exact (spaces_before_last u2 v2 s z ";" Hu2 Hz (eq_sym E2)).
    - cbv beta. rewrite mt_seq_eq. apply mt_opt_take.
      rewrite (mt_lit_take ";"). cbv beta. rewrite mt_seq_eq.
      apply (mt_star_take isspace [] _ []); [reflexivity | exact I |].
      cbv beta. cbn [mt ms_rest].
      finish_match ("type" ++ " " ++ (c :: w) ++ " " ++ "=" ++ " " ++ (d :: r) ++ ";")
                   ([] : text). }
  rewrite E. cbn [group_str group m_groups group_in Nat.eqb].
  rewrite Hs. f_equal. f_equal.
  destruct (text_last rhs Hne) as (r0 & z & Ez).
  unfold rstrip_char. rewrite Ez, rev_app_distr. cbn [rev app].
  rewrite dropwhile_stop.
  - cbn [rev]. rewrite rev_involutive. reflexivity.
  - cbv beta iota. apply Ascii.eqb_neq. intros <-.
    apply Hsemi. rewrite Ez. apply in_or_app. right. simpl; auto.
Qed.

Lemma types_add_interfaces ms self :
  types (fold_left add_interface ms self) = types self.
Proof.
  revert self. induction ms as [|m ms IH]; intros self; simpl; [reflexivity|].
  rewrite IH. unfold add_interface.
  destruct (parse_interface (m_text m)) as [[? ?]|]; reflexivity.
Qed.

Lemma types_add_enums ms self :
  types (fold_left add_enum ms self) = types self.
Proof.
  revert self. induction ms as [|m ms IH]; intros self; simpl; [reflexivity|].
  rewrite IH. unfold add_enum.
  destruct (parse_enum (m_text m)) as [[? ?]|]; reflexivity.
Qed.


(** *** Generic arguments of [Record] *)

Lemma contains_char_false (c : ascii) (s : text) :
  contains [c] s = false -> ~ In c s.
Proof.
  intros H Hin. induction s as [|x s IH]; [destruct Hin|].
  simpl in H. apply orb_false_iff in H. destruct H as [H1 H2].
  destruct Hin as [->|Hin]; [|auto].
  unfold startswith in H1. simpl in H1. rewrite Ascii.eqb_refl in H1.
  discriminate.
Qed.

Lemma plain_arg_facts (stop : ascii) (s : text) :
  plain_arg stop s = true ->
  exists c w, s = c :: w /\ strip s = s /\ ~ In stop s /\ ~ In newline s.
Proof.
  destruct s as [|c w]; [discriminate|]. unfold plain_arg.
  rewrite !andb_true_iff, !negb_true_iff. intros [[H1 H2] H3].
  exists c, w. split; [reflexivity|]. split; [apply text_eqb_eq; exact H1|].
  split; apply contains_char_false; assumption.
Qed.

Lemma not_newline_dot (s : text) : ~ In newline s -> forallb dot s = true.
Proof.
  intros H. apply forallb_forall. intros c Hc. unfold dot.
  destruct (Ascii.eqb_spec c newline) as [->|]; [contradiction | reflexivity].
Qed.

(** After a run of spaces inside a text that ends with a non-space, the
    next character still belongs to that text. *)
Lemma spaces_within (u v s rest : text) (z : ascii) :
  forallb isspace u = true -> isspace z = false ->
  u ++ v = (s ++ [z]) ++ rest ->
  exists x v', v = x :: v' /\ In x (s ++ [z]).
Proof.
  revert s. induction u as [|a u IH]; intros s Hu Hz E.
  - simpl in E. subst v. destruct s as [|b s]; simpl; eauto.
  - simpl in Hu. apply andb_true_iff in Hu. destruct Hu as [Ha Hu].
    destruct s as [|b s]; simpl in E; inversion E; subst.
    + congruence.
    + destruct (IH s Hu Hz H1) as (x & v' & Ev & Hin).
      exists x, v'. split; [exact Ev|]. right. exact Hin.
Qed.

(** Inside a plain argument, [\s*] followed by the stop character fails. *)
Lemma ws_stop_fails {R} (stop : ascii) (r : regex) (v rest bef : text) gs
      (z : ascii) (s : text) (k : mstate -> option R) :
  v = s ++ [z] -> isspace z = false -> ~ In stop v ->
  mt (ws ;; Lit [stop] ;; r) (MS bef (v ++ rest) gs) k = None.
Proof.
  intros Ev Hz Hstop. rewrite mt_seq_eq. unfold ws. apply mt_star_none.
  intros u2 v2 E Hu2. cbv beta. rewrite mt_seq_eq.
  rewrite Ev in E. destruct (spaces_within u2 v2 s rest z Hu2 Hz (eq_sym E))
    as (x & v' & -> & Hin).
  apply mt_lit_fail. intros ->. apply Hstop. rewrite Ev. exact Hin.
Qed.

Lemma record_match (K V : text) :
  plain_arg "," K = true -> plain_arg ">" V = true ->
  re_match record_re ("Record<" ++ K ++ ", " ++ V ++ ">")
  = Some (RM ("Record<" ++ K ++ ", " ++ V ++ ">") [(2, V); (1, K)]).
Proof.
  intros HK HV.
  destruct (plain_arg_facts _ _ HK) as (c & w & EK & HsK & HcK & HnK).
  destruct (plain_arg_facts _ _ HV) as (d & r & EV & HsV & HcV & HnV).
  assert (K <> []) as HKne by (rewrite EK; discriminate).
  assert (V <> []) as HVne by (rewrite EV; discriminate).
  destruct (text_last K HKne) as (K0 & zK & EzK).
  destruct (text_last V HVne) as (V0 & zV & EzV).
  assert (isspace zK = false) as HzK
      by (apply (stripped_last K0); rewrite <- EzK; exact HsK).
  assert (isspace zV = false) as HzV
      by (apply (stripped_last V0); rewrite <- EzV; exact HsV).
  pose proof (not_newline_dot K HnK) as HdK.
  pose proof (not_newline_dot V HnV) as HdV.
  assert (isspace c = false) as Hc
      by (apply (stripped_head c w); rewrite <- EK; exact HsK).
  assert (isspace d = false) as Hd
      by (apply (stripped_head d r); rewrite <- EV; exact HsV).
  unfold re_match, record_re.
  rewrite match_at_eq, mt_seq_eq, (mt_lit_take "Record<"). cbv beta.
  rewrite mt_seq_eq. unfold ws at 1.
  apply (mt_star_take isspace [] _ (K ++ ", " ++ V ++ ">"));
    [reflexivity | rewrite EK; exact Hc |].
  cbv beta. rewrite mt_seq_eq.
  rewrite EK in HdK. simpl in HdK. apply andb_true_iff in HdK.
  destruct HdK as [Hdc HdK].
  rewrite EK at 1.
  apply (mt_grp_lazy_take 1 dot c w _ ("," ++ " " ++ V ++ ">"));
    [assumption | assumption | |].
  { intros u v Euv Hv. cbv beta.
    assert (exists s, v = s ++ [zK]) as [s Es].
    { assert (K0 ++ [zK] = (c :: u) ++ v) as E3
          by (rewrite <- EzK, EK, Euv; reflexivity).
      destruct (suffix_split K0 (c :: u) v zK E3 Hv) as (v' & Ev' & _).
      eauto. }
    apply (ws_stop_fails "," _ v _ _ _ zK s); [exact Es | exact HzK |].
    intros Hin. apply HcK. rewrite EK, Euv. right.
    apply in_or_app. right. exact Hin. }
  cbv beta. rewrite mt_seq_eq. unfold ws at 1.
  apply (mt_star_take isspace [] _ ("," ++ " " ++ V ++ ">"));
    [reflexivity | reflexivity |].
  cbv beta. rewrite mt_seq_eq, (mt_lit_take ","). cbv beta.
  rewrite mt_seq_eq. unfold ws at 1.
  apply (mt_star_take isspace " " _ (V ++ ">"));
    [reflexivity | rewrite EV; exact Hd |].
  cbv beta. rewrite mt_seq_eq.
  rewrite EV in HdV. simpl in HdV. apply andb_true_iff in HdV.
  destruct HdV as [Hdd HdV].
  rewrite EV at 1.
  apply (mt_grp_lazy_take 2 dot d r _ (">" ++ []));
    [assumption | assumption | |].
  { intros u v Euv Hv. cbv beta.
    assert (exists s, v = s ++ [zV]) as [s Es].
    { assert (V0 ++ [zV] = (d :: u) ++ v) as E3
          by (rewrite <- EzV, EV, Euv; reflexivity).
      destruct (suffix_split V0 (d :: u) v zV E3 Hv) as (v' & Ev' & _).
      eauto. }
    rewrite mt_seq_eq. unfold ws. apply mt_star_none.
    intros u2 v2 E Hu2. cbv beta.
    rewrite Es in E.
    destruct (spaces_within u2 v2 s (">" ++ []) zV Hu2 HzV (eq_sym E))
      as (x & v' & -> & Hin).
    apply mt_lit_fail. intros ->. apply HcV. rewrite EV, Euv. right.
    apply in_or_app. right. rewrite Es. exact Hin. }
  cbv beta. rewrite mt_seq_eq. unfold ws.
  apply (mt_star_take isspace [] _ (">" ++ [])); [reflexivity | reflexivity |].
  cbv beta. rewrite (mt_lit_take ">").
  rewrite <- EK, <- EV.
  finish_match ("Record<" ++ K ++ "," ++ " " ++ V ++ ">") ([] : text).
Qed.

Lemma convert_record self (K V : text) (opt : bool) :
  plain_arg "," K = true -> plain_arg ">" V = true ->
  contains " | undefined" ("Record<" ++ K ++ ", " ++ V ++ ">") = false ->
  contains " | null" ("Record<" ++ K ++ ", " ++ V ++ ">") = false ->
  convert_type self ("Record<" ++ K ++ ", " ++ V ++ ">") opt
  = add_optional opt ("z.record(" ++ convert_type self V false ++ ")").
Proof.
  intros HK HV Hu Hn. set (t := "Record<" ++ K ++ ", " ++ V ++ ">") in *.
  assert (t = ("Record<" ++ K ++ ", " ++ V) ++ [">"%char]) as Et
      by (unfold t; rewrite <- !app_assoc; reflexivity).
  assert (strip t = t) as Es.
  { apply strip_fixed; [reflexivity|]. rewrite Et, rev_app_distr. reflexivity. }
  assert (endswith "?" t = false) as Eq.
  { rewrite Et. apply (endswith_char_false []). discriminate. }
  assert (strip_optional t opt = (t, opt)) as Eo
      by (apply strip_optional_plain; assumption).
  assert (endswith "[]" t = false) as E1.
  { rewrite Et. apply (endswith_char_false ["["%char]). discriminate. }
  assert (which_rule self t = R_record) as Er.
  { unfold which_rule. rewrite TYPE_MAP_none, E1; reflexivity. }
  apply (convert_type_rules self _ _ _ _ _ Eo).
  rewrite (rules_record _ _ _ Er). unfold t.
  rewrite record_match by assumption. reflexivity.
Qed.

Lemma lang_seq_inv a b w :
  lang (Seq a b) w -> exists u v, w = u ++ v /\ lang a u /\ lang b v.
Proof. intros H. inversion H; subst. eauto. Qed.

Lemma lang_lit_inv s w : lang (Lit s) w -> w = s.
Proof. intros H. inversion H; subst. reflexivity. Qed.

(** Every match of the [Record] pattern holds a comma. *)
Lemma record_needs_comma (t : text) :
  contains "," t = false -> re_match record_re t = None.
Proof.
  intros H. destruct (re_match record_re t) as [m|] eqn:E; [|reflexivity].
  exfalso. apply (contains_char_false _ _ H).
  apply match_at_sound in E. destruct E as (rest & Et & L & _).
  rewrite Et. apply in_or_app. left. unfold record_re in L.
  repeat (apply lang_seq_inv in L;
          let u := fresh "u" in let v := fresh "v" in
          let L1 := fresh "L" in
          destruct L as (u & v & -> & L1 & L)).
  repeat match goal with
         | H : lang (Lit _) _ |- _ => apply lang_lit_inv in H; subst
         end.
  repeat (apply in_or_app; first [left; solve [simpl; auto] | right]).
Qed.

(** *** The optionality pattern *)

Lemma mt_star_one {R} p c bef rest gs (k : mstate -> option R) :
  p c = true -> stops p rest ->
  mt (Star true p) (MS bef (c :: rest) gs) k
  = match k (MS (c :: bef) rest gs) with
    | Some x => Some x
    | None => k (MS bef (c :: rest) gs)
    end.
Proof.
  intros Hc Hs. cbn [mt ms_rest ms_before ms_groups star_greedy].
  rewrite Hc, star_greedy_stop by exact Hs. reflexivity.
Qed.

Lemma mt_star_stop {R} p bef rest gs (k : mstate -> option R) :
  stops p rest -> mt (Star true p) (MS bef rest gs) k = k (MS bef rest gs).
Proof.
  intros Hs. cbn [mt ms_rest ms_before ms_groups].
  apply star_greedy_stop. exact Hs.
Qed.

Lemma mt_grp_eq {R} n a bef rest gs (k : mstate -> option R) :
  mt (Grp n a) (MS bef rest gs) k
  = mt a (MS bef rest gs) (fun st' =>
      k (MS (ms_before st') (ms_rest st')
            ((n, rev (firstn (length (ms_before st') - length bef)
                             (ms_before st'))) :: ms_groups st'))).
Proof. reflexivity. Qed.

Lemma sentinel_fails {R} (s bef : text) gs (k : mstate -> option R) :
  startswith "undefined" s = false -> startswith "null" s = false ->
  mt (Grp 1 (Alt (Lit "undefined") (Lit "null"))) (MS bef s gs) k = None.
Proof.
  unfold startswith. intros H1 H2. cbn [mt ms_rest ms_before ms_groups].
  destruct (strip_prefix "undefined" s); [discriminate|].
  destruct (strip_prefix "null" s); [discriminate|]. reflexivity.
Qed.

Lemma sentinel_undefined {R} (rest bef : text) gs (k : mstate -> option R) x :
  k (MS (rev "undefined" ++ bef) rest ((1, "undefined" : text) :: gs)) = Some x ->
  mt (Grp 1 (Alt (Lit "undefined") (Lit "null")))
     (MS bef ("undefined" ++ rest) gs) k = Some x.
Proof.
  intros H. rewrite mt_grp_eq. apply mt_alt_l. rewrite mt_lit_take.
  cbv beta. cbn [ms_rest ms_before ms_groups].
  rewrite consumed_text. exact H.
Qed.

Lemma startswith_app_sep (needle s b : text) :
  match b with [] => True | y :: _ => ~ In y needle end ->
  startswith needle (s ++ b) = startswith needle s.
Proof.
  unfold startswith. revert needle.
  induction s as [|x s IH]; intros needle Hb.
  - destruct needle as [|n needle]; [reflexivity|].
    destruct b as [|y b]; [reflexivity|]. simpl.
    destruct (Ascii.eqb_spec n y) as [->|]; [|reflexivity].
    exfalso. apply Hb. simpl; auto.
  - destruct needle as [|n needle]; [reflexivity|]. simpl.
    destruct (Ascii.eqb n x); [|reflexivity].
    apply IH. destruct b as [|y b]; [exact I|].
    intros Hin. apply Hb. right. exact Hin.
Qed.

(** No match of the optionality pattern starts inside a plain branch. *)
Lemma plain_branch_facts (s : text) :
  plain_branch s = true ->
  exists c w s0 z,
    s = c :: w /\ s = s0 ++ [z] /\ strip s = s /\ ~ In "|"%char s
    /\ isspace c = false /\ isspace z = false.
Proof.
  destruct s as [|c w] eqn:Es; [discriminate|]. unfold plain_branch.
  rewrite andb_true_iff, negb_true_iff. intros [H1 H2].
  apply text_eqb_eq in H1.
  destruct (text_last (c :: w) ltac:(discriminate)) as (s0 & z & Ez).
  exists c, w, s0, z. split; [reflexivity|]. split; [exact Ez|].
  split; [exact H1|]. split; [apply contains_char_false; exact H2|].
  split; [apply (stripped_head c w H1)|].
  apply (stripped_last s0). rewrite <- Ez. exact H1.
Qed.

Lemma optional_re_fails_in (s rest bef : text) :
  plain_branch s = true ->
  forall u v, s = u ++ v -> v <> [] ->
    match_at optional_re (rev u ++ bef) (v ++ rest) = None.
Proof.
  intros Hs u v E Hv.
  destruct (plain_branch_facts s Hs) as (c & w & s0 & z & _ & Ez & _ & Hbar & _ & Hz).
  assert (s0 ++ [z] = u ++ v) as E3 by (rewrite <- Ez; exact E).
  destruct (suffix_split s0 u v z E3 Hv) as (v' & Ev' & _).
  unfold optional_re. rewrite match_at_eq.
  apply (ws_stop_fails "|" _ v rest _ _ z v'); [exact Ev' | exact Hz |].
  intros Hin. apply Hbar. rewrite E. apply in_or_app. right. exact Hin.
Qed.

Lemma mt_star_one_none {R} p c bef rest gs (k : mstate -> option R) :
  p c = true -> stops p rest ->
  k (MS (c :: bef) rest gs) = None -> k (MS bef (c :: rest) gs) = None ->
  mt (Star true p) (MS bef (c :: rest) gs) k = None.
Proof.
  intros Hc Hs H1 H2. rewrite mt_star_one by assumption.
  rewrite H1. exact H2.
Qed.

Lemma mt_lit_take_none {R} s bef rest gs (k : mstate -> option R) :
  k (MS (rev s ++ bef) rest gs) = None ->
  mt (Lit s) (MS bef (s ++ rest) gs) k = None.
Proof. intros H. rewrite mt_lit_take. exact H. Qed.

(** Nor at the separator before a branch that is no sentinel. *)
Lemma optional_re_fails_sep (B rest bef : text) :
  plain_branch B = true ->
  startswith "undefined" (B ++ rest) = false ->
  startswith "null" (B ++ rest) = false ->
  forall u v, (" | " : text) = u ++ v -> v <> [] ->
    match_at optional_re (rev u ++ bef) (v ++ B ++ rest) = None.
Proof.
  intros HB Hu Hn.
  destruct (plain_branch_facts B HB)
    as (c & w & s0 & z & Ec & _ & _ & Hbar & Hc & _).
  assert (stops isspace (B ++ rest)) as Hstop by (rewrite Ec; exact Hc).
  assert (forall b gs (k : mstate -> option rmatch),
             mt (ws ;; Grp 1 (Alt (Lit "undefined") (Lit "null")))
                (MS b (" " ++ B ++ rest) gs) k = None) as Hafter.
  { intros b gs k. rewrite mt_seq_eq. unfold ws.
    apply (mt_star_one_none isspace " "%char _ (B ++ rest));
      [reflexivity | exact Hstop | |].
    - apply sentinel_fails; assumption.
    - apply sentinel_fails; reflexivity. }
  assert (forall b, match_at optional_re b (" " ++ "|" ++ " " ++ B ++ rest) = None)
    as P1.
  { intros b. unfold optional_re. rewrite match_at_eq, mt_seq_eq.
    unfold ws at 1.
    apply (mt_star_one_none isspace " "%char _ ("|" ++ " " ++ B ++ rest));
      [reflexivity | reflexivity | |].
    - rewrite mt_seq_eq. apply mt_lit_take_none. apply Hafter.
    - rewrite mt_seq_eq. apply (mt_lit_fail "|" [] " "). discriminate. }
  assert (forall b, match_at optional_re b ("|" ++ " " ++ B ++ rest) = None)
    as P2.
  { intros b. unfold optional_re. rewrite match_at_eq, mt_seq_eq.
    unfold ws at 1. rewrite mt_star_stop by reflexivity.
    rewrite mt_seq_eq. apply mt_lit_take_none. apply Hafter. }
  assert (forall b, match_at optional_re b (" " ++ B ++ rest) = None) as P3.
  { intros b. unfold optional_re. rewrite match_at_eq, mt_seq_eq.
    unfold ws at 1.
    apply (mt_star_one_none isspace " "%char _ (B ++ rest));
      [reflexivity | exact Hstop | |].
    - rewrite mt_seq_eq, Ec. apply (mt_lit_fail "|" [] c).
      intros ->. apply Hbar. rewrite Ec. simpl; auto.
    - rewrite mt_seq_eq. apply (mt_lit_fail "|" [] " "). discriminate. }
  intros u v E Hv.
  destruct u as [|a1 [|a2 [|a3 u]]]; simpl in E; inversion E.
  - exact (P1 _).
  - exact (P2 _).
  - exact (P3 _).
  - destruct u; simpl in *; [subst v; contradiction | discriminate].
Qed.

(** The trailing [ | undefined] is one match. *)
Lemma optional_re_trailing (bef : text) :
  match_at optional_re bef (" | undefined" ++ [])
  = Some (RM " | undefined" [(1, "undefined" : text)]).
Proof.
  unfold optional_re. rewrite match_at_eq, mt_seq_eq. unfold ws.
  apply (mt_star_take isspace " " _ ("|" ++ " " ++ "undefined" ++ []));
    [reflexivity | reflexivity |].
  cbv beta. rewrite mt_seq_eq, (mt_lit_take "|"). cbv beta. rewrite mt_seq_eq.
  apply (mt_star_take isspace " " _ ("undefined" ++ []));
    [reflexivity | reflexivity |].
  cbv beta. apply sentinel_undefined.
  finish_match (" " ++ "|" ++ " " ++ "undefined") bef.
Qed.

Lemma delete_trailing (bef : text) :
  delete_from optional_re 0 bef (" | undefined" ++ []) = [].
Proof.
  change ((" | undefined" : text) ++ []) with (" "%char :: "| undefined" ++ []).
  rewrite (delete_match optional_re " " "| undefined" bef []
             (RM " | undefined" [(1, "undefined" : text)])).
  - reflexivity.
  - apply optional_re_trailing.
  - reflexivity.
Qed.

Lemma delete_one_branch (A : text) :
  plain_branch A = true ->
  re_delete optional_re (A ++ " | undefined") = A.
Proof.
  intros HA. unfold re_delete.
  rewrite <- (app_nil_r (" | undefined" : text)).
  rewrite delete_fail by (apply optional_re_fails_in; exact HA).
  rewrite delete_trailing. apply app_nil_r.
Qed.

Lemma delete_two_branches (A B : text) :
  plain_branch A = true -> plain_branch B = true ->
  startswith "undefined" B = false -> startswith "null" B = false ->
  re_delete optional_re (A ++ " | " ++ B ++ " | undefined")
  = A ++ " | " ++ B.
Proof.
  intros HA HB Hu Hn. unfold re_delete.
  rewrite <- (app_nil_r (" | undefined" : text)).
  rewrite delete_fail by (apply optional_re_fails_in; exact HA).
  rewrite (delete_fail optional_re " | ").
  2:{ apply optional_re_fails_sep; [exact HB| |].
      - rewrite startswith_app_sep; [exact Hu|].
        cbn. intros H. repeat (destruct H as [H|H]; [discriminate H|]).
        destruct H.
      - rewrite startswith_app_sep; [exact Hn|].
        cbn. intros H. repeat (destruct H as [H|H]; [discriminate H|]).
        destruct H. }
  rewrite delete_fail by (apply optional_re_fails_in; exact HB).
  rewrite delete_trailing, app_nil_r. reflexivity.
Qed.

(** *** Unions with a trailing [undefined] *)

Lemma strip_app_space (A : text) :
  A <> [] -> strip A = A -> strip (A ++ " ") = A.
Proof.
  intros Hne Hs.
  pose proof (stripped_rstrip _ Hs) as Hr.
  assert (lstrip (A ++ " ") = A ++ " ") as El.
  { unfold lstrip. apply dropwhile_stop. destruct A as [|c w]; [contradiction|].
    exact (stripped_head c w Hs). }
  unfold strip. rewrite El. unfold rstrip in *. rewrite rev_app_distr.
  exact Hr.
Qed.

Lemma strip_space_app (B : text) : strip (" " ++ B) = strip B.
Proof. reflexivity. Qed.

Lemma plain_branch_no_marker (A needle : text) :
  plain_branch A = true -> In "|"%char needle -> contains needle A = false.
Proof.
  intros HA Hin.
  destruct (plain_branch_facts A HA) as (_ & _ & _ & _ & _ & _ & _ & Hbar & _).
  apply (contains_not_In needle A "|" Hin Hbar).
Qed.

Lemma strip_optional_trailing (X : text) (opt : bool) :
  strip X = X -> X <> [] ->
  strip_optional (X ++ " | undefined") opt
  = (strip (re_delete optional_re (X ++ " | undefined")), true).
Proof.
  intros Hs Hne. destruct X as [|c w]; [contradiction|].
  pose proof (stripped_head c w Hs) as Hc.
  set (t := (c :: w) ++ " | undefined").
  assert (t = ((c :: w) ++ " | undefine") ++ ["d"%char]) as Et
      by (unfold t; rewrite <- app_assoc; reflexivity).
  assert (strip t = t) as Est.
  { apply strip_fixed; [exact Hc|]. rewrite Et, rev_app_distr. reflexivity. }
  assert (endswith "?" t = false) as Eq.
  { rewrite Et. apply (endswith_char_false []). discriminate. }
  unfold strip_optional. rewrite Est, Eq.
  unfold t at 1. rewrite contains_at_end. reflexivity.
Qed.

Lemma convert_or_undefined self (A : text) (opt : bool) :
  plain_branch A = true -> endswith "?" A = false ->
  convert_type self (A ++ " | undefined") opt
  = convert_type self A false ++ ".optional()".
Proof.
  intros HA Hq.
  destruct (plain_branch_facts A HA) as (c & w & _ & _ & Ec & _ & Hs & _).
  assert (A <> []) as Hne by (rewrite Ec; discriminate).
  assert (strip_optional (A ++ " | undefined") opt = (A, true)) as E1.
  { rewrite strip_optional_trailing by assumption.
    rewrite delete_one_branch, Hs by exact HA. reflexivity. }
  assert (strip_optional A false = (A, false)) as E2.
  { apply strip_optional_plain; try assumption;
      apply plain_branch_no_marker; try assumption; simpl; auto. }
  destruct (convert_rules_total self (fun t' => convert_type self t' false) A)
    as [z Hz].
  rewrite (convert_type_rules self _ _ _ _ _ E1 Hz).
  rewrite (convert_type_rules self _ _ _ _ _ E2 Hz). reflexivity.
Qed.

Lemma convert_union_or_undefined self (A B : text) (opt : bool) :
  plain_branch A = true -> plain_branch B = true ->
  startswith "undefined" B = false -> startswith "null" B = false ->
  which_rule self (A ++ " | " ++ B) = R_union ->
  convert_type self (A ++ " | " ++ B ++ " | undefined") opt
  = "z.union([" ++ convert_type self A false ++ ", "
      ++ convert_type self B false ++ "])" ++ ".optional()".
Proof.
  intros HA HB Hu Hn Hr.
  destruct (plain_branch_facts A HA) as (c & w & _ & _ & Ec & _ & HsA & HbA & _).
  destruct (plain_branch_facts B HB) as (d & r & s0 & z & Ed & Ez & HsB & HbB & _ & Hz).
  assert (A <> []) as HneA by (rewrite Ec; discriminate).
  assert (B <> []) as HneB by (rewrite Ed; discriminate).
  set (X := A ++ " | " ++ B).
  assert (strip X = X) as HsX.
  { apply strip_fixed.
    - unfold X. rewrite Ec. apply (stripped_head c w). rewrite <- Ec. exact HsA.
    - unfold X. rewrite Ez, !app_assoc, rev_app_distr. exact Hz. }
  assert (X <> []) as HneX by (unfold X; rewrite Ec; discriminate).
  assert (strip_optional (A ++ " | " ++ B ++ " | undefined") opt = (X, true))
    as E1.
  { replace (A ++ " | " ++ B ++ " | undefined") with (X ++ " | undefined")
      by (unfold X; rewrite <- !app_assoc; reflexivity).
    rewrite strip_optional_trailing by assumption.
    unfold X at 1. rewrite <- !app_assoc.
    rewrite delete_two_branches by assumption. fold X. rewrite HsX.
    reflexivity. }
  assert (map strip (split "|" (A ++ " | " ++ B)) = [A; B]) as Esp.
  { change (A ++ " | " ++ B) with (A ++ " " ++ "|"%char :: " " ++ B).
    rewrite app_assoc, split_app.
    - rewrite split_none.
      + cbn [map]. rewrite strip_app_space, strip_space_app, HsB by assumption.
        reflexivity.
      + intros [H|H]; [discriminate H | contradiction].
    - intros H. apply in_app_or in H. destruct H as [H|[H|[]]];
        [contradiction | discriminate H]. }
  rewrite (convert_type_rules self _ _ _ _
             ("z.union([" ++ join ", " (map (fun t' => convert_type self t' false)
                                            [A; B]) ++ "])") E1).
  - cbn [map join add_optional]. rewrite <- !app_assoc. reflexivity.
  - unfold X. rewrite (rules_union _ _ _ Hr), mapM_Some, Esp. reflexivity.
Qed.

(** The wrapper is appended once, after the rule chain, whenever a
    signal fired. *)
Lemma optional_once self (t : text) (opt : bool) :
  exists zod,
    convert_rules self (fun t' => Some (convert_type self t' false))
                  (fst (strip_optional t opt)) = Some zod
    /\ convert_type self t opt
       = if snd (strip_optional t opt) then zod ++ ".optional()" else zod.
Proof.
  destruct (convert_rules_total self (fun t' => convert_type self t' false)
              (fst (strip_optional t opt))) as [z Hz].
  exists z. split; [exact Hz|].
  apply (convert_type_rules self t opt _ _ _ (surjective_pairing _) Hz).
Qed.

Lemma optional_signals (t : text) (opt : bool) :
  snd (strip_optional t opt)
  = opt || endswith "?" (strip t)
    || contains " | undefined"
         (if endswith "?" (strip t) then strip (slice 0 1 (strip t))
          else strip t)
    || contains " | null"
         (if endswith "?" (strip t) then strip (slice 0 1 (strip t))
          else strip t).
Proof.
  unfold strip_optional.
  destruct (endswith "?" (strip t)); destruct opt;
    destruct (contains " | undefined" _); destruct (contains " | null" _);
    reflexivity.
Qed.

End ParseFacts.

(** * The properties *)

Module Claims.
Import Py Re Zod Props PyFacts StripFacts ReFacts MatchFacts ZodFacts Rules ParseFacts.



(** C2 (as amended).  When the union rule fires, the expression is split
    at every bar character, nested or not: the pieces hold no bar and
    joining them with bars gives the expression back.  Each piece is
    stripped and converted on its own, and the results are wrapped in
    [z.union([...])], separated by a comma and a space. *)
Theorem C2_union_splits_at_every_bar self ts opt :
  which_rule self (fst (strip_optional ts opt)) = R_union ->
  convert_type self ts opt
  = add_optional (snd (strip_optional ts opt))
      ("z.union(["
         ++ join ", " (map (fun b => convert_type self b false)
                           (map strip (split "|" (fst (strip_optional ts opt)))))
         ++ "])")
  /\ join "|" (split "|" (fst (strip_optional ts opt)))
     = fst (strip_optional ts opt)
  /\ Forall (fun b => ~ In "|"%char b)
            (split "|" (fst (strip_optional ts opt))).
Proof.
  intros H. split; [|split].
  - apply (convert_type_rules self ts opt _ _ _ (surjective_pairing _)).
    rewrite (rules_union _ _ _ H), mapM_Some. reflexivity.
  - apply (join_split "|").
  - apply split_no_sep.
Qed.

Lemma C2_union_splits_at_every_bar_witness :
  convert_type init "string | number | Date" false
  = "z.union([z.string(), z.number(), z.date()])".
Proof.
  apply (proj1 (C2_union_splits_at_every_bar init "string | number | Date"
                  false eq_refl)).
Defined.

(** C2, counterexample.  In [Map<string | number, boolean> | Date] only the
    last bar is at top level, so the claim asks for a union of two
    branches; the code splits at the bar inside the angle brackets too
    and emits three. *)
Lemma C2_counterexample :
  map strip (spec_split_top_level 0 "Map<string | number, boolean> | Date")
  = ["Map<string | number, boolean>" : text; "Date" : text]
  /\ map strip (split "|" "Map<string | number, boolean> | Date")
     = ["Map<string" : text; "number, boolean>" : text; "Date" : text]
  /\ convert_type init "Map<string | number, boolean> | Date" false
     <> "z.union(["
          ++ join ", "
               (map (fun b => convert_type init b false)
                  (map strip
                     (spec_split_top_level 0 "Map<string | number, boolean> | Date")))
          ++ "])".
Proof.
  split; [reflexivity|]. split; [reflexivity|]. vm_compute. discriminate.
Qed.

(** C3 (as amended).  For branches [A] and [B] that are not empty, have
    no space at their ends and hold no bar, where [B] begins with
    neither [undefined] nor [null] and [A | B] reaches the union rule,
    [A | B | undefined] converts to the union of the conversions of [A]
    and [B] with one [.optional()] after it.  For such an [A] that does
    not end with a question mark, [A | undefined] converts to the
    conversion of [A] with one [.optional()] after it, with no union
    around it.  In every case the result is the output of the rule chain
    followed by [.optional()] once when the caller's flag, a trailing
    question mark or one of the two markers was present, and by nothing
    otherwise. *)
Theorem C3_optional_union :
  (forall self A B opt,
      plain_branch A = true -> plain_branch B = true ->
      startswith "undefined" B = false -> startswith "null" B = false ->
      which_rule self (A ++ " | " ++ B) = R_union ->
      convert_type self (A ++ " | " ++ B ++ " | undefined") opt
      = "z.union([" ++ convert_type self A false ++ ", "
          ++ convert_type self B false ++ "])" ++ ".optional()")
  /\ (forall self A opt,
         plain_branch A = true -> endswith "?" A = false ->
         convert_type self (A ++ " | undefined") opt
         = convert_type self A false ++ ".optional()")
  /\ (forall self t opt,
         exists zod,
           convert_rules self (fun t' => Some (convert_type self t' false))
                         (fst (strip_optional t opt)) = Some zod
           /\ convert_type self t opt
              = if snd (strip_optional t opt) then zod ++ ".optional()"
                else zod)
  /\ (forall t opt,
         snd (strip_optional t opt)
         = opt || endswith "?" (strip t)
           || contains " | undefined"
                (if endswith "?" (strip t) then strip (slice 0 1 (strip t))
                 else strip t)
           || contains " | null"
                (if endswith "?" (strip t) then strip (slice 0 1 (strip t))
                 else strip t)).
Proof.
  split; [|split; [|split]].
  - apply convert_union_or_undefined.
  - apply convert_or_undefined.
  - apply optional_once.
  - apply optional_signals.
Qed.

Lemma C3_optional_union_witness :
  convert_type init ("string" ++ " | " ++ "number" ++ " | undefined") false
  = "z.union([" ++ convert_type init "string" false ++ ", "
      ++ convert_type init "number" false ++ "])" ++ ".optional()"
  /\ convert_type init ("Date" ++ " | undefined") false
     = convert_type init "Date" false ++ ".optional()".
Proof.
  split.
  - apply (proj1 C3_optional_union init "string" "number" false); reflexivity.
  - apply (proj1 (proj2 C3_optional_union) init "Date" false); reflexivity.
Defined.

(** C3, counterexample.  With [A = string] and [B = number[]] the array
    suffix rule takes the whole of [A | B] before the union rule is
    reached: the result is an optional array of a union, not the optional
    union of the two conversions. *)
Lemma C3_counterexample :
  convert_type init ("string" ++ " | " ++ "number[]" ++ " | undefined") false
  = "z.array(z.union([z.string(), z.number()])).optional()"
  /\ convert_type init ("string" ++ " | " ++ "number[]" ++ " | undefined") false
     <> "z.union([" ++ convert_type init "string" false ++ ", "
          ++ convert_type init "number[]" false ++ "])" ++ ".optional()".
Proof.
  split; [reflexivity|]. vm_compute. discriminate.
Qed.

(** C4 (as amended).  For every [T] that holds neither [ | undefined] nor
    [ | null], [T[]] and [Array<T>] convert to the same validator, the
    array combinator around the conversion of [T]. *)
Theorem C4_array_forms_agree self T opt :
  contains " | undefined" T = false -> contains " | null" T = false ->
  convert_type self (T ++ "[]") opt
  = add_optional opt ("z.array(" ++ convert_type self T false ++ ")")
  /\ convert_type self ("Array<" ++ T ++ ">") opt
     = add_optional opt ("z.array(" ++ convert_type self T false ++ ")").
Proof.
  intros Hu Hn. split.
  - apply convert_array_suffix; assumption.
  - apply convert_array_generic; assumption.
Qed.

Lemma C4_array_forms_agree_witness :
  convert_type init ("string | number" ++ "[]") false
  = "z.array(" ++ convert_type init "string | number" false ++ ")"
  /\ convert_type init ("Array<" ++ "string | number" ++ ">") false
     = "z.array(" ++ convert_type init "string | number" false ++ ")".
Proof.
  apply (C4_array_forms_agree init "string | number" false); reflexivity.
Defined.

(** C4, counterexample.  With [T = string | undefined] the optionality
    marker inside the brackets is taken for one of the whole expression:
    [Array<T>] becomes an optional array of strings, not an array around
    the conversion of [T]. *)
Lemma C4_counterexample :
  convert_type init "string | undefined" false = "z.string().optional()"
  /\ convert_type init ("Array<" ++ "string | undefined" ++ ">") false
     = "z.array(z.string()).optional()"
  /\ convert_type init ("Array<" ++ "string | undefined" ++ ">") false
     <> "z.array(" ++ convert_type init "string | undefined" false ++ ")".
Proof.
  split; [reflexivity|]. split; [reflexivity|]. vm_compute. discriminate.
Qed.

(** C5 (as amended).  For [Record<K, V>] where [K] holds no comma and [V]
    no closing angle bracket (both not empty, on one line, without
    spaces at their ends) and the expression holds no optionality
    marker, [convert_type] emits the map validator around the conversion
    of [V]; the text of [K] does not appear in the result.  When the
    [Record] rule fires on an expression without a comma, the result is
    [z.record(z.any())]. *)
Theorem C5_record_value_only :
  (forall self K V opt,
      plain_arg "," K = true -> plain_arg ">" V = true ->
      contains " | undefined" ("Record<" ++ K ++ ", " ++ V ++ ">") = false ->
      contains " | null" ("Record<" ++ K ++ ", " ++ V ++ ">") = false ->
      convert_type self ("Record<" ++ K ++ ", " ++ V ++ ">") opt
      = add_optional opt ("z.record(" ++ convert_type self V false ++ ")"))
  /\ (forall self t o,
         which_rule self (fst (strip_optional t o)) = R_record ->
         contains "," (fst (strip_optional t o)) = false ->
         convert_type self t o
         = add_optional (snd (strip_optional t o)) "z.record(z.any())").
Proof.
  split.
  - intros self K V opt HK HV Hu Hn. apply convert_record; assumption.
  - intros self t o Hr Hc.
    apply (convert_type_rules self t o _ _ _ (surjective_pairing _)).
    rewrite (rules_record _ _ _ Hr), record_needs_comma by exact Hc.
    reflexivity.
Qed.

Lemma C5_record_value_only_witness :
  convert_type init ("Record<" ++ "string" ++ ", " ++ "number[]" ++ ">") false
  = "z.record(" ++ convert_type init "number[]" false ++ ")"
  /\ convert_type init "Record<>" false = "z.record(z.any())".
Proof.
  split.
  - apply (proj1 C5_record_value_only init "string" "number[]" false);
      reflexivity.
  - apply (proj2 C5_record_value_only init "Record<>" false); reflexivity.
Defined.

(** C5, counterexample.  The value type is read up to the first closing
    angle bracket and the key type up to the first comma: with a generic
    value type the validator is not the one of [V], and with a comma in
    the key type the result changes with the key. *)
Lemma C5_counterexample :
  convert_type init ("Record<" ++ "string" ++ ", " ++ "Array<number>" ++ ">")
               false
  = "z.record(z.any() /* TODO: define schema for Array<number */)"
  /\ convert_type init ("Record<" ++ "string" ++ ", " ++ "Array<number>" ++ ">")
                  false
     <> "z.record(" ++ convert_type init "Array<number>" false ++ ")"
  /\ convert_type init ("Record<" ++ "Map<a, b>" ++ ", " ++ "number" ++ ">")
                  false
     <> convert_type init ("Record<" ++ "string" ++ ", " ++ "number" ++ ">")
                     false.
Proof.
  split; [reflexivity|]. split; vm_compute; discriminate.
Qed.

(** C6 (as amended).  In the registries that [convert_file] fills, an
    expression equal to a declared name that is not one of the primitive
    keywords of [TYPE_MAP] converts to that name followed by [Schema];
    the declaration's text is not consulted. *)
Theorem C6_registry_reference self src t opt :
  registry_names_ok self ->
  declared (extract self src) t = true ->
  dict_get t TYPE_MAP = None ->
  convert_type (extract self src) t opt = add_optional opt (t ++ "Schema").
Proof.
  intros Hok Hd Hp.
  assert (forallb isword t = true) as Hw.
  { eapply declared_word; [apply extract_names; exact Hok | exact Hd]. }
  apply (convert_type_rules _ _ _ _ _ _ (word_strip_optional t opt Hw)).
  apply rules_reference. rewrite word_which_rule by assumption.
  rewrite Hd. reflexivity.
Qed.

Lemma C6_registry_reference_witness :
  convert_type
    (extract init "interface User { name: string } interface Post { by: User }")
    "User" false
  = "UserSchema".
Proof.
  apply (C6_registry_reference init
           "interface User { name: string } interface Post { by: User }"
           "User" false).
  - repeat constructor.
  - reflexivity.
  - reflexivity.
Defined.

(** C6, counterexample.  A declared shape named [Date] is in the
    registry, yet the expression [Date] is taken by the primitive table
    first and converts to [z.date()], not to [DateSchema]. *)
Lemma C6_counterexample :
  declared (extract init "interface Date { iso: string }") "Date" = true
  /\ convert_type (extract init "interface Date { iso: string }") "Date" false
     = "z.date()"
  /\ convert_type (extract init "interface Date { iso: string }") "Date" false
     <> "Date" ++ "Schema".
Proof.
  split; [reflexivity|]. split; [reflexivity|]. vm_compute. discriminate.
Qed.








(** C10.  For an enum whose member is written with an unquoted
    initializer, [name = init], [parse_enum] returns two values: the
    member's identifier and, as a value of its own, the initializer
    token.  The emitted enumeration lists both, so it holds a value that
    is neither a member name nor a quoted value. *)
Theorem C10_unquoted_initializer N name init :
  is_ident N = true -> is_ident name = true -> is_ident init = true ->
  parse_enum ("enum " ++ N ++ " { " ++ name ++ " = " ++ init ++ " }")
  = Ok (N, [name; init])
  /\ enum_to_zod N [name; init]
     = "export const " ++ N ++ "Schema = z.enum(["
         ++ [dquote] ++ name ++ [dquote] ++ ", "
         ++ [dquote] ++ init ++ [dquote] ++ "]);"
         ++ nl ++ nl ++ type_binding N.
Proof.
  intros HN Hn Hi. split.
  - apply parse_enum_unquoted; assumption.
  - rewrite enum_block_shape. cbn [map join]. rewrite <- !app_assoc.
    reflexivity.
Qed.

Lemma C10_unquoted_initializer_witness :
  parse_enum "enum E { Status = 1 }" = Ok ("E" : text, ["Status" : text; "1" : text])
  /\ enum_to_zod "E" ["Status" : text; "1" : text]
     = "export const " ++ "E" ++ "Schema = z.enum(["
         ++ [dquote] ++ "Status" ++ [dquote] ++ ", "
         ++ [dquote] ++ "1" ++ [dquote] ++ "]);"
         ++ nl ++ nl ++ type_binding "E".
Proof.
  apply (C10_unquoted_initializer "E" "Status" "1"); reflexivity.
Defined.

End Claims.

(** ** Further facts *)

Module MoreFacts.
Import Py Re Zod Cli Props MoreProps PyFacts StripFacts ReFacts MatchFacts
       ZodFacts Rules ParseFacts.

(** *** Blanks, the optional mark and the optional flag *)

Lemma convert_primitive self (t : text) (opt : bool) (z : text) :
  dict_get (strip t) TYPE_MAP = Some z ->
  convert_type self t opt = add_optional opt z.
Proof.
  intros H. rewrite <- convert_type_strip.
  pose proof (TYPE_MAP_word _ _ H) as Hw.
  apply (convert_type_rules _ _ _ _ _ _ (word_strip_optional (strip t) opt Hw)).
  unfold convert_rules. rewrite H. reflexivity.
Qed.

Lemma dropwhile_spaces_app p (l s : text) :
  forallb p l = true -> dropwhile p (l ++ s) = dropwhile p s.
Proof.
  induction l as [|c l IH]; cbn; [reflexivity|].
  intros H. apply andb_true_iff in H. destruct H as [Hc Hl].
  rewrite Hc. apply IH. exact Hl.
Qed.

Lemma forallb_rev {A} (p : A -> bool) (l : list A) :
  forallb p (rev l) = forallb p l.
Proof.
  induction l as [|c l IH]; cbn; [reflexivity|].
  rewrite forallb_app, IH. cbn. rewrite andb_true_r. apply andb_comm.
Qed.

Lemma rstrip_app_spaces (s r : text) :
  forallb isspace r = true -> rstrip (s ++ r) = rstrip s.
Proof.
  intros H. unfold rstrip. rewrite rev_app_distr.
  rewrite dropwhile_spaces_app; [reflexivity|].
  rewrite forallb_rev. exact H.
Qed.

Lemma lstrip_app_spaces (t r : text) :
  forallb isspace r = true ->
  lstrip (t ++ r) = if forallb isspace t then [] else lstrip t ++ r.
Proof.
  intros H. unfold lstrip. induction t as [|c t IH]; cbn.
  - apply dropwhile_all. exact H.
  - destruct (isspace c); cbn; [exact IH | reflexivity].
Qed.

Lemma strip_pad (l t r : text) :
  forallb isspace l = true -> forallb isspace r = true ->
  strip (l ++ t ++ r) = strip t.
Proof.
  intros Hl Hr. unfold strip.
  assert (lstrip (l ++ t ++ r) = lstrip (t ++ r)) as E
      by (apply dropwhile_spaces_app; exact Hl).
  rewrite E, lstrip_app_spaces by exact Hr.
  destruct (forallb isspace t) eqn:Ht.
  - unfold lstrip. rewrite (dropwhile_all _ _ Ht). reflexivity.
  - apply rstrip_app_spaces. exact Hr.
Qed.

Lemma convert_type_pad self (l t r : text) (opt : bool) :
  forallb isspace l = true -> forallb isspace r = true ->
  convert_type self (l ++ t ++ r) opt = convert_type self t opt.
Proof.
  intros Hl Hr. rewrite <- (convert_type_strip self (l ++ t ++ r)).
  rewrite strip_pad by assumption. apply convert_type_strip.
Qed.

Lemma convert_type_head self (t1 t2 : text) (o1 o2 : bool) :
  strip_optional t1 o1 = strip_optional t2 o2 ->
  convert_type self t1 o1 = convert_type self t2 o2.
Proof.
  intros H. pose proof (convert_type_step self t1 o1) as E1.
  pose proof (convert_type_step self t2 o2) as E2.
  rewrite H in E1. rewrite <- E2 in E1. injection E1 as E1. exact E1.
Qed.

Lemma strip_optional_mark (t : text) (opt : bool) :
  endswith "?" (strip t) = false ->
  strip_optional (t ++ "?") opt = strip_optional t true.
Proof.
  intros H. unfold strip_optional.
  assert (strip (t ++ "?") = lstrip t ++ "?") as E
      by (apply strip_app_last; reflexivity).
  rewrite E, H.
  assert (endswith "?" (lstrip t ++ "?") = true) as E1 by apply endswith_app.
  rewrite E1.
  assert (slice 0 1 (lstrip t ++ "?") = lstrip t) as E2
      by exact (slice_0_app (lstrip t) "?").
  rewrite E2, strip_lstrip. reflexivity.
Qed.

Lemma strip_optional_flag (t : text) :
  fst (strip_optional t true) = fst (strip_optional t false)
  /\ snd (strip_optional t true) = true.
Proof.
  unfold strip_optional.
  destruct (endswith "?" (strip t));
    match goal with
    | |- context [if ?c then _ else _] => destruct c
    end; split; reflexivity.
Qed.

Lemma convert_type_flag self (t : text) :
  convert_type self t true
  = if snd (strip_optional t false) then convert_type self t false
    else convert_type self t false ++ ".optional()".
Proof.
  pose proof (convert_type_step self t true) as E1.
  pose proof (convert_type_step self t false) as E2.
  destruct (strip_optional_flag t) as [Hf Hs].
  rewrite Hf, Hs in E1.
  destruct (convert_rules self _ (fst (strip_optional t false))) as [zod|];
    [|discriminate E1].
  injection E1 as E1. injection E2 as E2. rewrite E1, E2.
  destruct (snd (strip_optional t false)); reflexivity.
Qed.

(** *** Literals, and the registries as sets of names *)

Lemma startswith_contains (needle s : text) :
  startswith needle s = true -> contains needle s = true.
Proof. intros H. destruct s; cbn; rewrite H; reflexivity. Qed.

Lemma strip_prefix_longer (a b s : text) :
  strip_prefix (a ++ b) s <> None -> strip_prefix a s <> None.
Proof.
  revert s. induction a as [|x a IH]; intros s; cbn; [discriminate|].
  destruct s as [|y s]; [congruence|].
  destruct (Ascii.eqb x y); [apply IH | congruence].
Qed.

Lemma contains_longer (a b s : text) :
  contains a s = false -> contains (a ++ b) s = false.
Proof.
  induction s as [|c s IH]; cbn.
  - intros H. apply orb_false_iff in H. destruct H as [H _].
    rewrite orb_false_r in *. unfold startswith in *.
    destruct (strip_prefix (a ++ b) []) eqn:E; [|reflexivity].
    assert (strip_prefix a [] <> None) as N
        by (apply (strip_prefix_longer a b); congruence).
    destruct (strip_prefix a []); [discriminate H | congruence].
  - intros H. apply orb_false_iff in H. destruct H as [H1 H2].
    rewrite (IH H2), orb_false_r. unfold startswith in *.
    destruct (strip_prefix (a ++ b) (c :: s)) eqn:E; [|reflexivity].
    assert (strip_prefix a (c :: s) <> None) as N
        by (apply (strip_prefix_longer a b); congruence).
    destruct (strip_prefix a (c :: s)); [discriminate H1 | congruence].
Qed.

Lemma convert_literal self (q q' : ascii) (body : text) (opt : bool) :
  quote_char q = true -> quote_char q' = true ->
  contains " | " body = false ->
  convert_type self (q :: body ++ [q']) opt
  = add_optional opt ("z.literal(" ++ (q :: body ++ [q']) ++ ")").
Proof.
  intros Hq Hq' Hb.
  set (s := q :: body ++ [q']).
  assert (isspace q = false) as Sq.
  { destruct (isspace q) eqn:E; [|reflexivity].
    rewrite (quote_not_space _ E) in Hq. discriminate. }
  assert (isspace q' = false) as Sq'.
  { destruct (isspace q') eqn:E; [|reflexivity].
    rewrite (quote_not_space _ E) in Hq'. discriminate. }
  assert (isword q = false) as Wq.
  { destruct (isword q) eqn:E; [|reflexivity].
    rewrite (word_not_quote _ E) in Hq. discriminate. }
  assert (forall c, quote_char c = true -> ~ In c (" | " : text)) as Qn.
  { intros c Hc [E|[E|[E|[]]]]; subst c; discriminate Hc. }
  assert (contains " | " s = false) as Hs.
  { unfold s.
    assert (contains " | " ([q] ++ body ++ [q']) = contains " | " (body ++ [q']))
      as E1.
    { apply contains_app_l; [discriminate|].
      intros c [E|[]]. subst c. apply Qn. exact Hq. }
    assert (contains " | " (body ++ [q']) = contains " | " body) as E2.
    { apply contains_app_r; [discriminate|].
      intros c [E|[]]. subst c. apply Qn. exact Hq'. }
    change (q :: body ++ [q']) with ([q] ++ body ++ [q']).
    rewrite E1, E2. exact Hb. }
  assert (strip s = s) as Hst.
  { apply strip_fixed; [exact Sq|].
    unfold s. change (q :: body ++ [q']) with ((q :: body) ++ [q']).
    rewrite rev_app_distr. exact Sq'. }
  assert (forall p c, quote_char c = false -> endswith (p ++ [c]) s = false)
    as He.
  { intros p c Hc. unfold s.
    change (q :: body ++ [q']) with ((q :: body) ++ [q']).
    apply endswith_char_false. intros ->. congruence. }
  assert (forall p c, quote_char c = false -> startswith (c :: p) s = false)
    as Hh.
  { intros p c Hc. unfold s. apply startswith_head. intros ->. congruence. }
  assert (strip_optional s opt = (s, opt)) as Ho.
  { apply strip_optional_plain.
    - exact Hst.
    - exact (He [] "?"%char eq_refl).
    - exact (contains_longer " | " "undefined" s Hs).
    - exact (contains_longer " | " "null" s Hs). }
  apply (convert_type_rules _ _ _ _ _ _ Ho).
  apply rules_literal. unfold which_rule.
  assert (dict_get s TYPE_MAP = None) as Hp.
  { apply TYPE_MAP_none. unfold s. cbn. rewrite Wq. reflexivity. }
  rewrite Hp.
  assert (endswith "[]" s = false) as H1 by exact (He "[" "]"%char eq_refl).
  assert (startswith "Array<" s = false) as H2
      by exact (Hh "rray<" "A"%char eq_refl).
  assert (startswith "Record<" s = false) as H3
      by exact (Hh "ecord<" "R"%char eq_refl).
  rewrite H1, H2, H3, Hs. cbn [andb].
  assert (startswith [squote] s || startswith [dquote] s = true) as H4.
  { unfold s. unfold quote_char in Hq. apply orb_true_iff in Hq.
    destruct Hq as [E|E]; apply Ascii.eqb_eq in E; rewrite E; reflexivity. }
  rewrite H4. reflexivity.
Qed.

(** Registries consulted through membership only *)
Lemma convert_rules_declared self1 self2 rec (t : text) :
  declared self1 t = declared self2 t ->
  convert_rules self1 rec t = convert_rules self2 rec t.
Proof.
  unfold declared, convert_rules. intros H. rewrite H. reflexivity.
Qed.

Lemma convert_type_fuel_declared self1 self2 :
  (forall t, declared self1 t = declared self2 t) ->
  forall fuel t opt,
    convert_type_fuel fuel self1 t opt = convert_type_fuel fuel self2 t opt.
Proof.
  intros H. induction fuel as [|fuel IH]; intros t opt; [reflexivity|].
  cbn [convert_type_fuel].
  destruct (strip_optional t opt) as [t' o'].
  rewrite (convert_rules_declared self1 self2 _ t' (H t')).
  rewrite (convert_rules_ext self2 _ (fun t0 => convert_type_fuel fuel self2 t0 false));
    [reflexivity|].
  intros t0 _. apply IH.
Qed.

Lemma convert_type_declared self1 self2 (t : text) (opt : bool) :
  (forall t', declared self1 t' = declared self2 t') ->
  convert_type self1 t opt = convert_type self2 t opt.
Proof.
  intros H. unfold convert_type.
  rewrite (convert_type_fuel_declared self1 self2 H). reflexivity.
Qed.

(** ** Registries *)

Lemma dict_get_set_same {V} k (v : V) (d : dict V) :
  dict_get k (dict_set k v d) = Some v.
Proof.
  induction d as [|[k' v'] d IH]; cbn.
  - rewrite text_eqb_refl. reflexivity.
  - destruct (text_eqb k k') eqn:E; cbn; rewrite E; [reflexivity | exact IH].
Qed.

Lemma text_eqb_trans_false (a b c : text) :
  text_eqb a b = true -> text_eqb c a = false -> text_eqb c b = false.
Proof.
  intros H1 H2. apply text_eqb_eq in H1. subst b. exact H2.
Qed.

Lemma dict_get_set_other {V} k k' (v : V) (d : dict V) :
  k' <> k -> dict_get k' (dict_set k v d) = dict_get k' d.
Proof.
  intros N. induction d as [|[k0 v0] d IH]; cbn.
  - apply text_eqb_neq in N. rewrite N. reflexivity.
  - destruct (text_eqb k k0) eqn:E; cbn.
    + apply text_eqb_eq in E. subst k0. apply text_eqb_neq in N.
      rewrite N. reflexivity.
    + rewrite IH. reflexivity.
Qed.

Lemma dict_set_keys_app {V} k (v : V) (d : dict V) :
  exists l, keys (dict_set k v d) = keys d ++ l.
Proof.
  rewrite dict_set_keys. destruct (dict_mem k d).
  - exists []. symmetry. apply app_nil_r.
  - exists [k]. reflexivity.
Qed.

Lemma grows_refl self : grows self self.
Proof.
  repeat split; exists []; symmetry; apply app_nil_r.
Qed.

Lemma grows_trans a b c : grows a b -> grows b c -> grows a c.
Proof.
  intros (H1 & H2 & H3) (G1 & G2 & G3).
  destruct H1 as [l1 H1], H2 as [l2 H2], H3 as [l3 H3].
  destruct G1 as [m1 G1], G2 as [m2 G2], G3 as [m3 G3].
  repeat split.
  - exists (l1 ++ m1). rewrite G1, H1. symmetry. apply app_assoc.
  - exists (l2 ++ m2). rewrite G2, H2. symmetry. apply app_assoc.
  - exists (l3 ++ m3). rewrite G3, H3. symmetry. apply app_assoc.
Qed.

Lemma add_interface_grows self m : grows self (add_interface self m).
Proof.
  unfold add_interface. destruct (parse_interface (m_text m)) as [[n f]|e];
    [|apply grows_refl].
  repeat split; cbn [interfaces types enums];
    try (exists []; symmetry; apply app_nil_r).
  apply dict_set_keys_app.
Qed.

Lemma add_type_grows self m : grows self (add_type self m).
Proof.
  unfold add_type. destruct (parse_type_alias (m_text m)) as [[n f]|e];
    [|apply grows_refl].
  repeat split; cbn [interfaces types enums];
    try (exists []; symmetry; apply app_nil_r).
  apply dict_set_keys_app.
Qed.

Lemma add_enum_grows self m : grows self (add_enum self m).
Proof.
  unfold add_enum. destruct (parse_enum (m_text m)) as [[n f]|e];
    [|apply grows_refl].
  repeat split; cbn [interfaces types enums];
    try (exists []; symmetry; apply app_nil_r).
  apply dict_set_keys_app.
Qed.

Lemma fold_left_grows (f : Converter -> rmatch -> Converter) (ms : list rmatch) :
  (forall s m, grows s (f s m)) -> forall self, grows self (fold_left f ms self).
Proof.
  intros H. induction ms as [|m ms IH]; intros self; cbn.
  - apply grows_refl.
  - eapply grows_trans; [apply H | apply IH].
Qed.

Lemma extract_grows self src : grows self (extract self src).
Proof.
  unfold extract.
  eapply grows_trans; [|apply fold_left_grows, add_enum_grows].
  eapply grows_trans; [|apply fold_left_grows, add_type_grows].
  apply fold_left_grows, add_interface_grows.
Qed.

Lemma dict_mem_keys {V} k (d : dict V) : dict_mem k d = true <-> In k (keys d).
Proof.
  unfold dict_mem. induction d as [|[k' v'] d IH]; cbn.
  - split; [discriminate | intros []].
  - destruct (text_eqb k k') eqn:E.
    + apply text_eqb_eq in E. subst k'. split; [left; reflexivity | reflexivity].
    + apply text_eqb_neq in E. rewrite IH. split.
      * intros H. right. exact H.
      * intros [H|H]; [congruence | exact H].
Qed.

Lemma grows_declared self self' (t : text) :
  grows self self' -> declared self t = true -> declared self' t = true.
Proof.
  intros (H1 & H2 & H3). destruct H1 as [l1 H1], H2 as [l2 H2], H3 as [l3 H3].
  unfold declared. intros H.
  apply orb_true_iff in H. destruct H as [H|H];
    [apply orb_true_iff in H; destruct H as [H|H]|];
    apply dict_mem_keys in H.
  - assert (dict_mem t (interfaces self') = true) as E
        by (apply dict_mem_keys; rewrite H1; apply in_or_app; left; exact H).
    rewrite E. reflexivity.
  - assert (dict_mem t (types self') = true) as E
        by (apply dict_mem_keys; rewrite H2; apply in_or_app; left; exact H).
    rewrite E. apply orb_true_iff. left. apply orb_true_r.
  - assert (dict_mem t (enums self') = true) as E
        by (apply dict_mem_keys; rewrite H3; apply in_or_app; left; exact H).
    rewrite E. apply orb_true_r.
Qed.

(** ** The scan finds only matches *)

Lemma scan_sound (r : regex) (m : rmatch) :
  forall rest skip bef, In m (scan r skip bef rest) ->
  exists u v, rest = u ++ v /\ match_at r (rev u ++ bef) v = Some m.
Proof.
  induction rest as [|c rest IH]; intros skip bef H.
  - destruct skip as [|n]; cbn in H; [|destruct H].
    destruct (match_at r bef []) as [m'|] eqn:E; [|destruct H].
    destruct H as [H|[]]. subst m'. exists [], []. split; [reflexivity|exact E].
  - assert (forall n, In m (scan r n (c :: bef) rest) ->
              exists u v, c :: rest = u ++ v
                          /\ match_at r (rev u ++ bef) v = Some m) as Step.
    { intros n Hn. destruct (IH _ _ Hn) as (u & v & E & M).
      exists (c :: u), v. split; [cbn; rewrite E; reflexivity|].
      cbn [rev]. rewrite <- app_assoc. exact M. }
    destruct skip as [|n]; cbn in H; [|exact (Step _ H)].
    destruct (match_at r bef (c :: rest)) as [m'|] eqn:E.
    + destruct H as [H|H]; [|exact (Step _ H)].
      subst m'. exists [], (c :: rest). split; [reflexivity|exact E].
    + exact (Step _ H).
Qed.

Lemma finditer_sound (r : regex) (s : text) (m : rmatch) :
  In m (finditer r s) ->
  exists u v, s = u ++ m_text m ++ v /\ lang r (m_text m).
Proof.
  intros H. destruct (scan_sound _ _ _ _ _ H) as (u & v & E & M).
  destruct (match_at_sound _ _ _ _ M) as (rest' & E' & L & _).
  exists u, rest'. split; [rewrite E, E'; reflexivity | exact L].
Qed.

Lemma lang_needs (P : ascii -> Prop) (r : regex) (w : text) :
  lang r w -> needs P r -> Exists P w.
Proof.
  induction 1; cbn; intros N.
  - exact N.
  - constructor. apply N. assumption.
  - destruct N.
  - apply Exists_app. destruct N as [N|N]; [left|right]; auto.
  - apply IHlang, N.
  - apply IHlang, N.
  - destruct N.
  - destruct N.
  - apply IHlang, N.
  - destruct N.
  - destruct N.
  - destruct N.
Qed.

Lemma finditer_needs (P : ascii -> Prop) (r : regex) (s : text) :
  needs P r -> ~ Exists P s -> finditer r s = [].
Proof.
  intros N H. destruct (finditer r s) as [|m l] eqn:E; [reflexivity|].
  exfalso. apply H.
  destruct (finditer_sound r s m) as (u & v & Es & L).
  { rewrite E. left. reflexivity. }
  rewrite Es. apply Exists_app. right. apply Exists_app. left.
  exact (lang_needs P r _ L N).
Qed.

Lemma Exists_eq_In (c : ascii) (s : text) : Exists (eq c) s <-> In c s.
Proof.
  rewrite Exists_exists. split.
  - intros (x & H & E). subst x. exact H.
  - intros H. exists c. split; [exact H | reflexivity].
Qed.

Lemma extract_no_declaration self (src : text) :
  ~ In "{"%char src -> ~ In "="%char src -> extract self src = self.
Proof.
  intros Hb He. unfold extract.
  rewrite (finditer_needs (eq "{"%char) interface_pattern src).
  - rewrite (finditer_needs (eq "="%char) type_pattern src).
    + rewrite (finditer_needs (eq "{"%char) enum_pattern src).
      * reflexivity.
      * cbn. do 5 right. left. constructor. reflexivity.
      * rewrite Exists_eq_In. exact Hb.
    + cbn. do 5 right. left. constructor. reflexivity.
    + rewrite Exists_eq_In. exact He.
  - cbn. do 5 right. left. constructor. reflexivity.
  - rewrite Exists_eq_In. exact Hb.
Qed.

Lemma convert_file_no_declaration (src : text) :
  ~ In "{"%char src -> ~ In "="%char src ->
  convert_file init src
  = Ok (init, "import { z } from 'zod';" ++ nl ++ nl
                ++ "// Auto-generated Zod schemas" ++ nl).
Proof.
  intros Hb He. rewrite convert_file_layout by constructor.
  rewrite (extract_no_declaration init src Hb He). reflexivity.
Qed.

(** ** The matcher finds a match whenever there is one *)

Lemma Forall_forallb (p : ascii -> bool) (w : text) :
  Forall (fun c => p c = true) w -> forallb p w = true.
Proof. intros H. apply forallb_forall. apply Forall_forall. exact H. Qed.

Lemma star_greedy_complete {R} p (k : text -> text -> option R) :
  forall w bef rest,
    forallb p w = true -> k (rev w ++ bef) rest <> None ->
    star_greedy p bef (w ++ rest) k <> None.
Proof.
  induction w as [|c w IH]; intros bef rest Hw Hk.
  - cbn [app rev] in *. destruct rest as [|c rest]; cbn; [exact Hk|].
    destruct (p c); [|exact Hk].
    destruct (star_greedy p (c :: bef) rest k); [discriminate | exact Hk].
  - cbn in Hw. apply andb_true_iff in Hw. destruct Hw as [Hc Hw].
    cbn [app star_greedy]. rewrite Hc.
    assert (star_greedy p (c :: bef) (w ++ rest) k <> None) as N.
    { apply IH; [exact Hw|]. rewrite rev_cons_app. exact Hk. }
    destruct (star_greedy p (c :: bef) (w ++ rest) k); [discriminate|].
    congruence.
Qed.

Lemma star_lazy_complete {R} p (k : text -> text -> option R) :
  forall w bef rest,
    forallb p w = true -> k (rev w ++ bef) rest <> None ->
    star_lazy p bef (w ++ rest) k <> None.
Proof.
  induction w as [|c w IH]; intros bef rest Hw Hk.
  - cbn [app rev] in *. destruct rest as [|c rest]; cbn;
      destruct (k bef _); congruence.
  - cbn in Hw. apply andb_true_iff in Hw. destruct Hw as [Hc Hw].
    cbn [app star_lazy]. destruct (k bef (c :: w ++ rest)); [discriminate|].
    rewrite Hc. apply IH; [exact Hw|]. rewrite rev_cons_app. exact Hk.
Qed.

Lemma mt_complete {R} (r : regex) :
  anchor_free r = true ->
  forall w, lang r w ->
  forall bef rest gs (k : mstate -> option R),
    (forall gs', k (MS (rev w ++ bef) rest gs') <> None) ->
    mt r (MS bef (w ++ rest) gs) k <> None.
Proof.
  induction r as [s|p|g p|a IHa b IHb|a IHa b IHb|a IHa|n a IHa| | |];
    intros Hf w L bef rest gs k Hk; try discriminate Hf.
  - inversion L; subst. rewrite mt_lit_take. apply Hk.
  - inversion L; subst. cbn [app]. rewrite mt_cls_take by assumption.
    apply (Hk gs).
  - inversion L; subst. cbn [mt ms_before ms_rest ms_groups].
    destruct g.
    + apply star_greedy_complete; [apply Forall_forallb; assumption|].
      apply Hk.
    + apply star_lazy_complete; [apply Forall_forallb; assumption|].
      apply Hk.
  - cbn in Hf. apply andb_true_iff in Hf. destruct Hf as [Ha Hb].
    inversion L; subst. rewrite mt_seq_eq. rewrite <- app_assoc.
    apply (IHa Ha); [assumption|].
    intros gs'. apply (IHb Hb); [assumption|].
    intros gs''. rewrite app_assoc, <- rev_app_distr. apply Hk.
  - cbn in Hf. apply andb_true_iff in Hf. destruct Hf as [Ha Hb].
    cbn [mt].
    inversion L; subst.
    + assert (mt a (MS bef (w ++ rest) gs) k <> None) as N
          by (apply (IHa Ha); assumption).
      destruct (mt a (MS bef (w ++ rest) gs) k); [discriminate | congruence].
    + destruct (mt a (MS bef (w ++ rest) gs) k); [discriminate|].
      apply (IHb Hb); assumption.
  - cbn in Hf. cbn [mt]. inversion L; subst.
    + assert (mt a (MS bef (w ++ rest) gs) k <> None) as N
          by (apply (IHa Hf); assumption).
      destruct (mt a (MS bef (w ++ rest) gs) k); [discriminate | congruence].
    + destruct (mt a (MS bef ([] ++ rest) gs) k); [discriminate|].
      apply (Hk gs).
  - cbn in Hf. inversion L; subst. rewrite mt_grp_eq.
    apply (IHa Hf); [assumption|].
    intros gs'. cbv beta. cbn [ms_before ms_rest ms_groups]. apply Hk.
Qed.

Lemma match_at_complete (r : regex) (w bef rest : text) :
  anchor_free r = true -> lang r w -> match_at r bef (w ++ rest) <> None.
Proof.
  intros Hf L. rewrite match_at_eq. apply (mt_complete r Hf w L).
  intros gs'. discriminate.
Qed.

Lemma search_from_complete (r : regex) :
  forall u bef v,
    match_at r (rev u ++ bef) v <> None -> search_from r bef (u ++ v) <> None.
Proof.
  induction u as [|c u IH]; intros bef v H.
  - cbn [app rev] in *. destruct v as [|c v]; cbn [search_from];
      destruct (match_at r bef _); congruence.
  - cbn [app search_from].
    destruct (match_at r bef (c :: u ++ v)); [discriminate|].
    apply IH. rewrite rev_cons_app. exact H.
Qed.

Lemma re_search_complete (r : regex) (u w v : text) :
  anchor_free r = true -> lang r w -> re_search r (u ++ w ++ v) <> None.
Proof.
  intros Hf L. apply search_from_complete. apply match_at_complete; assumption.
Qed.

(** Every match of the declaration patterns holds its keyword, a blank
    and a name. *)
Lemma lang_export_keyword (kw : text) (tail : regex) (w : text) :
  lang (export_opt ;; Lit kw ;; ws1 ;; word ;; tail) w ->
  exists u x v, w = u ++ x ++ v /\ lang (Lit kw ;; ws1 ;; Grp 1 word) x.
Proof.
  intros L.
  apply lang_seq_inv in L. destruct L as (e & w1 & -> & _ & L).
  apply lang_seq_inv in L. destruct L as (k & w2 & -> & Lk & L).
  apply lang_seq_inv in L. destruct L as (s & w3 & -> & Ls & L).
  apply lang_seq_inv in L. destruct L as (n & w4 & -> & Ln & _).
  exists e, (k ++ s ++ n), w4. split.
  - repeat rewrite <- app_assoc. reflexivity.
  - repeat constructor; assumption.
Qed.

Lemma interface_match_parses (src : text) (m : rmatch) :
  In m (finditer interface_pattern src) ->
  exists r, parse_interface (m_text m) = Ok r.
Proof.
  intros H. destruct (finditer_sound _ _ _ H) as (_ & _ & _ & L).
  destruct (lang_export_keyword _ _ _ L) as (u & x & v & E & Lx).
  unfold parse_interface.
  pose proof (re_search_complete interface_name_re u x v eq_refl Lx) as N.
  rewrite <- E in N.
  destruct (re_search interface_name_re (m_text m)); [|congruence].
  eexists. reflexivity.
Qed.

Lemma enum_match_parses (src : text) (m : rmatch) :
  In m (finditer enum_pattern src) ->
  exists r, parse_enum (m_text m) = Ok r.
Proof.
  intros H. destruct (finditer_sound _ _ _ H) as (_ & _ & _ & L).
  destruct (lang_export_keyword _ _ _ L) as (u & x & v & E & Lx).
  unfold parse_enum.
  pose proof (re_search_complete enum_name_re u x v eq_refl Lx) as N.
  rewrite <- E in N.
  destruct (re_search enum_name_re (m_text m)); [|congruence].
  eexists. reflexivity.
Qed.

Lemma lang_plus_cons g p (w : text) :
  lang (Plus g p) w -> exists c w', w = c :: w'.
Proof.
  intros L. apply lang_seq_inv in L. destruct L as (u & v & -> & Lu & _).
  inversion Lu; subst. exists c, v. reflexivity.
Qed.

Lemma lang_dotall_plus g (c : ascii) (w : text) : lang (Plus g dotall) (c :: w).
Proof.
  change (c :: w) with ([c] ++ w). constructor.
  - constructor. reflexivity.
  - constructor. apply Forall_forall. reflexivity.
Qed.

Lemma alias_tail_complete (semi bef : text) gs (b0 : text) :
  lang (Opt (Lit ";")) semi ->
  mt (Opt (Lit ";") ;; ws ;; Eos) (MS bef (semi ++ []) gs)
     (fun st =>
        Some (RM (rev (firstn (length (ms_before st) - length b0)
                              (ms_before st)))
                 (ms_groups st)))
  <> None.
Proof.
  intros L. inversion L as [| | | | | |a u Lu|a| | | |]; subst.
  - inversion Lu; subst. cbn. discriminate.
  - cbn. discriminate.
Qed.

Lemma type_match_parses (src : text) (m : rmatch) :
  In m (finditer type_pattern src) ->
  exists r, parse_type_alias (m_text m) = Ok r.
Proof.
  intros H. destruct (finditer_sound _ _ _ H) as (_ & _ & _ & L).
  unfold type_pattern in L.
  apply lang_seq_inv in L. destruct L as (e & w1 & E1 & _ & L).
  apply lang_seq_inv in L. destruct L as (k & w2 & E2 & Lk & L).
  apply lang_lit_inv in Lk.
  apply lang_seq_inv in L. destruct L as (s1 & w3 & E3 & Ls1 & L).
  apply lang_seq_inv in L. destruct L as (n & w4 & E4 & Ln & L).
  apply lang_seq_inv in L. destruct L as (s2 & w5 & E5 & Ls2 & L).
  apply lang_seq_inv in L. destruct L as (q & w6 & E6 & Lq & L).
  apply lang_lit_inv in Lq.
  apply lang_seq_inv in L. destruct L as (s3 & w7 & E7 & Ls3 & L).
  apply lang_seq_inv in L. destruct L as (y & semi & E8 & Ly & Lsemi).
  destruct (lang_plus_cons _ _ _ Ly) as (c & y' & Ey).
  assert (exists c0 w0, s3 ++ y = c0 :: w0) as (c0 & w0 & Eb).
  { rewrite Ey. destruct s3 as [|x s3]; cbn; eauto. }
  assert (m_text m
          = e ++ "type" ++ s1 ++ n ++ s2 ++ "=" ++ [] ++ (c0 :: w0) ++ semi ++ [])
    as E.
  { rewrite E1, E2, E3, E4, E5, E6, E7, E8, Lk, Lq, <- Eb.
    cbn [app]. rewrite app_nil_r. repeat rewrite <- app_assoc. reflexivity. }
  unfold parse_type_alias.
  assert (re_search alias_re (m_text m) <> None) as N.
  { rewrite E. apply search_from_complete. rewrite match_at_eq.
    unfold alias_re.
    rewrite mt_seq_eq.
    apply (mt_complete (Lit "type") eq_refl ("type" : text) (lang_lit _)).
    intros g1. rewrite mt_seq_eq.
    apply (mt_complete ws1 eq_refl s1 Ls1).
    intros g2. rewrite mt_seq_eq.
    apply (mt_complete (Grp 1 word) eq_refl n (lang_grp _ _ _ Ln)).
    intros g3. rewrite mt_seq_eq.
    apply (mt_complete ws eq_refl s2 Ls2).
    intros g4. rewrite mt_seq_eq.
    apply (mt_complete (Lit "=") eq_refl ("=" : text) (lang_lit _)).
    intros g5. rewrite mt_seq_eq.
    apply (mt_complete ws eq_refl [] (lang_star _ _ _ (Forall_nil _))).
    intros g6. rewrite mt_seq_eq.
    apply (mt_complete (Grp 2 (Plus false dotall)) eq_refl (c0 :: w0)
             (lang_grp _ _ _ (lang_dotall_plus _ _ _))).
    intros g7. apply alias_tail_complete. exact Lsemi. }
  destruct (re_search alias_re (m_text m)); [|congruence].
  eexists. reflexivity.
Qed.

(** ** [main] *)




(** ** Interface fields *)

Ltac norm_rev_in H :=
  repeat rewrite rev_app_distr in H; cbn [rev app] in H;
  repeat rewrite <- app_assoc in H; cbn [app] in H.

Lemma plain_line_facts (stop : ascii) (s : text) :
  plain_line stop s = true ->
  exists c w s0 z,
    s = c :: w /\ s = s0 ++ [z] /\ strip s = s
    /\ isspace c = false /\ isspace z = false
    /\ forallb dot s = true /\ ~ In stop s /\ ~ In "}"%char s
    /\ ~ In newline s.
Proof.
  destruct s as [|c w]; [discriminate|]. unfold plain_line.
  rewrite andb_true_iff. intros [H1 H2]. apply text_eqb_eq in H1.
  destruct (text_last (c :: w) ltac:(discriminate)) as (s0 & z & Ez).
  exists c, w, s0, z. split; [reflexivity|]. split; [exact Ez|].
  split; [exact H1|]. split; [exact (stripped_head c w H1)|].
  split; [apply (stripped_last s0); rewrite <- Ez; exact H1|].
  rewrite forallb_forall in H2.
  assert (forall x, In x (c :: w) ->
            dot x = true /\ notchr stop x = true /\ notchr "}" x = true) as H.
  { intros x Hx. specialize (H2 x Hx).
    rewrite !andb_true_iff in H2. tauto. }
  split; [apply forallb_forall; intros x Hx; apply (H x Hx)|].
  split; [|split]; intros Hin; destruct (H _ Hin) as (Hd & Hs & Hb).
  - unfold notchr in Hs. rewrite Ascii.eqb_refl in Hs. discriminate.
  - discriminate Hb.
  - discriminate Hd.
Qed.

Lemma star_greedy_back {R} p (k : text -> text -> option R) (s bef : text) :
  (forall u v, s = u ++ v -> u <> [] -> forallb p u = true ->
               k (rev u ++ bef) v = None) ->
  star_greedy p bef s k = k bef s.
Proof.
  intros H. destruct s as [|c s]; [reflexivity|]. cbn [star_greedy].
  destruct (p c) eqn:Hc; [|reflexivity].
  rewrite star_greedy_none; [reflexivity|].
  intros u v E Hu. rewrite rev_cons_app. apply H.
  - rewrite E. reflexivity.
  - discriminate.
  - cbn. rewrite Hc. exact Hu.
Qed.

Lemma mt_star_back {R} p bef s gs (k : mstate -> option R) :
  (forall u v, s = u ++ v -> u <> [] -> forallb p u = true ->
               k (MS (rev u ++ bef) v gs) = None) ->
  mt (Star true p) (MS bef s gs) k = k (MS bef s gs).
Proof.
  intros H. cbn [mt ms_before ms_rest ms_groups].
  apply (star_greedy_back p (fun b r => k (MS b r gs))). exact H.
Qed.

Lemma mt_eol_fail {R} (x : ascii) (rest bef : text) gs (k : mstate -> option R) :
  x <> newline -> mt Eol (MS bef (x :: rest) gs) k = None.
Proof.
  intros H. cbn [mt ms_rest]. apply Ascii.eqb_neq in H. rewrite H. reflexivity.
Qed.

(** The end of the last line: the line break is taken, the text ends. *)
Lemma line_end_last {R} (bef : text) gs (k : mstate -> option R) x :
  k (MS (rev nl ++ bef) [] gs) = Some x ->
  mt (ws ;; Eol) (MS bef (nl ++ []) gs) k = Some x.
Proof.
  intros H. rewrite mt_seq_eq. unfold ws.
  apply (mt_star_take isspace nl _ []); [reflexivity | exact I |].
  cbv beta. cbn [mt ms_rest]. exact H.
Qed.

(** The end of a line before an indented one: the match stops in front
    of the line break. *)
Lemma line_end_more {R} (c : ascii) (more bef : text) gs
      (k : mstate -> option R) x :
  isspace c = false ->
  k (MS bef (nl ++ "  " ++ c :: more) gs) = Some x ->
  mt (ws ;; Eol) (MS bef (nl ++ "  " ++ c :: more) gs) k = Some x.
Proof.
  intros Hc H. rewrite mt_seq_eq. unfold ws. rewrite mt_star_back.
  - cbn [mt ms_rest nl app]. rewrite Ascii.eqb_refl. exact H.
  - intros u v E Hu Hs. cbv beta.
    destruct u as [|a u]; [contradiction|].
    cbn [nl app list_ascii_of_string] in E. injection E as _ E.
    assert (exists y v', v = y :: v' /\ y <> newline) as (y & v' & -> & Hy).
    { destruct u as [|a1 u].
      - cbn in E. subst v. eexists _, _. split; [reflexivity | discriminate].
      - destruct u as [|a2 u].
        + cbn in E. injection E as _ E. subst v.
          eexists _, _. split; [reflexivity | discriminate].
        + destruct u as [|a3 u].
          * cbn in E. injection E as _ _ E. subst v.
            eexists _, _. split; [reflexivity|]. intros ->. discriminate Hc.
          * cbn in E. injection E as _ _ E3 _. subst a3.
            cbn in Hs. rewrite Hc in Hs.
            rewrite !andb_false_r in Hs. discriminate Hs. }
    apply mt_eol_fail. exact Hy.
Qed.

Lemma mt_mark {R} (optional : bool) (rest bef : text) gs
      (k : mstate -> option R) x :
  stops (chr "?") rest ->
  k (MS (rev (mark optional) ++ bef) rest ((3, mark optional) :: gs)) = Some x ->
  mt (Grp 3 (Opt (Lit "?"))) (MS bef (mark optional ++ rest) gs) k = Some x.
Proof.
  intros Hs H. rewrite mt_grp_eq. destruct optional; unfold mark in *.
  - apply mt_opt_take. rewrite (mt_lit_take "?"). cbv beta.
    cbn [ms_before ms_rest ms_groups]. rewrite consumed_text. exact H.
  - cbn [list_ascii_of_string app rev] in *. rewrite mt_opt_skip.
    + cbv beta. cbn [ms_before ms_rest ms_groups].
      rewrite Nat.sub_diag. cbn [firstn rev]. exact H.
    + destruct rest as [|y rest]; [apply mt_lit_nil|].
      apply mt_lit_fail. intros ->. discriminate Hs.
Qed.

Local Abbreviation field_tail :=
  (Grp 2 word ;; Grp 3 (Opt (Lit "?")) ;; ws ;; Lit ":" ;; ws ;;
   Grp 4 (Plus false dot) ;; Opt (Lit ";") ;; ws ;; Eol).

Local Abbreviation jsdoc :=
  (Lit "/**" ;; ws ;; Grp 1 (Plus false dot) ;; ws ;; Lit "*/" ;; ws).

(** From the field name to the end of the line. *)
Lemma field_tail_match {R} (name ty tail eaten rest' bef : text)
      (optional : bool) gs (k : mstate -> option R) x :
  is_ident name = true -> plain_line ";" ty = true ->
  (forall b g, k (MS (rev eaten ++ b) rest' g) = Some x ->
               mt (ws ;; Eol) (MS b tail g) k = Some x) ->
  k (MS (rev (name ++ mark optional ++ ":" ++ " " ++ ty ++ ";" ++ eaten) ++ bef)
        rest' ((4, ty) :: (3, mark optional) :: (2, name) :: gs)) = Some x ->
  mt field_tail
     (MS bef (name ++ mark optional ++ ":" ++ " " ++ ty ++ ";" ++ tail) gs) k
  = Some x.
Proof.
  intros HN HT Hend Hk.
  destruct (ident_cons name HN) as (c & w & -> & Hc & Hw).
  destruct (plain_line_facts _ _ HT)
    as (d & r & t0 & z & Et & Ez & Hst & Hd & Hz & Hdot & Hsemi & _ & Hnl).
  rewrite mt_seq_eq. unfold word.
  apply (mt_grp_plus_take 2 isword c w _
           (mark optional ++ ":" ++ " " ++ ty ++ ";" ++ tail));
    [assumption | assumption | destruct optional; reflexivity |].
  cbv beta. rewrite mt_seq_eq.
  apply mt_mark; [reflexivity|].
  rewrite mt_seq_eq. unfold ws at 1. rewrite mt_star_stop by reflexivity.
  rewrite mt_seq_eq, (mt_lit_take ":"). cbv beta.
  rewrite mt_seq_eq. unfold ws at 1.
  apply (mt_star_take isspace " " _ (ty ++ ";" ++ tail));
    [reflexivity | rewrite Et; exact Hd |].
  cbv beta. rewrite mt_seq_eq.
  assert (dot d = true /\ forallb dot r = true) as [Hdd Hdr].
  { rewrite Et in Hdot. cbn in Hdot. apply andb_true_iff in Hdot. exact Hdot. }
  rewrite Et at 1.
  apply (mt_grp_lazy_take 4 dot d r _ (";" ++ tail));
    [assumption | assumption | |].
  - intros u v Euv Hv. cbv beta.
    assert (exists s, v = s ++ [z]) as [s Es].
    { assert (t0 ++ [z] = (d :: u) ++ v) as E3
          by (rewrite <- Ez, Et, Euv; reflexivity).
      destruct (suffix_split t0 (d :: u) v z E3 Hv) as (v' & Ev' & _).
      eauto. }
    assert (forall y, In y v -> In y ty) as Hin.
    { intros y Hy. rewrite Et, Euv. right. apply in_or_app. right. exact Hy. }
    rewrite mt_seq_eq. destruct v as [|y v]; [contradiction|].
    rewrite mt_opt_skip.
    2:{ apply mt_lit_fail. intros ->. apply Hsemi, Hin. left. reflexivity. }
    rewrite mt_seq_eq. unfold ws. apply mt_star_none.
    intros u2 v2 E Hu2. cbv beta. rewrite Es in E.
    destruct (spaces_within u2 v2 s (";" ++ tail) z Hu2 Hz (eq_sym E))
      as (y' & v' & -> & Hy').
    apply mt_eol_fail. intros ->. apply Hnl, Hin. rewrite Es. exact Hy'.
  - cbv beta. rewrite mt_seq_eq. apply mt_opt_take.
    rewrite (mt_lit_take ";"). cbv beta. apply Hend.
    rewrite <- Et. norm_rev_in Hk. norm_rev. exact Hk.
Qed.

(** The tuple [parse_interface] builds from a match of [field_pattern]. *)
Local Abbreviation field_of :=
  (fun m : rmatch =>
     (group_str 2 m, strip (group_str 4 m), text_eqb (group_str 3 m) "?",
      group 1 m)).

Lemma mt_bol_ok {R} (bef rest : text) gs (k : mstate -> option R) :
  bef = [] \/ (exists b, bef = newline :: b) ->
  mt Bol (MS bef rest gs) k = k (MS bef rest gs).
Proof.
  intros [->|[b ->]]; cbn [mt ms_before]; [reflexivity|].
  rewrite Ascii.eqb_refl. reflexivity.
Qed.

Lemma field_pattern_bol_fail (c : ascii) (bef rest : text) :
  c <> newline -> match_at field_pattern (c :: bef) rest = None.
Proof.
  intros H. unfold field_pattern. rewrite match_at_eq, mt_seq_eq.
  cbn [mt ms_before]. apply Ascii.eqb_neq in H. rewrite H. reflexivity.
Qed.

Lemma ws_lit_fails {R} (stop : ascii) (l : text) (r : regex)
      (v rest bef : text) gs (z : ascii) (s : text) (k : mstate -> option R) :
  v = s ++ [z] -> isspace z = false -> ~ In stop v ->
  mt (ws ;; Lit (stop :: l) ;; r) (MS bef (v ++ rest) gs) k = None.
Proof.
  intros Ev Hz Hstop. rewrite mt_seq_eq. unfold ws. apply mt_star_none.
  intros u2 v2 E Hu2. cbv beta. rewrite mt_seq_eq.
  rewrite Ev in E. destruct (spaces_within u2 v2 s rest z Hu2 Hz (eq_sym E))
    as (x & v' & -> & Hin).
  apply mt_lit_fail. intros ->. apply Hstop. rewrite Ev. exact Hin.
Qed.

Lemma mark_values (optional : bool) :
  text_eqb (mark optional) "?" = optional.
Proof. destruct optional; reflexivity. Qed.

(** One written field is one match of [field_pattern], from which
    [parse_interface] reads the field back. *)
Lemma decl_match (d : decl) (lead tail eaten rest' bef : text) :
  decl_ok d = true ->
  bef = [] \/ (exists b, bef = newline :: b) ->
  forallb isspace lead = true ->
  (forall (k : mstate -> option rmatch) x b g,
      k (MS (rev eaten ++ b) rest' g) = Some x ->
      mt (ws ;; Eol) (MS b tail g) k = Some x) ->
  exists m,
    match_at field_pattern bef (lead ++ decl_core d ++ tail) = Some m
    /\ m_text m = lead ++ decl_core d ++ eaten
    /\ field_of m = decl_field d.
Proof.
  destruct d as [[[name optional] ty] description].
  cbn [decl_ok decl_core decl_field].
  rewrite !andb_true_iff. intros [[HN HT] HD] Hbol Hlead Hend.
  destruct (ident_cons name HN) as (c & w & EN & Hc & Hw).
  destruct (plain_line_facts _ _ HT) as (_ & _ & _ & _ & _ & _ & Hst & _).
  destruct description as [doc|].
  - destruct (plain_line_facts _ _ HD)
      as (e & r & t0 & z & Et & Ez & _ & He & Hz & Hdot & Hstar & _ & _).
    exists (RM (lead ++ ("/** " ++ doc ++ " */" ++ nl ++ "  ")
                  ++ name ++ mark optional ++ ": " ++ ty ++ ";" ++ eaten)
               [(4, ty); (3, mark optional); (2, name); (1, doc)]).
    split; [|split].
    + repeat rewrite <- app_assoc.
      change (lead ++ "/** " ++ doc ++ " */" ++ nl ++ "  " ++ name
                ++ mark optional ++ ": " ++ ty ++ ";" ++ tail)
        with (lead ++ "/**" ++ " " ++ doc ++ " " ++ "*/" ++ (nl ++ "  ")
                ++ name ++ mark optional ++ ":" ++ " " ++ ty ++ ";" ++ tail).
      change (lead ++ "/** " ++ doc ++ " */" ++ nl ++ "  " ++ name
                ++ mark optional ++ ": " ++ ty ++ ";" ++ eaten)
        with (lead ++ "/**" ++ " " ++ doc ++ " " ++ "*/" ++ (nl ++ "  ")
                ++ name ++ mark optional ++ ":" ++ " " ++ ty ++ ";" ++ eaten).
      unfold field_pattern. rewrite match_at_eq, mt_seq_eq.
      rewrite mt_bol_ok by exact Hbol. cbv beta.
      rewrite mt_seq_eq. unfold ws at 1.
      apply (mt_star_take isspace lead _
               ("/**" ++ " " ++ doc ++ " " ++ "*/" ++ (nl ++ "  ")
                  ++ name ++ mark optional ++ ":" ++ " " ++ ty ++ ";" ++ tail));
        [exact Hlead | reflexivity |].
      cbv beta. rewrite mt_seq_eq. apply mt_opt_take.
      rewrite mt_seq_eq, (mt_lit_take "/**"). cbv beta.
      rewrite mt_seq_eq. unfold ws at 1.
      apply (mt_star_take isspace " " _
               (doc ++ " " ++ "*/" ++ (nl ++ "  ")
                  ++ name ++ mark optional ++ ":" ++ " " ++ ty ++ ";" ++ tail));
        [reflexivity | rewrite Et; exact He |].
      cbv beta. rewrite mt_seq_eq.
      assert (dot e = true /\ forallb dot r = true) as [Hde Hdr].
      { rewrite Et in Hdot. cbn in Hdot. apply andb_true_iff in Hdot.
        exact Hdot. }
      rewrite Et at 1.
      apply (mt_grp_lazy_take 1 dot e r _
               (" " ++ "*/" ++ (nl ++ "  ")
                  ++ name ++ mark optional ++ ":" ++ " " ++ ty ++ ";" ++ tail));
        [assumption | assumption | |].
      * intros u v Euv Hv. cbv beta.
        assert (exists s, v = s ++ [z]) as [s Es].
        { assert (t0 ++ [z] = (e :: u) ++ v) as E3
              by (rewrite <- Ez, Et, Euv; reflexivity).
          destruct (suffix_split t0 (e :: u) v z E3 Hv) as (v' & Ev' & _).
          eauto. }
        apply (ws_lit_fails "*" "/" _ v _ _ _ z s); [exact Es | exact Hz |].
        intros Hin. apply Hstar. rewrite Et, Euv. right.
        apply in_or_app. right. exact Hin.
      * cbv beta. rewrite mt_seq_eq. unfold ws at 1.
        apply (mt_star_take isspace " " _
                 ("*/" ++ (nl ++ "  ")
                    ++ name ++ mark optional ++ ":" ++ " " ++ ty ++ ";" ++ tail));
          [reflexivity | reflexivity |].
        cbv beta. rewrite mt_seq_eq, (mt_lit_take "*/"). cbv beta.
        unfold ws at 1.
        apply (mt_star_take isspace (nl ++ "  ") _
                 (name ++ mark optional ++ ":" ++ " " ++ ty ++ ";" ++ tail));
          [reflexivity | rewrite EN; exact (word_not_space c Hc) |].
        cbv beta.
        apply (field_tail_match name ty tail eaten rest');
          [exact HN | exact HT | intros b g Hk; apply Hend; exact Hk |].
        rewrite <- Et.
        finish_match
          (lead ++ "/**" ++ " " ++ doc ++ " " ++ "*/" ++ (nl ++ "  ")
             ++ name ++ mark optional ++ ":" ++ " " ++ ty ++ ";" ++ eaten)
          bef.
    + cbn [m_text]. repeat rewrite <- app_assoc. reflexivity.
    + cbn [group_str group m_groups group_in Nat.eqb].
      rewrite Hst, mark_values. reflexivity.
  - exists (RM (lead ++ [] ++ name ++ mark optional ++ ": " ++ ty ++ ";" ++ eaten)
               [(4, ty); (3, mark optional); (2, name)]).
    split; [|split].
    + cbn [app]. repeat rewrite <- app_assoc.
      change (lead ++ name ++ mark optional ++ ": " ++ ty ++ ";" ++ tail)
        with (lead ++ name ++ mark optional ++ ":" ++ " " ++ ty ++ ";" ++ tail).
      change (lead ++ name ++ mark optional ++ ": " ++ ty ++ ";" ++ eaten)
        with (lead ++ name ++ mark optional ++ ":" ++ " " ++ ty ++ ";" ++ eaten).
      unfold field_pattern. rewrite match_at_eq, mt_seq_eq.
      rewrite mt_bol_ok by exact Hbol. cbv beta.
      rewrite mt_seq_eq. unfold ws at 1.
      apply (mt_star_take isspace lead _
               (name ++ mark optional ++ ":" ++ " " ++ ty ++ ";" ++ tail));
        [exact Hlead | rewrite EN; exact (word_not_space c Hc) |].
      cbv beta. rewrite mt_seq_eq. rewrite mt_opt_skip.
      2:{ rewrite mt_seq_eq, EN. apply (mt_lit_fail "/" "**" c).
          intros ->. discriminate Hc. }
      apply (field_tail_match name ty tail eaten rest');
          [exact HN | exact HT | intros b g Hk; apply Hend; exact Hk |].
      finish_match
        (lead ++ name ++ mark optional ++ ":" ++ " " ++ ty ++ ";" ++ eaten) bef.
    + cbn [m_text app]. repeat rewrite <- app_assoc. reflexivity.
    + cbn [group_str group m_groups group_in Nat.eqb].
      rewrite Hst, mark_values. reflexivity.
Qed.

(** The lines between the braces of [interface_text]. *)
Local Abbreviation lines ds :=
  (concat (map (fun d => nl ++ "  " ++ decl_core d) ds) ++ nl).

Lemma scan_needs (P : ascii -> Prop) (r : regex) :
  needs P r ->
  forall rest skip bef, ~ Exists P rest -> scan r skip bef rest = [].
Proof.
  intros N rest skip bef H.
  destruct (scan r skip bef rest) as [|m l] eqn:E; [reflexivity|].
  exfalso. apply H.
  destruct (scan_sound r m rest skip bef) as (u & v & Es & M).
  { rewrite E. left. reflexivity. }
  destruct (match_at_sound _ _ _ _ M) as (rest' & E' & L & _).
  rewrite Es, E'. apply Exists_app. right. apply Exists_app. left.
  exact (lang_needs P r _ L N).
Qed.

Lemma field_pattern_needs_word :
  needs (fun c => isword c = true) field_pattern.
Proof. cbn. do 3 right. left. left. auto. Qed.

Lemma no_word_in_spaces (s : text) :
  forallb isspace s = true -> ~ Exists (fun c => isword c = true) s.
Proof.
  intros H E. apply Exists_exists in E. destruct E as (c & Hc & Hw).
  rewrite forallb_forall in H. apply word_not_space in Hw.
  rewrite (H c Hc) in Hw. discriminate.
Qed.

Lemma decl_core_head (d : decl) :
  decl_ok d = true -> exists x X, decl_core d = x :: X /\ isspace x = false.
Proof.
  destruct d as [[[name optional] ty] [doc|]]; cbn [decl_ok decl_core];
    rewrite !andb_true_iff; intros [[HN _] _].
  - eexists _, _. split; reflexivity.
  - destruct (ident_cons name HN) as (c & w & -> & Hc & _).
    exists c. eexists. split; [reflexivity | exact (word_not_space c Hc)].
Qed.

Lemma scan_decls :
  forall ds bef, forallb decl_ok ds = true ->
    map field_of (scan field_pattern 0 bef (lines ds)) = map decl_field ds.
Proof.
  induction ds as [|d ds IH]; intros bef H.
  - cbn [map concat app].
    rewrite (scan_needs _ _ field_pattern_needs_word); [reflexivity|].
    apply no_word_in_spaces. reflexivity.
  - cbn [forallb] in H. apply andb_true_iff in H. destruct H as [Hd Hds].
    assert (forall lead bef0,
               bef0 = [] \/ (exists b, bef0 = newline :: b) ->
               forallb isspace lead = true -> lead <> [] ->
               map field_of
                   (scan field_pattern 0 bef0 (lead ++ decl_core d ++ lines ds))
               = decl_field d :: map decl_field ds) as Key.
    { intros lead bef0 Hbol Hlead Hne. destruct ds as [|d' ds'].
      - cbn [map concat app].
        destruct (decl_match d lead (nl ++ []) nl [] bef0 Hd Hbol Hlead)
          as (m & M & T & F).
        { intros k x b g Hk. apply line_end_last. exact Hk. }
        assert (lead ++ decl_core d ++ nl
                = (lead ++ decl_core d ++ nl) ++ []) as E
            by (symmetry; apply app_nil_r).
        rewrite E.
        rewrite (scan_match_text field_pattern (lead ++ decl_core d ++ nl)
                   bef0 [] m).
        + rewrite (scan_needs _ _ field_pattern_needs_word)
            by (intros X; inversion X).
          cbn [map]. rewrite F. reflexivity.
        + repeat rewrite <- app_assoc. exact M.
        + exact T.
        + destruct lead; [contradiction | discriminate].
      - assert (forallb decl_ok (d' :: ds') = true) as Hds' by exact Hds.
        cbn [forallb] in Hds. apply andb_true_iff in Hds.
        destruct Hds as [Hd' _].
        destruct (decl_core_head d' Hd') as (x & X & EX & HX).
        assert (lines (d' :: ds') = nl ++ "  " ++ x :: (X ++ lines ds')) as EL.
        { cbn [map concat]. rewrite EX. repeat rewrite <- app_assoc.
          reflexivity. }
        destruct (decl_match d lead (lines (d' :: ds')) []
                    (lines (d' :: ds')) bef0 Hd Hbol Hlead)
          as (m & M & T & F).
        { intros k x0 b g Hk. rewrite EL. apply line_end_more; [exact HX|].
          rewrite <- EL. exact Hk. }
        rewrite app_nil_r in T.
        assert (lead ++ decl_core d ++ lines (d' :: ds')
                = (lead ++ decl_core d) ++ lines (d' :: ds')) as E
            by apply app_assoc.
        rewrite E.
        rewrite (scan_match_text field_pattern (lead ++ decl_core d)
                   bef0 _ m).
        + cbn [map]. rewrite F. apply (f_equal (cons (decl_field d))).
          exact (IH _ Hds').
        + rewrite <- E. exact M.
        + exact T.
        + destruct lead; [contradiction | discriminate]. }
    assert (lines (d :: ds) = (nl ++ "  ") ++ decl_core d ++ lines ds) as EL.
    { cbn [map concat]. repeat rewrite <- app_assoc. reflexivity. }
    assert (forall c b, c <> newline ->
               map field_of (scan field_pattern 0 (c :: b) (lines (d :: ds)))
               = decl_field d :: map decl_field ds) as Other.
    { intros c b Hc.
      assert (lines (d :: ds) = nl ++ "  " ++ decl_core d ++ lines ds) as EL'.
      { cbn [map concat]. repeat rewrite <- app_assoc. reflexivity. }
      rewrite EL'. rewrite (scan_fail field_pattern nl).
      - apply Key; [right; eexists; reflexivity | reflexivity | discriminate].
      - intros u v E Hv. destruct u as [|a u].
        + apply field_pattern_bol_fail. exact Hc.
        + exfalso. apply Hv. cbn in E. injection E as _ E.
          destruct u; [symmetry; exact E | discriminate E]. }
    destruct bef as [|c b].
    + rewrite EL. apply Key; [left; reflexivity | reflexivity | discriminate].
    + destruct (Ascii.eqb_spec c newline) as [->|Hc].
      * rewrite EL.
        apply Key; [right; eexists; reflexivity | reflexivity | discriminate].
      * apply Other. exact Hc.
Qed.

Lemma keyword_body_search (kw N body : text) :
  ~ In "{"%char kw -> is_ident N = true -> body <> [] ->
  ~ In "}"%char body ->
  re_search body_re (kw ++ " " ++ N ++ " {" ++ body ++ "}")
  = Some (RM ("{" ++ body ++ "}") [(1, body)]).
Proof.
  intros Hk Hn Hne Hb.
  replace (kw ++ " " ++ N ++ " {" ++ body ++ "}")
    with ((kw ++ " " ++ N ++ " ") ++ "{" ++ body ++ "}" ++ [])
    by (repeat rewrite <- app_assoc; reflexivity).
  apply body_match; [|assumption..].
  intros H. apply in_app_or in H. destruct H as [H|H]; [contradiction|].
  cbn in H. destruct H as [H|H]; [discriminate H|].
  apply in_app_or in H. destruct H as [H|[H|[]]]; [|discriminate H].
  apply (words_no_char N "{" (ident_words N Hn) eq_refl H).
Qed.

Lemma parse_interface_body (name body : text) :
  is_ident name = true -> body <> [] -> ~ In "}"%char body ->
  parse_interface ("interface " ++ name ++ " {" ++ body ++ "}")
  = Ok (name, map field_of (finditer field_pattern body)).
Proof.
  intros Hn Hne Hb. unfold parse_interface.
  assert (re_search interface_name_re
            ("interface " ++ name ++ " {" ++ body ++ "}")
          = Some (RM ("interface" ++ " " ++ name) [(1, name)])) as E1.
  { apply search_from_here. unfold interface_name_re.
    apply (keyword_name_match "interface" name (" {" ++ body ++ "}") []);
      [exact Hn | reflexivity]. }
  rewrite E1. cbn [group_str group m_groups group_in Nat.eqb].
  assert (re_search body_re ("interface " ++ name ++ " {" ++ body ++ "}")
          = Some (RM ("{" ++ body ++ "}") [(1, body)])) as E2.
  { apply (keyword_body_search "interface" name body); try assumption.
    intros H. cbn in H.
    repeat (destruct H as [H|H]; [discriminate H|]). destruct H. }
  rewrite E2. reflexivity.
Qed.

Lemma decl_core_no_brace (d : decl) :
  decl_ok d = true -> ~ In "}"%char (decl_core d).
Proof.
  destruct d as [[[name optional] ty] description].
  cbn [decl_ok decl_core]. rewrite !andb_true_iff. intros [[HN HT] HD].
  destruct (plain_line_facts _ _ HT) as (_ & _ & _ & _ & _ & _ & _ & _ & _ & _ & _ & Hb & _).
  assert (~ In "}"%char (name ++ mark optional ++ ": " ++ ty ++ ";")) as Hrest.
  { intros H. apply in_app_or in H. destruct H as [H|H].
    - apply (words_no_char name "}" (ident_words name HN) eq_refl H).
    - apply in_app_or in H. destruct H as [H|H].
      + destruct optional; cbn in H; [destruct H as [H|[]]; discriminate H|].
        destruct H.
      + cbn in H. destruct H as [H|[H|H]]; try discriminate H.
        apply in_app_or in H. destruct H as [H|[H|[]]];
          [contradiction | discriminate H]. }
  destruct description as [doc|]; [|exact Hrest].
  destruct (plain_line_facts _ _ HD) as (_ & _ & _ & _ & _ & _ & _ & _ & _ & _ & _ & Hdb & _).
  intros H. apply in_app_or in H. destruct H as [H|H]; [|contradiction].
  cbn in H. destruct H as [H|[H|[H|[H|H]]]]; try discriminate H.
  apply in_app_or in H. destruct H as [H|H]; [contradiction|].
  cbn in H. repeat (destruct H as [H|H]; [discriminate H|]). destruct H.
Qed.

Lemma lines_no_brace (ds : list decl) :
  forallb decl_ok ds = true -> ~ In "}"%char (lines ds).
Proof.
  induction ds as [|d ds IH]; intros H.
  - cbn. intros [E|[]]. discriminate E.
  - cbn [forallb] in H. apply andb_true_iff in H. destruct H as [Hd Hds].
    cbn [map concat]. repeat rewrite <- app_assoc. intros Hin.
    cbn in Hin. destruct Hin as [E|[E|[E|Hin]]]; try discriminate E.
    apply in_app_or in Hin. destruct Hin as [Hin|Hin].
    + exact (decl_core_no_brace d Hd Hin).
    + exact (IH Hds Hin).
Qed.

Lemma parse_interface_text (name : text) (ds : list decl) :
  is_ident name = true -> forallb decl_ok ds = true ->
  parse_interface (interface_text name ds) = Ok (name, map decl_field ds).
Proof.
  intros Hn Hds. unfold interface_text.
  assert ("interface " ++ name ++ " {"
            ++ concat (map (fun d => nl ++ "  " ++ decl_core d) ds) ++ nl ++ "}"
          = "interface " ++ name ++ " {" ++ lines ds ++ "}") as E
      by (repeat rewrite <- app_assoc; reflexivity).
  rewrite E, parse_interface_body.
  - unfold finditer. rewrite scan_decls by exact Hds. reflexivity.
  - exact Hn.
  - intros H. apply app_eq_nil in H. destruct H as [_ H]. discriminate H.
  - apply lines_no_brace. exact Hds.
Qed.

(** ** Declarations in braces *)

(** The pattern of a declaration with a body in braces. *)
Local Abbreviation braces kw :=
  (export_opt ;; Lit kw ;; ws1 ;; word ;; ws ;; Lit "{" ;;
   Star true (notchr "}") ;; Lit "}").

Lemma braces_match (kw N body bef : text) :
  (forall rest, strip_prefix "export" (kw ++ rest) = None) ->
  is_ident N = true -> ~ In "}"%char body ->
  match_at (braces kw) bef (kw ++ " " ++ N ++ " {" ++ body ++ "}")
  = Some (RM (kw ++ " " ++ N ++ " {" ++ body ++ "}") []).
Proof.
  intros Hexp HN Hb.
  destruct (ident_cons N HN) as (c & w & -> & Hc & Hw).
  change (kw ++ " " ++ (c :: w) ++ " {" ++ body ++ "}")
    with (kw ++ " " ++ (c :: w) ++ " " ++ "{" ++ body ++ "}" ++ []).
  unfold export_opt. rewrite match_at_eq, mt_seq_eq.
  rewrite mt_opt_skip.
  2:{ rewrite mt_seq_eq, mt_lit. cbn [ms_rest]. rewrite Hexp. reflexivity. }
  rewrite mt_seq_eq, (mt_lit_take kw). cbv beta. rewrite mt_seq_eq.
  unfold ws1.
  apply (mt_plus_take isspace " "%char [] _
           ((c :: w) ++ " " ++ "{" ++ body ++ "}" ++ []));
    [reflexivity | reflexivity | exact (word_not_space c Hc) |].
  cbv beta. rewrite mt_seq_eq. unfold word.
  apply (mt_plus_take isword c w _ (" " ++ "{" ++ body ++ "}" ++ []));
    [assumption | assumption | reflexivity |].
  cbv beta. rewrite mt_seq_eq. unfold ws.
  apply (mt_star_take isspace " " _ ("{" ++ body ++ "}" ++ []));
    [reflexivity | reflexivity |].
  cbv beta. rewrite mt_seq_eq, (mt_lit_take "{"). cbv beta. rewrite mt_seq_eq.
  apply (mt_star_take (notchr "}") body _ ("}" ++ []));
    [apply not_in_notchr; exact Hb | reflexivity |].
  cbv beta. rewrite (mt_lit_take "}").
  finish_match (kw ++ " " ++ (c :: w) ++ " " ++ "{" ++ body ++ "}") bef.
Qed.

Lemma finditer_one (P : ascii -> Prop) (r : regex) (s : text) (m : rmatch) :
  needs P r -> match_at r [] s = Some m -> m_text m = s -> s <> [] ->
  finditer r s = [m].
Proof.
  intros N M T Hne. unfold finditer.
  assert (scan r 0 [] (s ++ []) = m :: scan r 0 (rev s ++ []) []) as E.
  { apply scan_match_text; [rewrite app_nil_r; exact M | exact T | exact Hne]. }
  rewrite app_nil_r in E. rewrite E.
  rewrite (scan_needs P r N) by (intros X; inversion X). reflexivity.
Qed.

Lemma braces_needs kw : needs (eq "{"%char) (braces kw).
Proof. cbn. do 5 right. left. constructor. reflexivity. Qed.

Lemma finditer_braces (kw N body : text) :
  (forall rest, strip_prefix "export" (kw ++ rest) = None) ->
  is_ident N = true -> ~ In "}"%char body ->
  finditer (braces kw) (kw ++ " " ++ N ++ " {" ++ body ++ "}")
  = [RM (kw ++ " " ++ N ++ " {" ++ body ++ "}") []].
Proof.
  intros Hexp HN Hb.
  apply (finditer_one (eq "{"%char)).
  - apply braces_needs.
  - apply braces_match; assumption.
  - reflexivity.
  - intros E. apply app_eq_nil in E. destruct E as [_ E].
    apply app_eq_nil in E. destruct E as [E _]. discriminate E.
Qed.

Lemma interfaces_add_types ms self :
  interfaces (fold_left add_type ms self) = interfaces self.
Proof.
  revert self. induction ms as [|m ms IH]; intros self; simpl; [reflexivity|].
  rewrite IH. unfold add_type.
  destruct (parse_type_alias (m_text m)) as [[? ?]|]; reflexivity.
Qed.

Lemma interfaces_add_enums ms self :
  interfaces (fold_left add_enum ms self) = interfaces self.
Proof.
  revert self. induction ms as [|m ms IH]; intros self; simpl; [reflexivity|].
  rewrite IH. unfold add_enum.
  destruct (parse_enum (m_text m)) as [[? ?]|]; reflexivity.
Qed.

Lemma enums_add_interfaces ms self :
  enums (fold_left add_interface ms self) = enums self.
Proof.
  revert self. induction ms as [|m ms IH]; intros self; simpl; [reflexivity|].
  rewrite IH. unfold add_interface.
  destruct (parse_interface (m_text m)) as [[? ?]|]; reflexivity.
Qed.

Lemma enums_add_types ms self :
  enums (fold_left add_type ms self) = enums self.
Proof.
  revert self. induction ms as [|m ms IH]; intros self; simpl; [reflexivity|].
  rewrite IH. unfold add_type.
  destruct (parse_type_alias (m_text m)) as [[? ?]|]; reflexivity.
Qed.


Lemma extract_enum_body self (N body : text) (values : list text) :
  is_ident N = true -> ~ In "}"%char body ->
  parse_enum ("enum " ++ N ++ " {" ++ body ++ "}") = Ok (N, values) ->
  enums (extract self ("enum " ++ N ++ " {" ++ body ++ "}"))
  = dict_set N values
      (enums self).
Proof.
  intros HN Hb Hp. unfold extract.
  assert (finditer enum_pattern ("enum " ++ N ++ " {" ++ body ++ "}")
          = [RM ("enum " ++ N ++ " {" ++ body ++ "}") []]) as E.
  { apply (finditer_braces "enum" N body); [reflexivity | assumption..]. }
  rewrite E. cbn [fold_left]. unfold add_enum. cbn [m_text].
  rewrite Hp. cbn [enums]. rewrite enums_add_types, enums_add_interfaces.
  reflexivity.
Qed.

Lemma interface_text_body (N : text) (ds : list decl) :
  interface_text N ds
  = "interface " ++ N ++ " {"
      ++ (concat (map (fun d => nl ++ "  " ++ decl_core d) ds) ++ nl) ++ "}".
Proof. unfold interface_text. repeat rewrite <- app_assoc. reflexivity. Qed.


Lemma members_no_brace (ms : list member) :
  forallb member_ok ms = true ->
  ~ In "}"%char (" " ++ join ", " (map member_text ms) ++ " ").
Proof.
  intros Hms.
  assert (~ In "}"%char (join ", " (map member_text ms))) as Hj.
  { induction ms as [|m ms IH]; [intros []|].
    simpl in Hms. apply andb_true_iff in Hms. destruct Hms as [Hm Hms].
    assert (~ In "}"%char (member_text m)) as Hmt.
    { destruct m as [id [v|]]; unfold member_ok in Hm; cbn [fst snd] in Hm;
        apply andb_true_iff in Hm; destruct Hm as [Hid Hv]; cbn [member_text].
      - assert (forallb plain_value_char v = true) as Hp
            by (destruct v; [discriminate Hv | exact Hv]).
        destruct (plain_value_chars v Hp) as (_ & _ & Hb).
        intros H. apply in_app_or in H. destruct H as [H|H].
        + apply (words_no_char id "}" (ident_words id Hid) eq_refl H).
        + cbn in H. destruct H as [H|[H|[H|[H|H]]]]; try discriminate H.
          apply in_app_or in H. destruct H as [H|[H|[]]];
            [contradiction | discriminate H].
      - apply (words_no_char id "}" (ident_words id Hid) eq_refl). }
    destruct ms as [|m2 ms]; [exact Hmt|].
    change (join ", " (map member_text (m :: m2 :: ms)))
      with (member_text m ++ ", " ++ join ", " (map member_text (m2 :: ms))).
    intros H. apply in_app_or in H. destruct H as [H|H]; [contradiction|].
    cbn in H. destruct H as [H|[H|H]]; try discriminate H.
    apply (IH Hms H). }
  intros H. cbn in H. destruct H as [H|H]; [discriminate H|].
  apply in_app_or in H. destruct H as [H|[H|[]]];
    [contradiction | discriminate H].
Qed.

Lemma enum_text_body (name : text) (ms : list member) :
  enum_text name ms
  = "enum " ++ name ++ " {" ++ (" " ++ join ", " (map member_text ms) ++ " ")
      ++ "}".
Proof. unfold enum_text. repeat rewrite <- app_assoc. reflexivity. Qed.

Lemma extract_enum_text self (name : text) (ms : list member) :
  is_ident name = true -> forallb member_ok ms = true ->
  enums (extract self (enum_text name ms))
  = dict_set name (map member_value ms) (enums self).
Proof.
  intros HN Hms. pose proof (parse_enum_text name ms HN Hms) as Hp.
  rewrite enum_text_body in *.
  apply (extract_enum_body self name _ (map member_value ms) HN); [|exact Hp].
  apply members_no_brace. exact Hms.
Qed.

(** *** Bodies that hold nothing *)

Lemma body_search_empty (pre : text) :
  ~ In "{"%char pre -> re_search body_re (pre ++ "{}") = None.
Proof.
  intros Hpre. unfold re_search. rewrite search_from_skip.
  - reflexivity.
  - intros u v E Hv. destruct v as [|x v]; [contradiction|].
    unfold body_re. rewrite match_at_eq, mt_seq_eq.
    apply mt_lit_fail. intros ->. apply Hpre. rewrite E.
    apply in_or_app. right. simpl; auto.
Qed.

Lemma keyword_no_brace (kw N : text) :
  ~ In "{"%char kw -> is_ident N = true -> ~ In "{"%char (kw ++ " " ++ N ++ " ").
Proof.
  intros Hk Hn H. apply in_app_or in H. destruct H as [H|H]; [contradiction|].
  cbn in H. destruct H as [H|H]; [discriminate H|].
  apply in_app_or in H. destruct H as [H|[H|[]]]; [|discriminate H].
  apply (words_no_char N "{" (ident_words N Hn) eq_refl H).
Qed.

Lemma spaces_no_brace (sp : text) :
  forallb isspace sp = true -> ~ In "}"%char sp.
Proof.
  intros H Hin. rewrite forallb_forall in H. discriminate (H _ Hin).
Qed.

Lemma parse_interface_blank (N sp : text) :
  is_ident N = true -> forallb isspace sp = true ->
  parse_interface ("interface " ++ N ++ " {" ++ sp ++ "}") = Ok (N, []).
Proof.
  intros HN Hsp. destruct sp as [|c sp].
  - unfold parse_interface.
    assert (re_search interface_name_re ("interface " ++ N ++ " {" ++ [] ++ "}")
            = Some (RM ("interface" ++ " " ++ N) [(1, N)])) as E1.
    { apply search_from_here. unfold interface_name_re.
      apply (keyword_name_match "interface" N (" {" ++ [] ++ "}") []);
        [exact HN | reflexivity]. }
    rewrite E1.
    assert (re_search body_re ("interface " ++ N ++ " {" ++ [] ++ "}") = None)
      as E2.
    { replace ("interface " ++ N ++ " {" ++ [] ++ "}")
        with (("interface" ++ " " ++ N ++ " ") ++ "{}")
        by (repeat rewrite <- app_assoc; reflexivity).
      apply body_search_empty. apply keyword_no_brace; [|exact HN].
      intros H. cbn in H.
      repeat (destruct H as [H|H]; [discriminate H|]). destruct H. }
    rewrite E2. reflexivity.
  - rewrite parse_interface_body;
      [|exact HN | discriminate | apply spaces_no_brace; exact Hsp].
    unfold finditer.
    rewrite (scan_needs _ _ field_pattern_needs_word)
      by (apply no_word_in_spaces; exact Hsp).
    reflexivity.
Qed.

Lemma value_pattern_needs_word :
  needs (fun c => isword c = true) value_pattern.
Proof. cbn. left. left. auto. Qed.

Lemma parse_enum_blank (N sp : text) :
  is_ident N = true -> forallb isspace sp = true ->
  parse_enum ("enum " ++ N ++ " {" ++ sp ++ "}") = Ok (N, []).
Proof.
  intros HN Hsp. destruct sp as [|c sp].
  - unfold parse_enum.
    assert (re_search enum_name_re ("enum " ++ N ++ " {" ++ [] ++ "}")
            = Some (RM ("enum" ++ " " ++ N) [(1, N)])) as E1.
    { apply search_from_here. unfold enum_name_re.
      apply (keyword_name_match "enum" N (" {" ++ [] ++ "}") []);
        [exact HN | reflexivity]. }
    rewrite E1.
    assert (re_search body_re ("enum " ++ N ++ " {" ++ [] ++ "}") = None)
      as E2.
    { replace ("enum " ++ N ++ " {" ++ [] ++ "}")
        with (("enum" ++ " " ++ N ++ " ") ++ "{}")
        by (repeat rewrite <- app_assoc; reflexivity).
      apply body_search_empty. apply keyword_no_brace; [|exact HN].
      intros H. cbn in H.
      repeat (destruct H as [H|H]; [discriminate H|]). destruct H. }
    rewrite E2. reflexivity.
  - rewrite parse_enum_body;
      [|exact HN | discriminate | apply spaces_no_brace; exact Hsp].
    unfold finditer.
    rewrite (scan_needs _ _ value_pattern_needs_word)
      by (apply no_word_in_spaces; exact Hsp).
    reflexivity.
Qed.

(** ** The extraction loops as runs of assignments *)

Lemma dict_set_set_same {V} k (v v' : V) (d : dict V) :
  dict_set k v (dict_set k v' d) = dict_set k v d.
Proof.
  induction d as [|[k0 v0] d IH]; cbn.
  - rewrite text_eqb_refl. reflexivity.
  - destruct (text_eqb k k0) eqn:E; cbn; rewrite E; [reflexivity|].
    rewrite IH. reflexivity.
Qed.

Lemma dict_mem_cons {V} k k0 (v0 : V) (d : dict V) :
  dict_mem k ((k0, v0) :: d) = text_eqb k k0 || dict_mem k d.
Proof. unfold dict_mem. cbn. destruct (text_eqb k k0); reflexivity. Qed.

Lemma dict_set_comm {V} k k' (v v' : V) (d : dict V) :
  k <> k' -> dict_mem k d = true ->
  dict_set k v (dict_set k' v' d) = dict_set k' v' (dict_set k v d).
Proof.
  intros N. induction d as [|[k0 v0] d IH]; intros Hm; [discriminate Hm|].
  rewrite dict_mem_cons in Hm. cbn.
  destruct (text_eqb k k0) eqn:E; destruct (text_eqb k' k0) eqn:E'; cbn;
    rewrite ?E, ?E'.
  - apply text_eqb_eq in E. apply text_eqb_eq in E'. congruence.
  - reflexivity.
  - reflexivity.
  - rewrite IH; [reflexivity|]. exact Hm.
Qed.

Lemma dict_mem_set {V} k k' (v : V) (d : dict V) :
  dict_mem k' (dict_set k v d) = text_eqb k' k || dict_mem k' d.
Proof.
  induction d as [|[k0 v0] d IH]; cbn.
  - unfold dict_mem. cbn. destruct (text_eqb k' k); reflexivity.
  - destruct (text_eqb k k0) eqn:E; rewrite !dict_mem_cons.
    + apply text_eqb_eq in E. subst k0.
      destruct (text_eqb k' k); reflexivity.
    + rewrite IH. destruct (text_eqb k' k), (text_eqb k' k0); reflexivity.
Qed.

Lemma assign_mem {V} (kvs : list (text * V)) :
  forall d k, dict_mem k d = true -> dict_mem k (assign d kvs) = true.
Proof.
  unfold assign. induction kvs as [|[k1 v1] kvs IH]; intros d k H; cbn;
    [exact H|].
  apply IH. rewrite dict_mem_set, H. apply orb_true_r.
Qed.

Lemma assign_present {V} (kvs : list (text * V)) :
  forall d kv, In kv kvs -> dict_mem (fst kv) (assign d kvs) = true.
Proof.
  induction kvs as [|[k1 v1] kvs IH]; intros d kv H; [destruct H|].
  destruct H as [<-|H].
  - apply (assign_mem kvs). cbn [fst].
    rewrite dict_mem_set, text_eqb_refl. reflexivity.
  - apply (IH _ _ H).
Qed.

Lemma assign_app {V} (d : dict V) (a b : list (text * V)) :
  assign d (a ++ b) = assign (assign d a) b.
Proof. apply fold_left_app. Qed.

Lemma assign_overwritten {V} k (v : V) (kvs : list (text * V)) :
  forall d v',
    (forall kv, In kv kvs -> dict_mem (fst kv) d = true) ->
    dict_set k v (assign (dict_set k v' d) kvs) = dict_set k v (assign d kvs).
Proof.
  induction kvs as [|[k1 v1] kvs IH]; intros d v' H.
  - apply dict_set_set_same.
  - change (assign (dict_set k v' d) ((k1, v1) :: kvs))
      with (assign (dict_set k1 v1 (dict_set k v' d)) kvs).
    change (assign d ((k1, v1) :: kvs)) with (assign (dict_set k1 v1 d) kvs).
    destruct (text_eqb k1 k) eqn:E.
    + apply text_eqb_eq in E. subst k1. rewrite dict_set_set_same.
      reflexivity.
    + apply text_eqb_neq in E. rewrite dict_set_comm.
      * apply IH. intros kv Hkv. rewrite dict_mem_set.
        rewrite (H kv (or_intror Hkv)). apply orb_true_r.
      * exact E.
      * exact (H (k1, v1) (or_introl eq_refl)).
Qed.

(** Making the same assignments a second time changes nothing. *)
Lemma assign_idem {V} (kvs : list (text * V)) :
  forall d, assign (assign d kvs) kvs = assign d kvs.
Proof.
  induction kvs as [|[k v] kvs IH] using rev_ind; intros d; [reflexivity|].
  rewrite (assign_app d kvs [(k, v)]).
  change (assign (assign d kvs) [(k, v)]) with (dict_set k v (assign d kvs)).
  rewrite assign_app.
  change (assign (assign (dict_set k v (assign d kvs)) kvs) [(k, v)])
    with (dict_set k v (assign (dict_set k v (assign d kvs)) kvs)).
  rewrite assign_overwritten.
  - rewrite IH. reflexivity.
  - intros kv Hkv. apply assign_present. exact Hkv.
Qed.

Lemma fold_add_interface ms :
  forall self,
    fold_left add_interface ms self
    = MkConverter
        (assign (interfaces self)
           (flat_map (fun m => match parse_interface (m_text m) with
                               | Ok (name, _) => [(name, m_text m)]
                               | Raise _ => []
                               end) ms))
        (types self) (enums self).
Proof.
  induction ms as [|m ms IH]; intros self; cbn [fold_left flat_map].
  - destruct self; reflexivity.
  - rewrite IH. unfold add_interface.
    destruct (parse_interface (m_text m)) as [[name fields]|e]; reflexivity.
Qed.

Lemma fold_add_type ms :
  forall self,
    fold_left add_type ms self
    = MkConverter
        (interfaces self)
        (assign (types self)
           (flat_map (fun m => match parse_type_alias (m_text m) with
                               | Ok (name, type_def) => [(name, type_def)]
                               | Raise _ => []
                               end) ms))
        (enums self).
Proof.
  induction ms as [|m ms IH]; intros self; cbn [fold_left flat_map].
  - destruct self; reflexivity.
  - rewrite IH. unfold add_type.
    destruct (parse_type_alias (m_text m)) as [[name type_def]|e]; reflexivity.
Qed.

Lemma fold_add_enum ms :
  forall self,
    fold_left add_enum ms self
    = MkConverter
        (interfaces self) (types self)
        (assign (enums self)
           (flat_map (fun m => match parse_enum (m_text m) with
                               | Ok (name, values) => [(name, values)]
                               | Raise _ => []
                               end) ms)).
Proof.
  induction ms as [|m ms IH]; intros self; cbn [fold_left flat_map].
  - destruct self; reflexivity.
  - rewrite IH. unfold add_enum.
    destruct (parse_enum (m_text m)) as [[name values]|e]; reflexivity.
Qed.

(** The three loops of [convert_file] as runs of assignments. *)
Lemma extract_assign self (src : text) :
  extract self src
  = MkConverter (assign (interfaces self) (interface_assignments src))
                (assign (types self) (type_assignments src))
                (assign (enums self) (enum_assignments src)).
Proof.
  unfold extract. rewrite fold_add_enum, fold_add_type, fold_add_interface.
  reflexivity.
Qed.

Lemma extract_idem self (src : text) :
  extract (extract self src) src = extract self src.
Proof.
  rewrite (extract_assign (extract self src)), (extract_assign self).
  cbn [interfaces types enums]. rewrite !assign_idem. reflexivity.
Qed.

Lemma convert_file_again self (src : text) self' (out : text) :
  convert_file self src = Ok (self', out) ->
  convert_file self' src = Ok (self', out).
Proof.
  unfold convert_file. intros H.
  destruct (emit_interfaces (extract self src) _ _) as [o|e] eqn:E;
    [|discriminate H].
  injection H as <- <-. rewrite extract_idem, E. reflexivity.
Qed.

(** *** A trailing [null] branch *)

Lemma sentinel_null {R} (rest bef : text) gs (k : mstate -> option R) x :
  k (MS (rev "null" ++ bef) rest ((1, "null" : text) :: gs)) = Some x ->
  mt (Grp 1 (Alt (Lit "undefined") (Lit "null")))
     (MS bef ("null" ++ rest) gs) k = Some x.
Proof.
  intros H. rewrite mt_grp_eq. cbn [mt].
  assert (mt (Lit "undefined") (MS bef ("null" ++ rest) gs)
             (fun st' =>
                k (MS (ms_before st') (ms_rest st')
                      ((1, rev (firstn (length (ms_before st') - length bef)
                                       (ms_before st'))) :: ms_groups st')))
          = None) as E
      by (apply (mt_lit_fail "u" "ndefined" "n"); discriminate).
  cbn [mt] in E. rewrite E.
  change (mt (Lit "null") (MS bef ("null" ++ rest) gs)
             (fun st' =>
                k (MS (ms_before st') (ms_rest st')
                      ((1, rev (firstn (length (ms_before st') - length bef)
                                       (ms_before st'))) :: ms_groups st')))
          = Some x).
  rewrite mt_lit_take. cbv beta. cbn [ms_rest ms_before ms_groups].
  rewrite consumed_text. exact H.
Qed.

Lemma optional_re_trailing_null (bef : text) :
  match_at optional_re bef (" | null" ++ [])
  = Some (RM " | null" [(1, "null" : text)]).
Proof.
  unfold optional_re. rewrite match_at_eq, mt_seq_eq. unfold ws.
  apply (mt_star_take isspace " " _ ("|" ++ " " ++ "null" ++ []));
    [reflexivity | reflexivity |].
  cbv beta. rewrite mt_seq_eq, (mt_lit_take "|"). cbv beta. rewrite mt_seq_eq.
  apply (mt_star_take isspace " " _ ("null" ++ []));
    [reflexivity | reflexivity |].
  cbv beta. apply sentinel_null.
  finish_match (" " ++ "|" ++ " " ++ "null") bef.
Qed.

Lemma delete_trailing_null (bef : text) :
  delete_from optional_re 0 bef (" | null" ++ []) = [].
Proof.
  change ((" | null" : text) ++ []) with (" "%char :: "| null" ++ []).
  rewrite (delete_match optional_re " " "| null" bef []
             (RM " | null" [(1, "null" : text)])).
  - reflexivity.
  - apply optional_re_trailing_null.
  - reflexivity.
Qed.

Lemma delete_one_branch_null (A : text) :
  plain_branch A = true -> re_delete optional_re (A ++ " | null") = A.
Proof.
  intros HA. unfold re_delete.
  rewrite <- (app_nil_r (" | null" : text)).
  rewrite delete_fail by (apply optional_re_fails_in; exact HA).
  rewrite delete_trailing_null. apply app_nil_r.
Qed.

Lemma strip_optional_trailing_null (X : text) (opt : bool) :
  strip X = X -> X <> [] ->
  strip_optional (X ++ " | null") opt
  = (strip (re_delete optional_re (X ++ " | null")), true).
Proof.
  intros Hs Hne. destruct X as [|c w]; [contradiction|].
  pose proof (stripped_head c w Hs) as Hc.
  set (t := (c :: w) ++ " | null").
  assert (t = ((c :: w) ++ " | nul") ++ ["l"%char]) as Et
      by (unfold t; rewrite <- app_assoc; reflexivity).
  assert (strip t = t) as Est.
  { apply strip_fixed; [exact Hc|]. rewrite Et, rev_app_distr. reflexivity. }
  assert (endswith "?" t = false) as Eq.
  { rewrite Et. apply (endswith_char_false []). discriminate. }
  unfold strip_optional. rewrite Est, Eq.
  assert (contains " | null" t = true) as En
      by (unfold t; apply contains_at_end).
  rewrite En, orb_true_r. reflexivity.
Qed.

Lemma convert_or_null self (A : text) (opt : bool) :
  plain_branch A = true -> endswith "?" A = false ->
  convert_type self (A ++ " | null") opt
  = convert_type self A false ++ ".optional()".
Proof.
  intros HA Hq.
  destruct (plain_branch_facts A HA) as (c & w & _ & _ & Ec & _ & Hs & _).
  assert (A <> []) as Hne by (rewrite Ec; discriminate).
  assert (strip_optional (A ++ " | null") opt = (A, true)) as E1.
  { rewrite strip_optional_trailing_null by assumption.
    rewrite delete_one_branch_null, Hs by exact HA. reflexivity. }
  assert (strip_optional A false = (A, false)) as E2.
  { apply strip_optional_plain; try assumption;
      apply plain_branch_no_marker; try assumption; simpl; auto. }
  destruct (convert_rules_total self (fun t' => convert_type self t' false) A)
    as [z Hz].
  rewrite (convert_type_rules self _ _ _ _ _ E1 Hz).
  rewrite (convert_type_rules self _ _ _ _ _ E2 Hz). reflexivity.
Qed.

(** *** Unions of plain branches *)

(** No optionality marker starts inside a text without bar that does
    not end in a space. *)
Lemma marker_not_in_branch (w l X : text) :
  ~ In "|"%char l ->
  match rev l with [] => True | z :: _ => z <> " "%char end ->
  contains (" | " ++ w) (l ++ X) = contains (" | " ++ w) X.
Proof.
  induction l as [|x l IH]; intros Hbar Hlast; [reflexivity|].
  cbn [app contains].
  assert (startswith (" | " ++ w) (x :: l ++ X) = false) as E.
  { unfold startswith. cbn [app list_ascii_of_string strip_prefix].
    destruct (Ascii.eqb_spec " " x) as [<-|]; [|reflexivity].
    destruct l as [|y l].
    - exfalso. apply Hlast. reflexivity.
    - cbn [app]. destruct (Ascii.eqb_spec "|" y) as [<-|]; [|reflexivity].
      exfalso. apply Hbar. right. left. reflexivity. }
  rewrite E. cbn [orb]. apply IH.
  - intros H. apply Hbar. right. exact H.
  - destruct l as [|y l]; [exact I|].
    cbn [rev] in Hlast |- *.
    destruct (rev l ++ [y]) as [|z r] eqn:Er.
    + destruct (rev l); discriminate Er.
    + cbn [app] in Hlast. exact Hlast.
Qed.

(** Nor at the separator before a branch that is no sentinel. *)
Lemma marker_not_at_separator (w : text) (c : ascii) (B : text) :
  c <> "|"%char -> startswith w (c :: B) = false ->
  contains (" | " ++ w) (" | " ++ c :: B) = contains (" | " ++ w) (c :: B).
Proof.
  intros Hc Hw.
  change (" | " ++ c :: B) with (" "%char :: "|"%char :: " "%char :: c :: B).
  cbn [contains].
  assert (startswith (" | " ++ w) (" "%char :: "|"%char :: " "%char :: c :: B)
          = false) as E1.
  { unfold startswith in *. cbn [app list_ascii_of_string strip_prefix].
    rewrite !Ascii.eqb_refl. exact Hw. }
  assert (startswith (" | " ++ w) ("|"%char :: " "%char :: c :: B) = false)
    as E2 by reflexivity.
  assert (startswith (" | " ++ w) (" "%char :: c :: B) = false) as E3.
  { unfold startswith. cbn [app list_ascii_of_string strip_prefix].
    rewrite Ascii.eqb_refl.
    destruct (Ascii.eqb_spec "|" c) as [<-|]; [|reflexivity].
    exfalso. apply Hc. reflexivity. }
  rewrite E1, E2, E3. reflexivity.
Qed.

Lemma branch_last_not_space (l : text) :
  plain_branch l = true ->
  match rev l with [] => True | z :: _ => z <> " "%char end.
Proof.
  intros H.
  destruct (plain_branch_facts l H) as (_ & _ & s0 & z & _ & Ez & _ & _ & _ & Hz).
  rewrite Ez, rev_app_distr. cbn. intros ->. discriminate Hz.
Qed.

Lemma join_cons2 (sep a b : text) (ls : list text) :
  join sep (a :: b :: ls) = a ++ sep ++ join sep (b :: ls).
Proof. reflexivity. Qed.

Lemma join_head (sep l : text) (ls : list text) :
  exists X, join sep (l :: ls) = l ++ X
            /\ (X = [] \/ exists Y, X = sep ++ Y).
Proof.
  destruct ls as [|b ls].
  - exists []. split; [symmetry; apply app_nil_r | left; reflexivity].
  - exists (sep ++ join sep (b :: ls)). split; [reflexivity|].
    right. eexists. reflexivity.
Qed.

Lemma branches_no_marker (w : text) (ls : list text) :
  ~ In " "%char w -> w <> [] ->
  forallb plain_branch ls = true ->
  forallb (fun l => negb (startswith w l)) ls = true ->
  contains (" | " ++ w) (join " | " ls) = false.
Proof.
  intros Hsp Hne. induction ls as [|l ls IH]; intros Hp Hs; [reflexivity|].
  cbn [forallb] in Hp, Hs. apply andb_true_iff in Hp, Hs.
  destruct Hp as [Hl Hp], Hs as [_ Hs].
  destruct ls as [|b ls].
  - cbn [join]. apply plain_branch_no_marker; [exact Hl|]. right. left.
    reflexivity.
  - rewrite join_cons2.
    destruct (plain_branch_facts l Hl) as (_ & _ & _ & _ & _ & _ & _ & Hbar & _).
    rewrite marker_not_in_branch;
      [|exact Hbar | apply branch_last_not_space; exact Hl].
    assert (plain_branch b = true /\ negb (startswith w b) = true) as [Hb Hwb].
    { cbn [forallb] in Hp, Hs. apply andb_true_iff in Hp, Hs. tauto. }
    destruct (plain_branch_facts b Hb) as (c & r & _ & _ & Eb & _ & _ & Hbb & _).
    destruct (join_head " | " b ls) as (X & EX & HX).
    assert (exists B, join " | " (b :: ls) = c :: B
                      /\ startswith w (c :: B) = startswith w b)
      as (B & EB & EW).
    { exists (r ++ X). split; [rewrite EX, Eb; reflexivity|].
      change (c :: r ++ X) with ((c :: r) ++ X). rewrite <- Eb.
      apply startswith_app_sep. destruct HX as [->|[Y ->]]; [exact I|].
      exact Hsp. }
    rewrite EB. rewrite marker_not_at_separator.
    + rewrite <- EB. apply IH; assumption.
    + intros ->. apply Hbb. rewrite Eb. left. reflexivity.
    + rewrite EW. apply negb_true_iff. exact Hwb.
Qed.

(** Splitting the joined branches at the bars and stripping the pieces
    gives the branches back. *)
Lemma split_join_branches :
  forall ls sp, ls <> [] -> forallb plain_branch ls = true ->
    forallb isspace sp = true ->
    map strip (split "|" (sp ++ join " | " ls)) = ls.
Proof.
  induction ls as [|l ls IH]; intros sp Hne Hp Hsp; [contradiction|].
  cbn [forallb] in Hp. apply andb_true_iff in Hp. destruct Hp as [Hl Hp].
  destruct (plain_branch_facts l Hl) as (_ & _ & _ & _ & _ & _ & Hst & Hbar & _).
  assert (~ In "|"%char sp) as Hspb.
  { intros H. rewrite forallb_forall in Hsp. discriminate (Hsp _ H). }
  destruct ls as [|b ls].
  - cbn [join]. rewrite split_none.
    + cbn [map]. f_equal.
      assert (strip (sp ++ l ++ []) = strip l) as E
          by (apply strip_pad; [exact Hsp | reflexivity]).
      rewrite app_nil_r in E. rewrite E. exact Hst.
    + intros H. apply in_app_or in H. destruct H; contradiction.
  - rewrite join_cons2.
    assert (sp ++ l ++ " | " ++ join " | " (b :: ls)
            = (sp ++ l ++ " ") ++ "|"%char :: (" " ++ join " | " (b :: ls)))
      as E by (repeat rewrite <- app_assoc; reflexivity).
    rewrite E, split_app.
    + cbn [map]. f_equal.
      * rewrite strip_pad by (try exact Hsp; reflexivity). exact Hst.
      * apply IH; [discriminate | exact Hp | reflexivity].
    + intros H. apply in_app_or in H. destruct H as [H|H]; [contradiction|].
      apply in_app_or in H. destruct H as [H|[H|[]]];
        [contradiction | discriminate H].
Qed.

Lemma join_branches_last :
  forall ls, ls <> [] -> forallb plain_branch ls = true ->
    exists s z, join " | " ls = s ++ [z] /\ isspace z = false.
Proof.
  induction ls as [|l ls IH]; intros Hne Hp; [contradiction|].
  cbn [forallb] in Hp. apply andb_true_iff in Hp. destruct Hp as [Hl Hp].
  destruct ls as [|b ls].
  - destruct (plain_branch_facts l Hl)
      as (_ & _ & s0 & z & _ & Ez & _ & _ & _ & Hz).
    exists s0, z. split; [exact Ez | exact Hz].
  - destruct (IH ltac:(discriminate) Hp) as (s & z & E & Hz).
    exists (l ++ " | " ++ s), z. split; [|exact Hz].
    rewrite join_cons2, E. repeat rewrite <- app_assoc. reflexivity.
Qed.

Lemma join_branches_stripped (ls : list text) :
  ls <> [] -> forallb plain_branch ls = true ->
  strip (join " | " ls) = join " | " ls.
Proof.
  intros Hne Hp. apply strip_fixed.
  - destruct ls as [|l ls]; [contradiction|].
    cbn [forallb] in Hp. apply andb_true_iff in Hp. destruct Hp as [Hl _].
    destruct (plain_branch_facts l Hl)
      as (c & r & _ & _ & El & _ & _ & _ & Hc & _).
    destruct (join_head " | " l ls) as (X & EX & _).
    rewrite EX, El. exact Hc.
  - destruct (join_branches_last ls Hne Hp) as (s0 & z & E & Hz).
    rewrite E, rev_app_distr. exact Hz.
Qed.

(** A union of plain branches converts branch by branch. *)
Lemma convert_union_branches self (ls : list text) (opt : bool) :
  forallb plain_branch ls = true ->
  forallb (fun l => negb (startswith "undefined" l)) ls = true ->
  forallb (fun l => negb (startswith "null" l)) ls = true ->
  endswith "?" (join " | " ls) = false ->
  which_rule self (join " | " ls) = R_union ->
  convert_type self (join " | " ls) opt
  = add_optional opt
      ("z.union(["
         ++ join ", " (map (fun b => convert_type self b false) ls) ++ "])").
Proof.
  intros Hp Hu Hn Hq Hr.
  assert (ls <> []) as Hne.
  { intros ->. cbn [join] in Hr. unfold which_rule in Hr.
    assert (contains " | " [] = false) as E by reflexivity.
    rewrite E in Hr.
    repeat match type of Hr with
           | context [match ?c with _ => _ end] =>
               destruct c eqn:?; try discriminate Hr
           end. }
  assert (strip_optional (join " | " ls) opt = (join " | " ls, opt)) as Ho.
  { apply strip_optional_plain.
    - apply join_branches_stripped; assumption.
    - exact Hq.
    - apply (branches_no_marker "undefined"); try assumption.
      + cbn. intros H. repeat (destruct H as [H|H]; [discriminate H|]).
        destruct H.
      + discriminate.
    - apply (branches_no_marker "null"); try assumption.
      + cbn. intros H. repeat (destruct H as [H|H]; [discriminate H|]).
        destruct H.
      + discriminate. }
  apply (convert_type_rules _ _ _ _ _ _ Ho).
  rewrite rules_union by exact Hr.
  pose proof (split_join_branches ls [] Hne Hp eq_refl) as Es.
  cbn [app] in Es. rewrite Es, mapM_Some. reflexivity.
Qed.

(** ** Declarations with the [export] keyword *)

Lemma strip_prefix_app_None (kw v a b : text) :
  length kw <= length (v ++ a) ->
  strip_prefix kw (v ++ a) = None -> strip_prefix kw (v ++ a ++ b) = None.
Proof.
  rewrite app_assoc. generalize (v ++ a) as s. clear v a.
  induction kw as [|x kw IH]; intros s Hl H; [discriminate H|].
  destruct s as [|y s]; [cbn in Hl; lia|].
  cbn in *. destruct (Ascii.eqb x y); [|reflexivity].
  apply IH; [lia | exact H].
Qed.

Lemma keyword_not_in_export {R} (kw rest : text) :
  clear_of_export kw = true ->
  forall u v bef gs (k : mstate -> option R),
    ("export " : text) = u ++ v -> v <> [] ->
    mt (Lit kw) (MS bef (v ++ kw ++ rest) gs) k = None.
Proof.
  intros H u v bef gs k E Hv. rewrite mt_lit. cbn [ms_rest].
  assert (In v [ "export " : text; "xport " : text; "port " : text;
                 "ort " : text; "rt " : text; "t " : text; " " : text ]) as Hin.
  { cbn [list_ascii_of_string] in E.
    repeat (destruct u as [|? u];
            [cbn in E; subst v; cbn; auto 10
            | cbn in E; injection E as _ E]).
    destruct v; [contradiction | destruct u; discriminate E]. }
  unfold clear_of_export in H. rewrite forallb_forall in H.
  specialize (H v Hin). apply negb_true_iff in H. unfold startswith in H.
  rewrite strip_prefix_app_None; [reflexivity | |].
  - rewrite length_app. lia.
  - destruct (strip_prefix kw (v ++ kw)); [discriminate H | reflexivity].
Qed.

Lemma exported_name_search (kw name rest : text) :
  clear_of_export kw = true -> is_ident name = true -> stops isword rest ->
  re_search (Lit kw ;; ws1 ;; Grp 1 word)
            ("export " ++ kw ++ " " ++ name ++ rest)
  = Some (RM (kw ++ " " ++ name) [(1, name)]).
Proof.
  intros Hkw Hn Hs. unfold re_search. rewrite search_from_skip.
  - apply search_from_here. apply keyword_name_match; assumption.
  - intros u v E Hv. rewrite match_at_eq, mt_seq_eq.
    apply (keyword_not_in_export kw (" " ++ name ++ rest) Hkw u v); assumption.
Qed.

Lemma exported_body_search (kw name body : text) :
  ~ In "{"%char kw -> is_ident name = true -> ~ In "}"%char body ->
  re_search body_re ("export " ++ kw ++ " " ++ name ++ " {" ++ body ++ "}")
  = re_search body_re (kw ++ " " ++ name ++ " {" ++ body ++ "}").
Proof.
  intros Hk Hn Hb.
  assert (~ In "{"%char (("export " ++ kw) ++ " " ++ name ++ " ")) as Hpre.
  { apply keyword_no_brace; [|exact Hn]. intros H. apply in_app_or in H.
    destruct H as [H|H]; [|contradiction]. cbn in H.
    repeat (destruct H as [H|H]; [discriminate H|]). destruct H. }
  destruct body as [|c body].
  - replace ("export " ++ kw ++ " " ++ name ++ " {" ++ [] ++ "}")
      with ((("export " ++ kw) ++ " " ++ name ++ " ") ++ "{}")
      by (repeat rewrite <- app_assoc; reflexivity).
    replace (kw ++ " " ++ name ++ " {" ++ [] ++ "}")
      with ((kw ++ " " ++ name ++ " ") ++ "{}")
      by (repeat rewrite <- app_assoc; reflexivity).
    rewrite !body_search_empty; [reflexivity | | exact Hpre].
    apply keyword_no_brace; assumption.
  - rewrite (keyword_body_search kw name (c :: body));
      [|assumption | assumption | discriminate | assumption].
    replace ("export " ++ kw ++ " " ++ name ++ " {" ++ (c :: body) ++ "}")
      with ((("export " ++ kw) ++ " " ++ name ++ " ") ++ "{" ++ (c :: body)
              ++ "}" ++ [])
      by (repeat rewrite <- app_assoc; reflexivity).
    apply body_match; [exact Hpre | discriminate | exact Hb].
Qed.

Lemma no_brace_in_interface : ~ In "{"%char ("interface" : text).
Proof.
  intros H. cbn in H. repeat (destruct H as [H|H]; [discriminate H|]).
  destruct H.
Qed.

Lemma no_brace_in_enum : ~ In "{"%char ("enum" : text).
Proof.
  intros H. cbn in H. repeat (destruct H as [H|H]; [discriminate H|]).
  destruct H.
Qed.

(** The parsers read an exported declaration as the bare one. *)
Lemma parse_interface_exported (name body : text) :
  is_ident name = true -> ~ In "}"%char body ->
  parse_interface ("export " ++ "interface " ++ name ++ " {" ++ body ++ "}")
  = parse_interface ("interface " ++ name ++ " {" ++ body ++ "}").
Proof.
  intros Hn Hb. unfold parse_interface.
  assert (re_search interface_name_re
            ("export " ++ "interface " ++ name ++ " {" ++ body ++ "}")
          = Some (RM ("interface" ++ " " ++ name) [(1, name)])) as E1.
  { apply (exported_name_search "interface" name (" {" ++ body ++ "}"));
      [reflexivity | exact Hn | reflexivity]. }
  assert (re_search interface_name_re
            ("interface " ++ name ++ " {" ++ body ++ "}")
          = Some (RM ("interface" ++ " " ++ name) [(1, name)])) as E2.
  { apply search_from_here.
    apply (keyword_name_match "interface" name (" {" ++ body ++ "}") []);
      [exact Hn | reflexivity]. }
  rewrite E1, E2.
  assert (re_search body_re
            ("export " ++ "interface " ++ name ++ " {" ++ body ++ "}")
          = re_search body_re ("interface " ++ name ++ " {" ++ body ++ "}"))
    as E3.
  { apply (exported_body_search "interface" name body);
      [exact no_brace_in_interface | exact Hn | exact Hb]. }
  rewrite E3. reflexivity.
Qed.

Lemma parse_enum_exported (name body : text) :
  is_ident name = true -> ~ In "}"%char body ->
  parse_enum ("export " ++ "enum " ++ name ++ " {" ++ body ++ "}")
  = parse_enum ("enum " ++ name ++ " {" ++ body ++ "}").
Proof.
  intros Hn Hb. unfold parse_enum.
  assert (re_search enum_name_re
            ("export " ++ "enum " ++ name ++ " {" ++ body ++ "}")
          = Some (RM ("enum" ++ " " ++ name) [(1, name)])) as E1.
  { apply (exported_name_search "enum" name (" {" ++ body ++ "}"));
      [reflexivity | exact Hn | reflexivity]. }
  assert (re_search enum_name_re ("enum " ++ name ++ " {" ++ body ++ "}")
          = Some (RM ("enum" ++ " " ++ name) [(1, name)])) as E2.
  { apply search_from_here.
    apply (keyword_name_match "enum" name (" {" ++ body ++ "}") []);
      [exact Hn | reflexivity]. }
  rewrite E1, E2.
  assert (re_search body_re
            ("export " ++ "enum " ++ name ++ " {" ++ body ++ "}")
          = re_search body_re ("enum " ++ name ++ " {" ++ body ++ "}")) as E3.
  { apply (exported_body_search "enum" name body);
      [exact no_brace_in_enum | exact Hn | exact Hb]. }
  rewrite E3. reflexivity.
Qed.

(** The whole of an exported declaration in braces is one match. *)
Lemma braces_match_exported (kw N body bef : text) :
  match kw with c :: _ => isspace c = false | [] => False end ->
  is_ident N = true -> ~ In "}"%char body ->
  match_at (braces kw) bef
           ("export " ++ kw ++ " " ++ N ++ " {" ++ body ++ "}")
  = Some (RM ("export " ++ kw ++ " " ++ N ++ " {" ++ body ++ "}") []).
Proof.
  intros Hkw HN Hb.
  destruct (ident_cons N HN) as (c & w & -> & Hc & Hw).
  change ("export " ++ kw ++ " " ++ (c :: w) ++ " {" ++ body ++ "}")
    with ("export" ++ " " ++ kw ++ " " ++ (c :: w) ++ " " ++ "{" ++ body
            ++ "}" ++ []).
  unfold export_opt. rewrite match_at_eq, mt_seq_eq.
  apply mt_opt_take. rewrite mt_seq_eq, (mt_lit_take "export"). cbv beta.
  unfold ws1.
  apply (mt_plus_take isspace " "%char [] _
           (kw ++ " " ++ (c :: w) ++ " " ++ "{" ++ body ++ "}" ++ []));
    [reflexivity | reflexivity | |].
  { destruct kw; [contradiction | exact Hkw]. }
  cbv beta. rewrite mt_seq_eq, (mt_lit_take kw). cbv beta. rewrite mt_seq_eq.
  apply (mt_plus_take isspace " "%char [] _
           ((c :: w) ++ " " ++ "{" ++ body ++ "}" ++ []));
    [reflexivity | reflexivity | exact (word_not_space c Hc) |].
  cbv beta. rewrite mt_seq_eq. unfold word.
  apply (mt_plus_take isword c w _ (" " ++ "{" ++ body ++ "}" ++ []));
    [assumption | assumption | reflexivity |].
  cbv beta. rewrite mt_seq_eq. unfold ws.
  apply (mt_star_take isspace " " _ ("{" ++ body ++ "}" ++ []));
    [reflexivity | reflexivity |].
  cbv beta. rewrite mt_seq_eq, (mt_lit_take "{"). cbv beta. rewrite mt_seq_eq.
  apply (mt_star_take (notchr "}") body _ ("}" ++ []));
    [apply not_in_notchr; exact Hb | reflexivity |].
  cbv beta. rewrite (mt_lit_take "}").
  finish_match ("export" ++ " " ++ kw ++ " " ++ (c :: w) ++ " " ++ "{" ++ body
                  ++ "}") bef.
Qed.

Lemma finditer_braces_exported (kw N body : text) :
  match kw with c :: _ => isspace c = false | [] => False end ->
  is_ident N = true -> ~ In "}"%char body ->
  finditer (braces kw) ("export " ++ kw ++ " " ++ N ++ " {" ++ body ++ "}")
  = [RM ("export " ++ kw ++ " " ++ N ++ " {" ++ body ++ "}") []].
Proof.
  intros Hkw HN Hb.
  apply (finditer_one (eq "{"%char)).
  - apply braces_needs.
  - apply braces_match_exported; assumption.
  - reflexivity.
  - discriminate.
Qed.

Lemma extract_interface_exported self (N body : text) (fields : list field) :
  is_ident N = true -> ~ In "}"%char body ->
  parse_interface ("interface " ++ N ++ " {" ++ body ++ "}") = Ok (N, fields) ->
  interfaces
    (extract self ("export " ++ "interface " ++ N ++ " {" ++ body ++ "}"))
  = dict_set N ("export " ++ "interface " ++ N ++ " {" ++ body ++ "}")
      (interfaces self).
Proof.
  intros HN Hb Hp. unfold extract.
  rewrite interfaces_add_enums, interfaces_add_types.
  assert (finditer interface_pattern
            ("export " ++ "interface " ++ N ++ " {" ++ body ++ "}")
          = [RM ("export " ++ "interface " ++ N ++ " {" ++ body ++ "}") []])
    as E.
  { apply (finditer_braces_exported "interface" N body);
      [reflexivity | assumption..]. }
  rewrite E. cbn [fold_left]. unfold add_interface. cbn [m_text].
  rewrite parse_interface_exported, Hp by assumption. reflexivity.
Qed.

Lemma extract_enum_exported self (N body : text) (values : list text) :
  is_ident N = true -> ~ In "}"%char body ->
  parse_enum ("enum " ++ N ++ " {" ++ body ++ "}") = Ok (N, values) ->
  enums (extract self ("export " ++ "enum " ++ N ++ " {" ++ body ++ "}"))
  = dict_set N values (enums self).
Proof.
  intros HN Hb Hp. unfold extract.
  assert (finditer enum_pattern
            ("export " ++ "enum " ++ N ++ " {" ++ body ++ "}")
          = [RM ("export " ++ "enum " ++ N ++ " {" ++ body ++ "}") []]) as E.
  { apply (finditer_braces_exported "enum" N body);
      [reflexivity | assumption..]. }
  rewrite E. cbn [fold_left]. unfold add_enum. cbn [m_text].
  rewrite parse_enum_exported, Hp by assumption.
  cbn [enums]. rewrite enums_add_types, enums_add_interfaces. reflexivity.
Qed.

Lemma extract_interface_text_exported self (N : text) (ds : list decl) :
  is_ident N = true -> forallb decl_ok ds = true ->
  interfaces (extract self ("export " ++ interface_text N ds))
  = dict_set N ("export " ++ interface_text N ds) (interfaces self)
  /\ parse_interface ("export " ++ interface_text N ds)
     = Ok (N, map decl_field ds).
Proof.
  intros HN Hds. pose proof (parse_interface_text N ds HN Hds) as Hp.
  rewrite interface_text_body in *.
  pose proof (lines_no_brace ds Hds) as Hb. split.
  - apply (extract_interface_exported self N _ (map decl_field ds) HN Hb Hp).
  - rewrite <- Hp. apply parse_interface_exported; assumption.
Qed.

Lemma extract_enum_text_exported self (name : text) (ms : list member) :
  is_ident name = true -> forallb member_ok ms = true ->
  enums (extract self ("export " ++ enum_text name ms))
  = dict_set name (map member_value ms) (enums self).
Proof.
  intros HN Hms. pose proof (parse_enum_text name ms HN Hms) as Hp.
  rewrite enum_text_body in *.
  apply (extract_enum_exported self name _ (map member_value ms) HN); [|exact Hp].
  apply members_no_brace. exact Hms.
Qed.

(** [alias_re] on an alias declaration, wherever it stands. *)
Lemma alias_match (N rhs bef : text) :
  is_ident N = true -> rhs <> [] -> strip rhs = rhs -> ~ In ";"%char rhs ->
  match_at alias_re bef ("type" ++ " " ++ N ++ " = " ++ rhs ++ ";")
  = Some (RM ("type " ++ N ++ " = " ++ rhs ++ ";") [(2, rhs); (1, N)]).
Proof.
  intros HN Hne Hs Hsemi.
  destruct (ident_cons N HN) as (c & w & -> & Hc & Hw).
  destruct (text_last rhs Hne) as (r0 & z & Ez).
  assert (isspace z = false) as Hz
      by (apply (stripped_last r0); rewrite <- Ez; exact Hs).
  destruct rhs as [|d r]; [contradiction|].
  pose proof (stripped_head d r Hs) as Hd.
  change ("type" ++ " " ++ (c :: w) ++ " = " ++ (d :: r) ++ ";")
    with ("type" ++ " " ++ (c :: w) ++ " " ++ "=" ++ " " ++ (d :: r) ++ ";" ++ []).
  change ("type " ++ (c :: w) ++ " = " ++ (d :: r) ++ ";")
    with ("type" ++ " " ++ (c :: w) ++ " " ++ "=" ++ " " ++ (d :: r) ++ ";").
  unfold alias_re. rewrite match_at_eq, mt_seq_eq, (mt_lit_take "type").
  cbv beta. rewrite mt_seq_eq. unfold ws1.
  apply (mt_plus_take isspace " "%char [] _
           ((c :: w) ++ " " ++ "=" ++ " " ++ (d :: r) ++ ";" ++ []));
    [reflexivity | reflexivity | exact (word_not_space c Hc) |].
  cbv beta. rewrite mt_seq_eq. unfold word.
  apply (mt_grp_plus_take 1 isword c w _
           (" " ++ "=" ++ " " ++ (d :: r) ++ ";" ++ []));
    [assumption | assumption | reflexivity |].
  cbv beta. rewrite mt_seq_eq. unfold ws.
  apply (mt_star_take isspace " " _ ("=" ++ " " ++ (d :: r) ++ ";" ++ []));
    [reflexivity | reflexivity |].
  cbv beta. rewrite mt_seq_eq, (mt_lit_take "="). cbv beta. rewrite mt_seq_eq.
  apply (mt_star_take isspace " " _ ((d :: r) ++ ";" ++ []));
    [reflexivity | exact Hd |].
  cbv beta. rewrite mt_seq_eq.
  apply (mt_grp_lazy_take 2 dotall d r _ (";" ++ []));
    [reflexivity | apply forallb_forall; reflexivity | |].
  - intros u v Euv Hv. cbv beta. rewrite mt_seq_eq.
    destruct v as [|x v]; [contradiction|].
    rewrite mt_opt_skip.
    2:{ apply mt_lit_fail. intros ->. apply Hsemi. right. rewrite Euv.
        apply in_or_app. right. simpl; auto. }
    rewrite mt_seq_eq. apply mt_star_none. intros u2 v2 E2 Hu2. cbv beta.
    apply mt_eos_fail.
    assert (exists s, (x :: v) ++ ";" ++ [] = s ++ [z; ";"%char]) as [s Es].
    { assert (d :: r = (d :: u) ++ x :: v) as E3 by (rewrite Euv; reflexivity).
      rewrite Ez in E3.
      destruct (suffix_split r0 (d :: u) (x :: v) z E3 ltac:(discriminate))
        as (v' & Ev' & _).
      exists v'. rewrite Ev', <- app_assoc. reflexivity. }
    cbn [ms_rest] in E2. rewrite Es in E2.
    exact (spaces_before_last u2 v2 s z ";" Hu2 Hz (eq_sym E2)).
  - cbv beta. rewrite mt_seq_eq. apply mt_opt_take.
    rewrite (mt_lit_take ";"). cbv beta. rewrite mt_seq_eq.
    apply (mt_star_take isspace [] _ []); [reflexivity | exact I |].
    cbv beta. cbn [mt ms_rest].
    finish_match ("type" ++ " " ++ (c :: w) ++ " " ++ "=" ++ " " ++ (d :: r) ++ ";")
                 bef.
Qed.

Lemma parse_type_alias_exported (N rhs : text) :
  is_ident N = true -> rhs <> [] -> strip rhs = rhs -> ~ In ";"%char rhs ->
  parse_type_alias ("export " ++ "type " ++ N ++ " = " ++ rhs ++ ";")
  = Ok (N, rhs).
Proof.
  intros HN Hne Hs Hsemi.
  pose proof (parse_type_alias_text N rhs HN Hne Hs Hsemi) as Hp.
  unfold parse_type_alias in *.
  assert (re_search alias_re ("type " ++ N ++ " = " ++ rhs ++ ";")
          = Some (RM ("type " ++ N ++ " = " ++ rhs ++ ";") [(2, rhs); (1, N)]))
    as E1.
  { apply search_from_here. apply (alias_match N rhs []); assumption. }
  assert (re_search alias_re
            ("export " ++ "type " ++ N ++ " = " ++ rhs ++ ";")
          = Some (RM ("type " ++ N ++ " = " ++ rhs ++ ";") [(2, rhs); (1, N)]))
    as E2.
  { unfold re_search.
    change ("export " ++ "type " ++ N ++ " = " ++ rhs ++ ";")
      with ("export " ++ "type" ++ " " ++ N ++ " = " ++ rhs ++ ";").
    rewrite search_from_skip.
    - apply search_from_here. apply alias_match; assumption.
    - intros u v E Hv. unfold alias_re. rewrite match_at_eq, mt_seq_eq.
      apply (keyword_not_in_export "type" (" " ++ N ++ " = " ++ rhs ++ ";")
               eq_refl u v); assumption. }
  rewrite E1 in Hp. rewrite E2. exact Hp.
Qed.

Lemma type_pattern_match_exported (N rhs bef : text) :
  is_ident N = true -> rhs <> [] -> strip rhs = rhs -> ~ In ";"%char rhs ->
  match_at type_pattern bef ("export " ++ "type " ++ N ++ " = " ++ rhs ++ ";")
  = Some (RM ("export " ++ "type " ++ N ++ " = " ++ rhs ++ ";") []).
Proof.
  intros HN Hne Hs Hsemi.
  destruct (ident_cons N HN) as (c & w & -> & Hc & Hw).
  destruct rhs as [|d r]; [contradiction|].
  pose proof (stripped_head d r Hs) as Hd.
  pose proof (not_in_notchr ";" (d :: r) Hsemi) as Hr.
  simpl in Hr. apply andb_true_iff in Hr. destruct Hr as [Hd' Hr].
  change ("export " ++ "type " ++ (c :: w) ++ " = " ++ (d :: r) ++ ";")
    with ("export" ++ " " ++ "type" ++ " " ++ (c :: w) ++ " " ++ "=" ++ " "
            ++ (d :: r) ++ ";" ++ []).
  unfold type_pattern, export_opt. rewrite match_at_eq, mt_seq_eq.
  apply mt_opt_take. rewrite mt_seq_eq, (mt_lit_take "export"). cbv beta.
  unfold ws1.
  apply (mt_plus_take isspace " "%char [] _
           ("type" ++ " " ++ (c :: w) ++ " " ++ "=" ++ " " ++ (d :: r) ++ ";"
              ++ []));
    [reflexivity | reflexivity | reflexivity |].
  cbv beta.
  rewrite mt_seq_eq, (mt_lit_take "type"). cbv beta. rewrite mt_seq_eq.
  apply (mt_plus_take isspace " "%char [] _
           ((c :: w) ++ " " ++ "=" ++ " " ++ (d :: r) ++ ";" ++ []));
    [reflexivity | reflexivity | exact (word_not_space c Hc) |].
  cbv beta. rewrite mt_seq_eq. unfold word.
  apply (mt_plus_take isword c w _ (" " ++ "=" ++ " " ++ (d :: r) ++ ";" ++ []));
    [assumption | assumption | reflexivity |].
  cbv beta. rewrite mt_seq_eq. unfold ws.
  apply (mt_star_take isspace " " _ ("=" ++ " " ++ (d :: r) ++ ";" ++ []));
    [reflexivity | reflexivity |].
  cbv beta. rewrite mt_seq_eq, (mt_lit_take "="). cbv beta. rewrite mt_seq_eq.
  apply (mt_star_take isspace " " _ ((d :: r) ++ ";" ++ []));
    [reflexivity | exact Hd |].
  cbv beta. rewrite mt_seq_eq.
  apply (mt_plus_take (notchr ";") d r _ (";" ++ []));
    [assumption | assumption | reflexivity |].
  cbv beta. apply mt_opt_take. rewrite (mt_lit_take ";").
  finish_match ("export" ++ " " ++ "type" ++ " " ++ (c :: w) ++ " " ++ "=" ++ " "
                  ++ (d :: r) ++ ";") bef.
Qed.

Lemma type_pattern_needs_equals : needs (eq "="%char) type_pattern.
Proof. cbn. do 5 right. left. constructor. reflexivity. Qed.

(** The alias registry after an alias declaration alone in the source,
    exported or not. *)
Lemma extract_alias self (N rhs : text) :
  is_ident N = true -> rhs <> [] -> strip rhs = rhs -> ~ In ";"%char rhs ->
  types (extract self ("type " ++ N ++ " = " ++ rhs ++ ";"))
  = dict_set N rhs (types self)
  /\ types (extract self ("export " ++ "type " ++ N ++ " = " ++ rhs ++ ";"))
     = dict_set N rhs (types self).
Proof.
  intros HN Hne Hs Hsemi. unfold extract. rewrite !types_add_enums. split.
  - rewrite (finditer_one (eq "="%char) type_pattern _
               (RM ("type " ++ N ++ " = " ++ rhs ++ ";") [])).
    + cbn [fold_left]. unfold add_type. cbn [m_text].
      rewrite parse_type_alias_text by assumption.
      cbn [types]. rewrite types_add_interfaces. reflexivity.
    + apply type_pattern_needs_equals.
    + apply type_pattern_match; assumption.
    + reflexivity.
    + discriminate.
  - rewrite (finditer_one (eq "="%char) type_pattern _
               (RM ("export " ++ "type " ++ N ++ " = " ++ rhs ++ ";") [])).
    + cbn [fold_left]. unfold add_type. cbn [m_text].
      rewrite parse_type_alias_exported by assumption.
      cbn [types]. rewrite types_add_interfaces. reflexivity.
    + apply type_pattern_needs_equals.
    + apply type_pattern_match_exported; assumption.
    + reflexivity.
    + discriminate.
Qed.

(** ** Several declarations of one kind, one after the other *)

(** A scan over texts joined by line breaks, each of them one match
    wherever it stands, finds them one by one. *)
Lemma scan_joined (P : ascii -> Prop) (r : regex) :
  needs P r ->
  (forall bef rest, match_at r bef (nl ++ rest) = None) ->
  forall Ds,
    (forall D, In D Ds ->
       D <> [] /\ forall bef rest, match_at r bef (D ++ rest) = Some (RM D [])) ->
    forall bef, scan r 0 bef (join nl Ds) = map (fun D => RM D []) Ds.
Proof.
  intros N Hnl. induction Ds as [|D Ds IH]; intros H bef.
  - cbn [join map]. apply (scan_needs P r N). intros X. inversion X.
  - destruct (H D (or_introl eq_refl)) as [Hne HD].
    destruct Ds as [|D2 Ds].
    + cbn [join map].
      assert (scan r 0 bef (D ++ []) = RM D [] :: scan r 0 (rev D ++ bef) [])
        as E by (apply scan_match_text; [apply HD | reflexivity | exact Hne]).
      rewrite app_nil_r in E. rewrite E.
      rewrite (scan_needs P r N) by (intros X; inversion X). reflexivity.
    + rewrite join_cons2.
      rewrite (scan_match_text r D bef _ (RM D []));
        [|apply HD | reflexivity | exact Hne].
      rewrite (scan_fail r nl).
      * cbn [map]. f_equal. apply IH. intros D' HD'. apply H. right. exact HD'.
      * intros u v E Hv. destruct u as [|a u].
        -- cbn in E. subst v. apply Hnl.
        -- exfalso. apply Hv. cbn in E. injection E as _ E.
           destruct u; [symmetry; exact E | discriminate E].
Qed.

Lemma braces_match_rest (kw N body bef rest : text) :
  (forall tail, strip_prefix "export" (kw ++ tail) = None) ->
  is_ident N = true -> ~ In "}"%char body ->
  match_at (braces kw) bef
           ((kw ++ " " ++ N ++ " {" ++ body ++ "}") ++ rest)
  = Some (RM (kw ++ " " ++ N ++ " {" ++ body ++ "}") []).
Proof.
  intros Hexp HN Hb.
  destruct (ident_cons N HN) as (c & w & -> & Hc & Hw).
  repeat rewrite <- app_assoc.
  change (kw ++ " " ++ (c :: w) ++ " {" ++ body ++ "}" ++ rest)
    with (kw ++ " " ++ (c :: w) ++ " " ++ "{" ++ body ++ "}" ++ rest).
  unfold export_opt. rewrite match_at_eq, mt_seq_eq.
  rewrite mt_opt_skip.
  2:{ rewrite mt_seq_eq, mt_lit. cbn [ms_rest]. rewrite Hexp. reflexivity. }
  rewrite mt_seq_eq, (mt_lit_take kw). cbv beta. rewrite mt_seq_eq.
  unfold ws1.
  apply (mt_plus_take isspace " "%char [] _
           ((c :: w) ++ " " ++ "{" ++ body ++ "}" ++ rest));
    [reflexivity | reflexivity | exact (word_not_space c Hc) |].
  cbv beta. rewrite mt_seq_eq. unfold word.
  apply (mt_plus_take isword c w _ (" " ++ "{" ++ body ++ "}" ++ rest));
    [assumption | assumption | reflexivity |].
  cbv beta. rewrite mt_seq_eq. unfold ws.
  apply (mt_star_take isspace " " _ ("{" ++ body ++ "}" ++ rest));
    [reflexivity | reflexivity |].
  cbv beta. rewrite mt_seq_eq, (mt_lit_take "{"). cbv beta. rewrite mt_seq_eq.
  apply (mt_star_take (notchr "}") body _ ("}" ++ rest));
    [apply not_in_notchr; exact Hb | reflexivity |].
  cbv beta. rewrite (mt_lit_take "}").
  finish_match (kw ++ " " ++ (c :: w) ++ " " ++ "{" ++ body ++ "}") bef.
Qed.

Lemma braces_fail_at_newline (kw bef rest : text) :
  match kw with c :: _ => isspace c = false | [] => False end ->
  match_at (braces kw) bef (nl ++ rest) = None.
Proof.
  intros Hkw. destruct kw as [|c kw]; [contradiction|].
  unfold export_opt. rewrite match_at_eq, mt_seq_eq.
  rewrite mt_opt_skip.
  - rewrite mt_seq_eq. apply mt_lit_fail. intros E. rewrite <- E in Hkw.
    discriminate Hkw.
  - rewrite mt_seq_eq. apply (mt_lit_fail "e" "xport"). discriminate.
Qed.

Lemma type_pattern_match_rest (N rhs bef rest : text) :
  is_ident N = true -> rhs <> [] -> strip rhs = rhs -> ~ In ";"%char rhs ->
  match_at type_pattern bef (("type " ++ N ++ " = " ++ rhs ++ ";") ++ rest)
  = Some (RM ("type " ++ N ++ " = " ++ rhs ++ ";") []).
Proof.
  intros HN Hne Hs Hsemi.
  destruct (ident_cons N HN) as (c & w & -> & Hc & Hw).
  destruct rhs as [|d r]; [contradiction|].
  pose proof (stripped_head d r Hs) as Hd.
  pose proof (not_in_notchr ";" (d :: r) Hsemi) as Hr.
  simpl in Hr. apply andb_true_iff in Hr. destruct Hr as [Hd' Hr].
  repeat rewrite <- app_assoc.
  change ("type " ++ (c :: w) ++ " = " ++ (d :: r) ++ ";" ++ rest)
    with ("type" ++ " " ++ (c :: w) ++ " " ++ "=" ++ " " ++ (d :: r) ++ ";"
            ++ rest).
  unfold type_pattern, export_opt. rewrite match_at_eq, mt_seq_eq.
  rewrite mt_opt_skip.
  2:{ rewrite mt_seq_eq. apply (mt_lit_fail "e" "xport" "t"). discriminate. }
  rewrite mt_seq_eq, (mt_lit_take "type"). cbv beta. rewrite mt_seq_eq.
  unfold ws1.
  apply (mt_plus_take isspace " "%char [] _
           ((c :: w) ++ " " ++ "=" ++ " " ++ (d :: r) ++ ";" ++ rest));
    [reflexivity | reflexivity | exact (word_not_space c Hc) |].
  cbv beta. rewrite mt_seq_eq. unfold word.
  apply (mt_plus_take isword c w _ (" " ++ "=" ++ " " ++ (d :: r) ++ ";" ++ rest));
    [assumption | assumption | reflexivity |].
  cbv beta. rewrite mt_seq_eq. unfold ws.
  apply (mt_star_take isspace " " _ ("=" ++ " " ++ (d :: r) ++ ";" ++ rest));
    [reflexivity | reflexivity |].
  cbv beta. rewrite mt_seq_eq, (mt_lit_take "="). cbv beta. rewrite mt_seq_eq.
  apply (mt_star_take isspace " " _ ((d :: r) ++ ";" ++ rest));
    [reflexivity | exact Hd |].
  cbv beta. rewrite mt_seq_eq.
  apply (mt_plus_take (notchr ";") d r _ (";" ++ rest));
    [assumption | assumption | reflexivity |].
  cbv beta. apply mt_opt_take. rewrite (mt_lit_take ";").
  finish_match ("type" ++ " " ++ (c :: w) ++ " " ++ "=" ++ " " ++ (d :: r) ++ ";")
               bef.
Qed.

Lemma type_pattern_fail_at_newline (bef rest : text) :
  match_at type_pattern bef (nl ++ rest) = None.
Proof.
  unfold type_pattern, export_opt. rewrite match_at_eq, mt_seq_eq.
  rewrite mt_opt_skip.
  - rewrite mt_seq_eq. apply (mt_lit_fail "t" "ype"). discriminate.
  - rewrite mt_seq_eq. apply (mt_lit_fail "e" "xport"). discriminate.
Qed.

Lemma alias_ok_facts (a : text * text) :
  alias_ok a = true ->
  is_ident (fst a) = true /\ snd a <> [] /\ strip (snd a) = snd a
  /\ ~ In ";"%char (snd a).
Proof.
  unfold alias_ok. destruct a as [N rhs]. cbn [fst snd].
  destruct rhs as [|c r]; rewrite ?andb_true_iff, ?negb_true_iff.
  - intros [_ H]. discriminate H.
  - intros [H1 [H2 H3]]. split; [exact H1|]. split; [discriminate|].
    split; [apply text_eqb_eq; exact H2 | apply contains_char_false; exact H3].
Qed.

Lemma flat_map_singletons {A B} (f : A -> list B) (g : A -> B) (l : list A) :
  (forall x, In x l -> f x = [g x]) -> flat_map f l = map g l.
Proof.
  induction l as [|x l IH]; intros H; [reflexivity|].
  cbn [flat_map map]. rewrite (H x (or_introl eq_refl)). cbn [app].
  f_equal. apply IH. intros y Hy. apply H. right. exact Hy.
Qed.

Lemma enum_assignments_joined (es : list (text * list member)) :
  forallb (fun e => is_ident (fst e) && forallb member_ok (snd e)) es = true ->
  enum_assignments (join nl (map (fun e => enum_text (fst e) (snd e)) es))
  = map (fun e => (fst e, map member_value (snd e))) es.
Proof.
  intros H. rewrite forallb_forall in H. unfold enum_assignments, finditer.
  rewrite (scan_joined (eq "{"%char) enum_pattern).
  - rewrite flat_map_concat_map, !map_map, <- flat_map_concat_map.
    apply flat_map_singletons. intros e He. cbn [m_text].
    specialize (H e He). apply andb_true_iff in H. destruct H as [Hn Hm].
    rewrite parse_enum_text by assumption. reflexivity.
  - apply braces_needs.
  - intros bef rest. apply (braces_fail_at_newline "enum"). reflexivity.
  - intros D HD. apply in_map_iff in HD. destruct HD as (e & <- & He).
    specialize (H e He). apply andb_true_iff in H. destruct H as [Hn Hm].
    split.
    + unfold enum_text. discriminate.
    + intros bef rest. rewrite enum_text_body.
      apply (braces_match_rest "enum"); [reflexivity | exact Hn|].
      apply members_no_brace. exact Hm.
Qed.

Lemma interface_assignments_joined (ifs : list (text * list decl)) :
  forallb (fun i => is_ident (fst i) && forallb decl_ok (snd i)) ifs = true ->
  interface_assignments
    (join nl (map (fun i => interface_text (fst i) (snd i)) ifs))
  = map (fun i => (fst i, interface_text (fst i) (snd i))) ifs.
Proof.
  intros H. rewrite forallb_forall in H. unfold interface_assignments, finditer.
  rewrite (scan_joined (eq "{"%char) interface_pattern).
  - rewrite flat_map_concat_map, !map_map, <- flat_map_concat_map.
    apply flat_map_singletons. intros i Hi. cbn [m_text].
    specialize (H i Hi). apply andb_true_iff in H. destruct H as [Hn Hd].
    rewrite parse_interface_text by assumption. reflexivity.
  - apply braces_needs.
  - intros bef rest. apply (braces_fail_at_newline "interface"). reflexivity.
  - intros D HD. apply in_map_iff in HD. destruct HD as (i & <- & Hi).
    specialize (H i Hi). apply andb_true_iff in H. destruct H as [Hn Hd].
    split.
    + unfold interface_text. discriminate.
    + intros bef rest. rewrite interface_text_body.
      apply (braces_match_rest "interface"); [reflexivity | exact Hn|].
      apply lines_no_brace. exact Hd.
Qed.

Lemma type_assignments_joined (als : list (text * text)) :
  forallb alias_ok als = true ->
  type_assignments (join nl (map alias_text als)) = als.
Proof.
  intros H. rewrite forallb_forall in H. unfold type_assignments, finditer.
  rewrite (scan_joined (eq "="%char) type_pattern).
  - rewrite flat_map_concat_map, !map_map, <- flat_map_concat_map.
    rewrite <- (map_id als) at 2.
    apply flat_map_singletons. intros a Ha. cbn [m_text].
    destruct (alias_ok_facts a (H a Ha)) as (Hn & Hne & Hs & Hsemi).
    unfold alias_text. rewrite parse_type_alias_text by assumption.
    destruct a; reflexivity.
  - apply type_pattern_needs_equals.
  - apply type_pattern_fail_at_newline.
  - intros D HD. apply in_map_iff in HD. destruct HD as (a & <- & Ha).
    destruct (alias_ok_facts a (H a Ha)) as (Hn & Hne & Hs & Hsemi).
    split.
    + unfold alias_text. discriminate.
    + intros bef rest. unfold alias_text.
      apply type_pattern_match_rest; assumption.
Qed.

(** *** Arrays of unions of names *)

Lemma ident_plain_branch (n : text) : is_ident n = true -> plain_branch n = true.
Proof.
  intros H. pose proof (ident_words n H) as Hw.
  destruct n as [|c n]; [discriminate H|]. unfold plain_branch.
  rewrite (word_strip _ Hw), text_eqb_refl.
  rewrite (word_contains (c :: n) "|" "|" Hw eq_refl); [reflexivity|].
  left. reflexivity.
Qed.

Lemma join_ident_chars (ls : list text) :
  forallb is_ident ls = true ->
  forall c, In c (join " | " ls) ->
    isword c = true \/ c = " "%char \/ c = "|"%char.
Proof.
  induction ls as [|l ls IH]; intros H c Hc; [destruct Hc|].
  cbn [forallb] in H. apply andb_true_iff in H. destruct H as [Hl H].
  pose proof (ident_words l Hl) as Hw. rewrite forallb_forall in Hw.
  destruct ls as [|b ls].
  - left. apply Hw. exact Hc.
  - rewrite join_cons2 in Hc. apply in_app_or in Hc.
    destruct Hc as [Hc|Hc]; [left; apply Hw; exact Hc|].
    cbn in Hc. destruct Hc as [<-|[<-|[<-|Hc]]]; auto.
Qed.

Lemma join_idents_without (ls : list text) (c : ascii) :
  forallb is_ident ls = true -> isword c = false ->
  c <> " "%char -> c <> "|"%char -> ~ In c (join " | " ls).
Proof.
  intros H Hw Hs Hb Hin.
  destruct (join_ident_chars ls H c Hin) as [E|[E|E]]; congruence.
Qed.

Lemma which_rule_union_idents self (a b : text) (ls : list text) :
  forallb is_ident (a :: b :: ls) = true ->
  which_rule self (join " | " (a :: b :: ls)) = R_union.
Proof.
  intros H. set (T := join " | " (a :: b :: ls)).
  assert (forall c, isword c = false -> c <> " "%char -> c <> "|"%char ->
                    ~ In c T) as Hno
      by (intros c; apply join_idents_without; exact H).
  assert (In " "%char T) as Hsp.
  { unfold T. rewrite join_cons2. apply in_or_app. right. left. reflexivity. }
  unfold which_rule.
  assert (dict_get T TYPE_MAP = None) as E0.
  { apply TYPE_MAP_none. destruct (forallb isword T) eqn:E; [|reflexivity].
    rewrite forallb_forall in E. discriminate (E _ Hsp). }
  assert (endswith "[]" T = false) as E1.
  { destruct (endswith "[]" T) eqn:E; [|reflexivity].
    apply endswith_true in E. destruct E as [r E].
    exfalso. apply (Hno "]"%char); try discriminate; try reflexivity.
    rewrite E. apply in_or_app. right. right. left. reflexivity. }
  assert (endswith ">" T = false) as E2.
  { destruct (endswith ">" T) eqn:E; [|reflexivity].
    apply endswith_true in E. destruct E as [r E].
    exfalso. apply (Hno ">"%char); try discriminate; try reflexivity.
    rewrite E. apply in_or_app. right. left. reflexivity. }
  assert (startswith "Record<" T = false) as E3.
  { destruct (startswith "Record<" T) eqn:E; [|reflexivity].
    apply startswith_true in E. destruct E as [r E].
    exfalso. apply (Hno "<"%char); try discriminate; try reflexivity.
    rewrite E. apply in_or_app. left. cbn. auto 10. }
  assert (contains " | " T = true) as E4.
  { unfold T. rewrite join_cons2. apply contains_suffix.
    apply startswith_contains. apply startswith_app. }
  rewrite E0, E1, E2, E3, E4, andb_false_r. reflexivity.
Qed.

Lemma union_of_idents self (a b : text) (ls : list text) (opt : bool) :
  forallb is_ident (a :: b :: ls) = true ->
  forallb (fun l => negb (startswith "undefined" l)) (a :: b :: ls) = true ->
  forallb (fun l => negb (startswith "null" l)) (a :: b :: ls) = true ->
  contains " | undefined" (join " | " (a :: b :: ls)) = false
  /\ contains " | null" (join " | " (a :: b :: ls)) = false
  /\ convert_type self (join " | " (a :: b :: ls)) opt
     = add_optional opt
         ("z.union(["
            ++ join ", " (map (fun n => convert_type self n false)
                              (a :: b :: ls)) ++ "])").
Proof.
  intros H Hu Hn.
  assert (forallb plain_branch (a :: b :: ls) = true) as Hp.
  { apply forallb_forall. intros x Hx. apply ident_plain_branch.
    rewrite forallb_forall in H. apply H. exact Hx. }
  split; [|split].
  - apply (branches_no_marker "undefined"); try assumption.
    + cbn. intros X. repeat (destruct X as [X|X]; [discriminate X|]).
      destruct X.
    + discriminate.
  - apply (branches_no_marker "null"); try assumption.
    + cbn. intros X. repeat (destruct X as [X|X]; [discriminate X|]).
      destruct X.
    + discriminate.
  - apply convert_union_branches; try assumption.
    + destruct (endswith "?" (join " | " (a :: b :: ls))) eqn:E; [|reflexivity].
      apply endswith_true in E. destruct E as [r E]. exfalso.
      apply (join_idents_without (a :: b :: ls) "?"%char H);
        try discriminate; try reflexivity.
      rewrite E. apply in_or_app. right. left. reflexivity.
    + apply which_rule_union_idents. exact H.
Qed.

(** Both array forms around a union of names. *)
Lemma array_of_union self (a b : text) (ls : list text) (opt : bool) :
  forallb is_ident (a :: b :: ls) = true ->
  forallb (fun l => negb (startswith "undefined" l)) (a :: b :: ls) = true ->
  forallb (fun l => negb (startswith "null" l)) (a :: b :: ls) = true ->
  convert_type self ("Array<" ++ join " | " (a :: b :: ls) ++ ">") opt
  = add_optional opt
      ("z.array(z.union(["
         ++ join ", " (map (fun n => convert_type self n false) (a :: b :: ls))
         ++ "]))")
  /\ convert_type self (join " | " (a :: b :: ls) ++ "[]") opt
     = add_optional opt
         ("z.array(z.union(["
            ++ join ", " (map (fun n => convert_type self n false)
                              (a :: b :: ls))
            ++ "]))").
Proof.
  intros H Hu Hn.
  destruct (union_of_idents self a b ls false H Hu Hn) as (Mu & Mn & E).
  cbn [add_optional] in E. split.
  - rewrite convert_array_generic by assumption. rewrite E.
    repeat rewrite <- app_assoc. reflexivity.
  - rewrite convert_array_suffix by assumption. rewrite E.
    repeat rewrite <- app_assoc. reflexivity.
Qed.

(** ** Fields written on one line *)

Lemma mt_opt_none {R} a st (k : mstate -> option R) :
  mt a st k = None -> k st = None -> mt (Opt a) st k = None.
Proof. intros H1 H2. cbn [mt]. rewrite H1. exact H2. Qed.

(** Before the end of a line that still holds a character that is no
    blank, [\s*$] fails. *)
Lemma ws_eol_fails {R} (X bef : text) gs (k : mstate -> option R) :
  ~ In newline X -> forallb isspace X = false ->
  mt (ws ;; Eol) (MS bef X gs) k = None.
Proof.
  intros Hnl Hsp. rewrite mt_seq_eq. unfold ws. apply mt_star_none.
  intros u v E Hu. cbv beta. destruct v as [|y v].
  - rewrite app_nil_r in E. subst u. congruence.
  - apply mt_eol_fail. intros ->. apply Hnl. rewrite E.
    apply in_or_app. right. left. reflexivity.
Qed.

Lemma semicolon_ws_eol_fails {R} (v bef : text) gs (k : mstate -> option R) :
  v <> [] -> ~ In newline v ->
  mt (Opt (Lit ";") ;; ws ;; Eol) (MS bef (v ++ ";" ++ " " ++ []) gs) k = None.
Proof.
  intros Hv Hnl.
  assert (forall X : text, ~ In newline X ->
            ~ In newline (X ++ ";" ++ " " ++ [])
            /\ forallb isspace (X ++ ";" ++ " " ++ []) = false) as Hx.
  { intros X HX. split.
    - intros H. apply in_app_or in H. destruct H as [H|H]; [contradiction|].
      cbn in H. destruct H as [H|[H|[]]]; discriminate H.
    - rewrite forallb_app. cbn. apply andb_false_r. }
  rewrite mt_seq_eq. apply mt_opt_none.
  - destruct v as [|y v]; [contradiction|].
    destruct (Ascii.eqb_spec y ";") as [->|Hy].
    + change ((";"%char :: v) ++ ";" ++ " " ++ [])
        with (";" ++ v ++ ";" ++ " " ++ []).
      rewrite (mt_lit_take ";"). cbv beta.
      destruct (Hx v) as [H1 H2].
      { intros H. apply Hnl. right. exact H. }
      apply ws_eol_fails; assumption.
    + cbn [app]. apply mt_lit_fail. exact Hy.
  - destruct (Hx v Hnl) as [H1 H2]. apply ws_eol_fails; assumption.
Qed.

(** A body that is one line holding [name: T;] is one match, whatever
    semicolons [T] holds. *)
Lemma one_line_match (name T : text) (optional : bool) :
  is_ident name = true -> plain_line newline T = true ->
  match_at field_pattern []
           ((" " ++ name ++ mark optional ++ ": " ++ T ++ "; ") ++ [])
  = Some (RM (" " ++ name ++ mark optional ++ ": " ++ T ++ "; ")
             [(4, T); (3, mark optional); (2, name)]).
Proof.
  intros HN HT.
  destruct (ident_cons name HN) as (c & w & EN & Hc & Hw).
  destruct (plain_line_facts _ _ HT)
    as (d & r & t0 & z & Et & Ez & Hst & Hd & Hz & Hdot & Hnl & _ & _).
  repeat rewrite <- app_assoc.
  change (" " ++ name ++ mark optional ++ ": " ++ T ++ "; " ++ [])
    with (" " ++ name ++ mark optional ++ ":" ++ " " ++ T ++ ";" ++ " " ++ []).
  change (" " ++ name ++ mark optional ++ ": " ++ T ++ "; ")
    with (" " ++ name ++ mark optional ++ ":" ++ " " ++ T ++ ";" ++ " ").
  unfold field_pattern. rewrite match_at_eq, mt_seq_eq.
  rewrite mt_bol_ok by (left; reflexivity). cbv beta.
  rewrite mt_seq_eq. unfold ws at 1.
  apply (mt_star_take isspace " " _
           (name ++ mark optional ++ ":" ++ " " ++ T ++ ";" ++ " " ++ []));
    [reflexivity | rewrite EN; exact (word_not_space c Hc) |].
  cbv beta. rewrite mt_seq_eq. rewrite mt_opt_skip.
  2:{ rewrite mt_seq_eq, EN. apply (mt_lit_fail "/" "**" c).
      intros ->. discriminate Hc. }
  rewrite mt_seq_eq. unfold word. rewrite EN at 1.
  apply (mt_grp_plus_take 2 isword c w _
           (mark optional ++ ":" ++ " " ++ T ++ ";" ++ " " ++ []));
    [assumption | assumption | destruct optional; reflexivity |].
  cbv beta. rewrite mt_seq_eq.
  apply mt_mark; [reflexivity|].
  rewrite mt_seq_eq. unfold ws at 1. rewrite mt_star_stop by reflexivity.
  rewrite mt_seq_eq, (mt_lit_take ":"). cbv beta.
  rewrite mt_seq_eq. unfold ws at 1.
  apply (mt_star_take isspace " " _ (T ++ ";" ++ " " ++ []));
    [reflexivity | rewrite Et; exact Hd |].
  cbv beta. rewrite mt_seq_eq.
  assert (dot d = true /\ forallb dot r = true) as [Hdd Hdr].
  { rewrite Et in Hdot. cbn in Hdot. apply andb_true_iff in Hdot. exact Hdot. }
  rewrite Et at 1.
  apply (mt_grp_lazy_take 4 dot d r _ (";" ++ " " ++ []));
    [assumption | assumption | |].
  - intros u v Euv Hv. cbv beta. apply semicolon_ws_eol_fails; [exact Hv|].
    intros H. apply Hnl. rewrite Et, Euv. right. apply in_or_app. right.
    exact H.
  - cbv beta. rewrite mt_seq_eq. apply mt_opt_take.
    rewrite (mt_lit_take ";"). cbv beta. rewrite mt_seq_eq. unfold ws.
    apply (mt_star_take isspace " " _ []); [reflexivity | exact I |].
    cbv beta. cbn [mt ms_rest]. rewrite <- Et, <- EN.
    finish_match (" " ++ name ++ mark optional ++ ":" ++ " " ++ T ++ ";" ++ " ")
                 ([] : text).
Qed.

Lemma parse_interface_one_line (N name T : text) (optional : bool) :
  is_ident N = true -> is_ident name = true -> plain_line newline T = true ->
  parse_interface
    ("interface " ++ N ++ " { " ++ name ++ mark optional ++ ": " ++ T ++ "; }")
  = Ok (N, [(name, T, optional, None)]).
Proof.
  intros HN Hn HT.
  destruct (plain_line_facts _ _ HT)
    as (_ & _ & _ & _ & _ & _ & Hst & _ & _ & _ & _ & Hb & _).
  set (body := " " ++ name ++ mark optional ++ ": " ++ T ++ "; ").
  assert ("interface " ++ N ++ " { " ++ name ++ mark optional ++ ": " ++ T
            ++ "; }"
          = "interface " ++ N ++ " {" ++ body ++ "}") as E.
  { unfold body. repeat rewrite <- app_assoc. reflexivity. }
  rewrite E, parse_interface_body.
  - unfold finditer.
    assert (scan field_pattern 0 [] (body ++ [])
            = RM body [(4, T); (3, mark optional); (2, name)]
                :: scan field_pattern 0 (rev body ++ []) []) as Es.
    { apply scan_match_text.
      - apply one_line_match; assumption.
      - reflexivity.
      - unfold body. discriminate. }
    rewrite app_nil_r in Es. rewrite Es.
    rewrite (scan_needs _ _ field_pattern_needs_word)
      by (intros X; inversion X).
    cbn [map group_str group m_groups group_in Nat.eqb].
    rewrite Hst, mark_values. reflexivity.
  - exact HN.
  - unfold body. discriminate.
  - unfold body. intros H. cbn in H. destruct H as [H|H]; [discriminate H|].
    apply in_app_or in H. destruct H as [H|H].
    + apply (words_no_char name "}" (ident_words name Hn) eq_refl H).
    + apply in_app_or in H. destruct H as [H|H].
      * destruct optional; cbn in H; [destruct H as [H|[]]; discriminate H|].
        destruct H.
      * cbn in H. destruct H as [H|[H|H]]; try discriminate H.
        apply in_app_or in H. destruct H as [H|H]; [contradiction|].
        cbn in H. destruct H as [H|[H|[]]]; discriminate H.
Qed.

End MoreFacts.

(** ** Further properties of the script *)

Module Extras.
Import Py Re Zod Cli Props MoreProps PyFacts StripFacts ReFacts MatchFacts
       ZodFacts Rules ParseFacts MoreFacts.

(** X1.  A primitive keyword of [TYPE_MAP], with any blanks around it,
    converts to the validator of the table, whatever the registries
    hold (a declaration of the same name does not change it); the
    optional wrapper is added when the flag asks for it. *)
Theorem X1_primitive_keyword self (t : text) (opt : bool) (z : text) :
  dict_get (strip t) TYPE_MAP = Some z ->
  convert_type self t opt = add_optional opt z.
Proof. apply convert_primitive. Qed.

Lemma X1_primitive_keyword_witness :
  convert_type (MkConverter [("Date" : text, "interface Date { iso: string }" : text)]
                            [] [])
               " Date " true
  = "z.date().optional()".
Proof.
  apply (X1_primitive_keyword _ " Date " true "z.date()"). reflexivity.
Defined.

(** X2.  Blanks before and after a type expression do not change its
    conversion. *)
Theorem X2_surrounding_blanks self (l t r : text) (opt : bool) :
  forallb isspace l = true -> forallb isspace r = true ->
  convert_type self (l ++ t ++ r) opt = convert_type self t opt.
Proof. apply convert_type_pad. Qed.

Lemma X2_surrounding_blanks_witness :
  convert_type init ("  " ++ "Array<string | number>" ++ " ") false
  = convert_type init "Array<string | number>" false.
Proof.
  apply (X2_surrounding_blanks init "  " "Array<string | number>" " " false);
    reflexivity.
Defined.

(** X3.  A question mark at the end of an expression works as the
    optional flag of the call: [T?] converts as [T] with the flag set,
    for every [T] that does not itself end in a question mark.  And the
    flag adds one [.optional()] to the conversion without it, unless the
    expression already carries a sign of optionality, in which case the
    flag changes nothing. *)
Theorem X3_optional_mark_and_flag self :
  (forall t opt, endswith "?" (strip t) = false ->
     convert_type self (t ++ "?") opt = convert_type self t true)
  /\ (forall t,
        convert_type self t true
        = if snd (strip_optional t false) then convert_type self t false
          else convert_type self t false ++ ".optional()").
Proof.
  split.
  - intros t opt H. apply convert_type_head. apply strip_optional_mark.
    exact H.
  - apply convert_type_flag.
Qed.

Lemma X3_optional_mark_and_flag_witness :
  convert_type init ("string[]" ++ "?") false
  = convert_type init "string[]" true.
Proof.
  apply (proj1 (X3_optional_mark_and_flag init) "string[]" false). reflexivity.
Defined.

(** X4.  A text between two quote characters that holds no [ | ] is a
    literal type: it converts to [z.literal(...)] around the text as it
    stands, quotes included, whatever the registries hold. *)
Theorem X4_quoted_literal self (q q' : ascii) (body : text) (opt : bool) :
  quote_char q = true -> quote_char q' = true ->
  contains " | " body = false ->
  convert_type self (q :: body ++ [q']) opt
  = add_optional opt ("z.literal(" ++ (q :: body ++ [q']) ++ ")").
Proof. apply convert_literal. Qed.

Lemma X4_quoted_literal_witness :
  convert_type init "'admin'" false = "z.literal('admin')".
Proof.
  apply (X4_quoted_literal init squote squote "admin" false); reflexivity.
Defined.

(** X5.  A trailing [ | null] is read as a sign of optionality, like
    [ | undefined]: for a branch [A] without bar, without blanks at its
    ends and without a final question mark, [A | null] converts to the
    conversion of [A] followed by [.optional()]. *)
Theorem X5_null_branch self (A : text) (opt : bool) :
  plain_branch A = true -> endswith "?" A = false ->
  convert_type self (A ++ " | null") opt
  = convert_type self A false ++ ".optional()".
Proof. apply convert_or_null. Qed.

Lemma X5_null_branch_witness :
  convert_type init ("string" ++ " | null") false
  = convert_type init "string" false ++ ".optional()".
Proof.
  apply (X5_null_branch init "string" false); reflexivity.
Defined.

(** X6.  [convert_type] consults the registries for membership only:
    two converters that declare the same names convert every expression
    alike, whatever texts and values they store under these names. *)
Theorem X6_registry_membership self1 self2 (t : text) (opt : bool) :
  (forall t', declared self1 t' = declared self2 t') ->
  convert_type self1 t opt = convert_type self2 t opt.
Proof. intros H. apply convert_type_declared. exact H. Qed.

Lemma X6_registry_membership_witness :
  convert_type (MkConverter [("User" : text, "interface User { a: string }" : text)]
                            [] [])
               "User[]" false
  = convert_type (MkConverter [] [("User" : text, "number" : text)] [])
                 "User[]" false.
Proof.
  apply X6_registry_membership.
  intros t'. unfold declared, dict_mem. cbn [interfaces types enums dict_get].
  destruct (text_eqb t' "User"); reflexivity.
Defined.

(** X7.  [parse_interface] on an interface written with one field a
    line returns the name of the interface and its fields in the order
    of the source, each with its name, its type, whether it carries the
    optional mark, and the text of the JSDoc comment before it, if
    any. *)
Theorem X7_interface_fields (name : text) (ds : list decl) :
  is_ident name = true -> forallb decl_ok ds = true ->
  parse_interface (interface_text name ds) = Ok (name, map decl_field ds).
Proof. apply parse_interface_text. Qed.

Lemma X7_interface_fields_witness :
  parse_interface
    (interface_text "User"
       [("id" : text, false, "number" : text, Some ("The id" : text));
        ("name" : text, true, "string | null" : text, None)])
  = Ok ("User" : text,
        [("id" : text, "number" : text, false, Some ("The id" : text));
         ("name" : text, "string | null" : text, true, None)]).
Proof.
  apply (X7_interface_fields "User"
           [("id" : text, false, "number" : text, Some ("The id" : text));
            ("name" : text, true, "string | null" : text, None)]);
    reflexivity.
Defined.



(** X9.  [convert_file] on an enum declaration assigns its values to its
    name in the enum registry: looking the name up gives the values of
    the declaration, every other name keeps what it had, and the order
    of the names is kept, a new name coming last. *)
Theorem X9_enum_registered self (name : text) (ms : list member) :
  is_ident name = true -> forallb member_ok ms = true ->
  dict_get name (enums (extract self (enum_text name ms)))
  = Some (map member_value ms)
  /\ (forall k, k <> name ->
        dict_get k (enums (extract self (enum_text name ms)))
        = dict_get k (enums self))
  /\ keys (enums (extract self (enum_text name ms)))
     = if dict_mem name (enums self) then keys (enums self)
       else keys (enums self) ++ [name].
Proof.
  intros Hn Hms. rewrite (extract_enum_text self name ms Hn Hms).
  split; [apply dict_get_set_same|]. split.
  - intros k Hk. apply dict_get_set_other. exact Hk.
  - apply dict_set_keys.
Qed.

Lemma X9_enum_registered_witness :
  dict_get "Color"
    (enums (extract (MkConverter [] [] [("Size" : text, ["S" : text]);
                                        ("Color" : text, ["old" : text])])
                    (enum_text "Color" [("RED" : text, None);
                                        ("GREEN" : text, Some ("green_value" : text))])))
  = Some ["RED" : text; "green_value" : text].
Proof.
  apply (proj1 (X9_enum_registered
                  (MkConverter [] [] [("Size" : text, ["S" : text]);
                                      ("Color" : text, ["old" : text])])
                  "Color"
                  [("RED" : text, None);
                   ("GREEN" : text, Some ("green_value" : text))]
                  eq_refl eq_refl)).
Defined.

(** X10.  A declaration whose braces hold nothing, or blanks only,
    parses to its name with no field and no member; the blocks emitted
    for it are the empty object schema and the empty enumeration. *)
Theorem X10_blank_body (name sp : text) :
  is_ident name = true -> forallb isspace sp = true ->
  parse_interface ("interface " ++ name ++ " {" ++ sp ++ "}") = Ok (name, [])
  /\ parse_enum ("enum " ++ name ++ " {" ++ sp ++ "}") = Ok (name, [])
  /\ (forall self,
        interface_to_zod self name []
        = "export const " ++ name ++ "Schema = z.object({" ++ nl ++ "});"
            ++ nl ++ nl ++ type_binding name)
  /\ enum_to_zod name []
     = "export const " ++ name ++ "Schema = z.enum([]);" ++ nl ++ nl
         ++ type_binding name.
Proof.
  intros Hn Hsp. split; [apply parse_interface_blank; assumption|].
  split; [apply parse_enum_blank; assumption|]. split.
  - intros self. rewrite shape_block_shape. reflexivity.
  - rewrite enum_block_shape. repeat rewrite <- app_assoc. reflexivity.
Qed.

Lemma X10_blank_body_witness :
  parse_interface ("interface " ++ "Empty" ++ " {" ++ "  " ++ "}")
  = Ok ("Empty" : text, [])
  /\ parse_enum ("enum " ++ "Empty" ++ " {" ++ "  " ++ "}")
     = Ok ("Empty" : text, []).
Proof.
  split.
  - apply (proj1 (X10_blank_body "Empty" "  " eq_refl eq_refl)).
  - apply (proj1 (proj2 (X10_blank_body "Empty" "  " eq_refl eq_refl))).
Defined.

(** X11.  The handlers [except ValueError: pass] of [convert_file] never
    run: on every text matched by the interface, alias or enum pattern,
    in any source, the parser of that kind returns a result. *)
Theorem X11_matches_always_parse (src : text) :
  Forall (fun m => exists r, parse_interface (m_text m) = Ok r)
         (finditer interface_pattern src)
  /\ Forall (fun m => exists r, parse_type_alias (m_text m) = Ok r)
            (finditer type_pattern src)
  /\ Forall (fun m => exists r, parse_enum (m_text m) = Ok r)
            (finditer enum_pattern src).
Proof.
  repeat split; apply Forall_forall; intros m Hm.
  - exact (interface_match_parses src m Hm).
  - exact (type_match_parses src m Hm).
  - exact (enum_match_parses src m Hm).
Qed.

(** X12.  A source text without an opening brace and without an equals
    sign holds no declaration: [convert_file] on a new converter leaves
    the registries empty and returns the header alone. *)
Theorem X12_no_declaration (src : text) :
  contains "{" src = false -> contains "=" src = false ->
  convert_file init src
  = Ok (init, "import { z } from 'zod';" ++ nl ++ nl
                ++ "// Auto-generated Zod schemas" ++ nl).
Proof.
  intros Hb He. apply convert_file_no_declaration;
    apply contains_char_false; assumption.
Qed.

Lemma X12_no_declaration_witness :
  convert_file init "function area(r: number): number;"
  = Ok (init, "import { z } from 'zod';" ++ nl ++ nl
                ++ "// Auto-generated Zod schemas" ++ nl).
Proof.
  apply (X12_no_declaration "function area(r: number): number;"); reflexivity.
Defined.

(** X13.  [convert_file] never drops or reorders what a converter
    already holds: after the call each registry lists the names it had,
    in the same order, and the new names after them; a name that was
    declared is still declared. *)
Theorem X13_registries_grow self (src : text) :
  grows self (extract self src)
  /\ (forall t, declared self t = true -> declared (extract self src) t = true).
Proof.
  split; [apply extract_grows|].
  intros t. apply grows_declared. apply extract_grows.
Qed.

(** X14.  The three loops of [convert_file] are runs of dictionary
    assignments fixed by the source text, so a second call with the same
    text on the same converter leaves the registries as the first call
    left them and returns the same result. *)
Theorem X14_second_run self (src : text) :
  extract self src
  = MkConverter (assign (interfaces self) (interface_assignments src))
                (assign (types self) (type_assignments src))
                (assign (enums self) (enum_assignments src))
  /\ extract (extract self src) src = extract self src
  /\ convert_file (extract self src) src = convert_file self src.
Proof.
  split; [apply extract_assign|]. split; [apply extract_idem|].
  unfold convert_file. rewrite extract_idem. reflexivity.
Qed.





(** X17.  A union of two or more branches without bar and without blanks
    at their ends, none beginning with [undefined] or [null] and the last
    not ending in a question mark, converts branch by branch when it
    reaches the union rule: the result is [z.union([...])] around the
    conversions of the branches, in their order, separated by a comma
    and a space. *)
Theorem X17_union_of_branches self (ls : list text) (opt : bool) :
  forallb plain_branch ls = true ->
  forallb (fun l => negb (startswith "undefined" l)) ls = true ->
  forallb (fun l => negb (startswith "null" l)) ls = true ->
  endswith "?" (join " | " ls) = false ->
  which_rule self (join " | " ls) = R_union ->
  convert_type self (join " | " ls) opt
  = add_optional opt
      ("z.union(["
         ++ join ", " (map (fun b => convert_type self b false) ls) ++ "])").
Proof. apply convert_union_branches. Qed.

Lemma X17_union_of_branches_witness :
  convert_type init "'admin' | 'user' | 'guest'" false
  = "z.union([z.literal('admin'), z.literal('user'), z.literal('guest')])".
Proof.
  apply (X17_union_of_branches init
           ["'admin'" : text; "'user'" : text; "'guest'" : text] false);
    reflexivity.
Defined.

(** X18.  A declaration after the [export] keyword is read like the bare
    declaration: the parsers return the same name, fields and members,
    and [convert_file] makes the same assignment to the registry of its
    kind (for an interface the stored text keeps the keyword). *)
Theorem X18_exported_declarations :
  (forall name body,
      is_ident name = true -> contains "}" body = false ->
      parse_interface
        ("export " ++ "interface " ++ name ++ " {" ++ body ++ "}")
      = parse_interface ("interface " ++ name ++ " {" ++ body ++ "}")
      /\ parse_enum ("export " ++ "enum " ++ name ++ " {" ++ body ++ "}")
         = parse_enum ("enum " ++ name ++ " {" ++ body ++ "}"))
  /\ (forall self name ds,
         is_ident name = true -> forallb decl_ok ds = true ->
         interfaces (extract self ("export " ++ interface_text name ds))
         = dict_set name ("export " ++ interface_text name ds)
             (interfaces self)
         /\ parse_interface ("export " ++ interface_text name ds)
            = Ok (name, map decl_field ds))
  /\ (forall self name ms,
         is_ident name = true -> forallb member_ok ms = true ->
         enums (extract self ("export " ++ enum_text name ms))
         = dict_set name (map member_value ms) (enums self))
  /\ (forall self a,
         alias_ok a = true ->
         types (extract self ("export " ++ alias_text a))
         = dict_set (fst a) (snd a) (types self)).
Proof.
  split; [|split; [|split]].
  - intros name body Hn Hb. apply contains_char_false in Hb. split.
    + apply parse_interface_exported; assumption.
    + apply parse_enum_exported; assumption.
  - intros self name ds Hn Hds.
    apply extract_interface_text_exported; assumption.
  - intros self name ms Hn Hms. apply extract_enum_text_exported; assumption.
  - intros self a Ha.
    destruct (alias_ok_facts a Ha) as (Hn & Hne & Hs & Hsemi).
    apply (extract_alias self (fst a) (snd a) Hn Hne Hs Hsemi).
Qed.

Lemma X18_exported_declarations_witness :
  enums (extract init
           ("export " ++ enum_text "Color"
                           [("RED" : text, None);
                            ("GREEN" : text, Some ("green_value" : text))]))
  = dict_set "Color" ["RED" : text; "green_value" : text] (enums init)
  /\ types (extract init ("export " ++ alias_text ("Id" : text, "string | number" : text)))
     = dict_set "Id" ("string | number" : text) (types init).
Proof.
  split.
  - apply (proj1 (proj2 (proj2 X18_exported_declarations)) init "Color"
             [("RED" : text, None);
              ("GREEN" : text, Some ("green_value" : text))]);
      reflexivity.
  - apply (proj2 (proj2 (proj2 X18_exported_declarations)) init
             ("Id" : text, "string | number" : text)).
    reflexivity.
Defined.

(** X19.  On declarations of one kind written one after the other, each
    on lines of its own, the loop of [convert_file] for that kind makes
    one assignment for each declaration, in the order of the source: a
    name declared twice keeps its first place and takes the last
    value. *)
Theorem X19_declarations_in_sequence self :
  (forall es,
      forallb (fun e => is_ident (fst e) && forallb member_ok (snd e)) es
      = true ->
      enums (extract self
               (join nl (map (fun e => enum_text (fst e) (snd e)) es)))
      = assign (enums self)
               (map (fun e => (fst e, map member_value (snd e))) es))
  /\ (forall als,
         forallb alias_ok als = true ->
         types (extract self (join nl (map alias_text als)))
         = assign (types self) als)
  /\ (forall ifs,
         forallb (fun i => is_ident (fst i) && forallb decl_ok (snd i)) ifs
         = true ->
         interfaces
           (extract self
              (join nl (map (fun i => interface_text (fst i) (snd i)) ifs)))
         = assign (interfaces self)
                  (map (fun i => (fst i, interface_text (fst i) (snd i)))
                       ifs)).
Proof.
  split; [|split].
  - intros es H. rewrite extract_assign. cbn [enums].
    rewrite enum_assignments_joined by exact H. reflexivity.
  - intros als H. rewrite extract_assign. cbn [types].
    rewrite type_assignments_joined by exact H. reflexivity.
  - intros ifs H. rewrite extract_assign. cbn [interfaces].
    rewrite interface_assignments_joined by exact H. reflexivity.
Qed.

Lemma X19_declarations_in_sequence_witness :
  enums (extract init
           (join nl
              (map (fun e => enum_text (fst e) (snd e))
                   [("Color" : text, [("RED" : text, @None text)]);
                    ("Size" : text, [("S" : text, None); ("M" : text, None)]);
                    ("Color" : text, [("BLUE" : text, None)])])))
  = [("Color" : text, ["BLUE" : text]); ("Size" : text, ["S" : text; "M" : text])].
Proof.
  apply (proj1 (X19_declarations_in_sequence init)
           [("Color" : text, [("RED" : text, @None text)]);
            ("Size" : text, [("S" : text, None); ("M" : text, None)]);
            ("Color" : text, [("BLUE" : text, None)])]).
  reflexivity.
Defined.

(** X20.  An array of a union of names, in either array form: for two or
    more identifiers, none beginning with [undefined] or [null], both
    [Array<A | B | ...>] and [A | B | ...[]] convert to the array
    validator around the union of the conversions of the names (the
    array suffix is taken off the whole expression before it is split
    at the bars). *)
Theorem X20_array_of_union self (a b : text) (ls : list text) (opt : bool) :
  forallb is_ident (a :: b :: ls) = true ->
  forallb (fun l => negb (startswith "undefined" l)) (a :: b :: ls) = true ->
  forallb (fun l => negb (startswith "null" l)) (a :: b :: ls) = true ->
  convert_type self ("Array<" ++ join " | " (a :: b :: ls) ++ ">") opt
  = add_optional opt
      ("z.array(z.union(["
         ++ join ", " (map (fun n => convert_type self n false) (a :: b :: ls))
         ++ "]))")
  /\ convert_type self (join " | " (a :: b :: ls) ++ "[]") opt
     = add_optional opt
         ("z.array(z.union(["
            ++ join ", " (map (fun n => convert_type self n false)
                              (a :: b :: ls))
            ++ "]))").
Proof. apply array_of_union. Qed.

Lemma X20_array_of_union_witness :
  convert_type
    (MkConverter [("User" : text, "interface User { id: number }" : text)]
                 [] [("Role" : text, ["admin" : text])])
    "Array<User | Role | string>" false
  = "z.array(z.union([UserSchema, RoleSchema, z.string()]))"
  /\ convert_type
       (MkConverter [("User" : text, "interface User { id: number }" : text)]
                    [] [("Role" : text, ["admin" : text])])
       "User | Role | string[]" false
     = "z.array(z.union([UserSchema, RoleSchema, z.string()]))".
Proof.
  apply (X20_array_of_union
           (MkConverter [("User" : text, "interface User { id: number }" : text)]
                        [] [("Role" : text, ["admin" : text])])
           "User" "Role" ["string" : text] false);
    reflexivity.
Defined.

(** X21.  Fields written on one line are read as one field: for an
    interface whose braces hold [name: T;] on a single line, where [T]
    is any text on one line without closing brace and without blanks at
    its ends, [parse_interface] returns the one field [name] with type
    [T], semicolons and further fields inside [T] included (the type
    runs to the last semicolon of the line). *)
Theorem X21_fields_on_one_line (N name T : text) (optional : bool) :
  is_ident N = true -> is_ident name = true -> plain_line newline T = true ->
  parse_interface
    ("interface " ++ N ++ " { " ++ name ++ mark optional ++ ": " ++ T ++ "; }")
  = Ok (N, [(name, T, optional, None)]).
Proof. apply parse_interface_one_line. Qed.

Lemma X21_fields_on_one_line_witness :
  parse_interface "interface User { name: string; age: number; }"
  = Ok ("User" : text,
        [("name" : text, "string; age: number" : text, false, None)]).
Proof.
  apply (X21_fields_on_one_line "User" "name" "string; age: number" false);
    reflexivity.
Defined.

End Extras.
